(** * GRASS addon scripts: a shallow embedding and its specification

    The scripts of this repository orchestrate calls into the GRASS raster,
    vector and database engine.  Each script is embedded in a module of its
    own, named after the script; the functions keep the names they have in
    the Python source.  The external engine is represented by the data it
    hands back (statistics tables, region descriptors, process results) and
    by the commands a script sends to it.

    Numbers: integer rasters are [Z]; floating-point values (percentiles,
    similarity scores, attribute values) are idealised as rationals [Q]. *)

From Stdlib Require Import ZArith QArith Qround Qminmax Qabs Lqa Lia.
From Stdlib Require Import List Ascii String Permutation Sorted.
From stdpp Require Import base option list strings gmap.
Import ListNotations.

(* ===================================================================== *)
(** * Part I: the embedding                                               *)
(* ===================================================================== *)

(** ** Python strings and builtins *)
Module Python.

Local Open Scope string_scope.
Local Open Scope list_scope.

(** Truth value of a string: empty is false. *)
Definition truthy (s : string) : bool := negb (String.eqb s "").

(** [sub in s] *)
Fixpoint contains (sub s : string) : bool :=
  String.prefix sub s ||
  match s with
  | EmptyString => false
  | String _ rest => contains sub rest
  end.

(** [s.split(sep)] for a one-character separator. *)
Fixpoint split_from (sep : ascii) (cur s : string) : list string :=
  match s with
  | EmptyString => [cur]
  | String c rest =>
      if Ascii.eqb c sep then cur :: split_from sep "" rest
      else split_from sep (cur +:+ String c "") rest
  end.

Definition split (sep : ascii) (s : string) : list string :=
  split_from sep "" s.

(** [sep.join(l)] *)
Fixpoint join (sep : string) (l : list string) : string :=
  match l with
  | [] => ""
  | [x] => x
  | x :: rest => x +:+ sep +:+ join sep rest
  end.

(** [os.path.join] of a directory and a relative name. *)
Definition path_join (dir name : string) : string := dir +:+ "/" +:+ name.

Definition digit (c : ascii) : option Z :=
  let n := Z.of_nat (nat_of_ascii c) in
  if ((48 <=? n) && (n <=? 57))%Z then Some (n - 48)%Z else None.

(** The digits of an exponent, at least one. *)
Fixpoint parse_digits (s : string) (acc : Z) (seen : bool) : option Z :=
  match s with
  | EmptyString => if seen then Some acc else None
  | String c rest =>
      match digit c with
      | Some d => parse_digits rest (acc * 10 + d)%Z true
      | None => None
      end
  end.

(** What follows [e] or [E]: an optional sign and the digits. *)
Definition parse_exponent (s : string) : option Z :=
  match s with
  | String c rest =>
      if Ascii.eqb c "+" then parse_digits rest 0 false
      else if Ascii.eqb c "-" then option_map Z.opp (parse_digits rest 0 false)
      else parse_digits s 0 false
  | EmptyString => None
  end.

(** The digits of a decimal number with at most one point, and an
    exponent if there is one; anything else raises ([None]). *)
Fixpoint parse_decimal (s : string) (acc : Z) (scale : positive)
    (frac seen : bool) : option Q :=
  match s with
  | EmptyString => if seen then Some (acc # scale) else None
  | String c rest =>
      if Ascii.eqb c "."
      then if frac then None else parse_decimal rest acc scale true seen
      else if Ascii.eqb c "e" || Ascii.eqb c "E"
      then if seen
           then match parse_exponent rest with
                | Some e => Some ((acc # scale) * Qpower 10 e)%Q
                | None => None
                end
           else None
      else match digit c with
           | Some d =>
               parse_decimal rest (acc * 10 + d)%Z
                 (if frac then (scale * 10)%positive else scale) frac true
           | None => None
           end
  end.

(** [float(s)] on the notations of finite decimal numbers, which are
    those the engine prints ([%.15g]: digits with at most one point, an
    exponent for small and large values): an optional sign, the digits
    and an optional exponent.  Anything else raises ([None]). *)
Definition float (s : string) : option Q :=
  match s with
  | String c rest =>
      if Ascii.eqb c "-"
      then option_map Qopp (parse_decimal rest 0 1 false false)
      else if Ascii.eqb c "+" then parse_decimal rest 0 1 false false
      else parse_decimal s 0 1 false false
  | EmptyString => None
  end.

(** [s.lower()] on ASCII letters; it is used on the names of raster
    maps, which the engine restricts to ASCII. *)
Definition lower_ascii (c : ascii) : ascii :=
  let n := nat_of_ascii c in
  if ((65 <=? n) && (n <=? 90))%nat then ascii_of_nat (n + 32) else c.

Fixpoint lower (s : string) : string :=
  match s with
  | EmptyString => EmptyString
  | String c rest => String (lower_ascii c) (lower rest)
  end.

(** [enumerate(l)] *)
Definition enumerate {A} (l : list A) : list (nat * A) :=
  combine (seq 0 (length l)) l.

End Python.

(** ** The engine as a script sees it, and the temporary-name bookkeeping *)
Module Engine.

Local Open Scope string_scope.
Local Open Scope list_scope.

(** What happens during a run, in order: a temporary name is made up, a
    name is appended to the global cleanup list, or an engine command
    runs, which may create artifacts under the names it is given. *)
Inductive event :=
| Generate (name : string)
| Append (name : string)
| Command (module : string) (creates : list string).

(** What a run cannot decide by itself: the identifiers [uuid.uuid4()]
    hands out, the node and process id, and at which step the run ends
    early (an engine command fails, or a check calls [gs.fatal]). *)
Record world := {
  uuid4_hex : nat -> string;
  node_pid : string;
  stops : nat -> bool
}.

(** The global cleanup list, the log, and the numbers of identifiers
    drawn and of steps taken. *)
Record state := {
  cleanup_list : list string;
  log : list event;
  uuid_calls : nat;
  steps : nat
}.

Definition initial : state :=
  {| cleanup_list := []; log := []; uuid_calls := 0; steps := 0 |}.

(** Script fragments; [None] is a run that has ended early. *)
Definition prog (A : Type) : Type := world -> state -> state * option A.

Definition ret {A} (a : A) : prog A := fun _ st => (st, Some a).

Definition bind {A B} (m : prog A) (k : A -> prog B) : prog B :=
  fun w st => match m w st with
              | (st', Some a) => k a w st'
              | (st', None) => (st', None)
              end.

Notation "x <- m ;; k" := (bind m (fun x => k))
  (at level 100, m at next level, right associativity).
Notation "m ;;; k" := (bind m (fun _ => k))
  (at level 100, right associativity).

Definition record (ev : event) (st : state) : state :=
  {| cleanup_list := cleanup_list st; log := log st ++ [ev];
     uuid_calls := uuid_calls st; steps := steps st |}.

(** [uuid.uuid4().hex] *)
Definition uuid4 : prog string :=
  fun w st =>
    ({| cleanup_list := cleanup_list st; log := log st;
        uuid_calls := S (uuid_calls st); steps := steps st |},
     Some (uuid4_hex w (uuid_calls st))).

(** [gs.append_node_pid(basename)] *)
Definition append_node_pid (basename : string) : prog string :=
  fun w st => (st, Some (basename +:+ "_" +:+ node_pid w)).

(** Marks [name] as a temporary name of this run. *)
Definition generated (name : string) : prog unit :=
  fun _ st => (record (Generate name) st, Some tt).

(** [LIST.append(name)] on the global cleanup list. *)
Definition append (name : string) : prog unit :=
  fun _ st =>
    ({| cleanup_list := cleanup_list st ++ [name];
        log := log st ++ [Append name];
        uuid_calls := uuid_calls st; steps := steps st |}, Some tt).

Definition step (st : state) : state :=
  {| cleanup_list := cleanup_list st; log := log st;
     uuid_calls := uuid_calls st; steps := S (steps st) |}.

(** An engine command; when it fails the run ends, and what it was to
    create may exist in part. *)
Definition run_command (module : string) (creates : list string)
    : prog unit :=
  fun w st =>
    (step (record (Command module creates) st),
     if stops w (steps st) then None else Some tt).

(** A check of the script that may end the run with [gs.fatal]. *)
Definition check : prog unit :=
  fun w st => (step st, if stops w (steps st) then None else Some tt).

Fixpoint for_each {A} (l : list A) (body : A -> prog unit) : prog unit :=
  match l with
  | [] => ret tt
  | x :: rest => body x ;;; for_each rest body
  end.

Definition when (b : bool) (m : prog unit) : prog unit :=
  if b then m else ret tt.

End Engine.

(** ** r.mess: multivariate environmental similarity *)
Module RMess.

Local Open Scope Q_scope.

(** *** r.mapcalc cell arithmetic

    A cell holds a number or the engine's NULL ([None]).  Every operator
    propagates NULL; division by zero yields NULL; [if(c,a,b)] is NULL
    when [c] is, and otherwise selects a branch without looking at the
    other one. *)
Definition cell := option Q.

Definition mc_float (a : cell) : cell := a.

Definition mc_arith (f : Q -> Q -> Q) (a b : cell) : cell :=
  match a, b with
  | Some x, Some y => Some (f x y)
  | _, _ => None
  end.

Definition mc_sub := mc_arith Qminus.
Definition mc_mul := mc_arith Qmult.

Definition mc_div (a b : cell) : cell :=
  match a, b with
  | Some x, Some y => if Qeq_bool y 0 then None else Some (x / y)
  | _, _ => None
  end.

Definition mc_test (f : Q -> Q -> bool) (a b : cell) : cell :=
  match a, b with
  | Some x, Some y => Some (if f x y then 1 else 0)
  | _, _ => None
  end.

Definition Qlt_bool (x y : Q) : bool := negb (Qle_bool y x).

Definition mc_eq := mc_test Qeq_bool.
Definition mc_le := mc_test Qle_bool.
Definition mc_lt := mc_test Qlt_bool.

Definition mc_if (c a b : cell) : cell :=
  match c with
  | None => None
  | Some x => if Qeq_bool x 0 then b else a
  end.

(** The map-algebra expression [calcc] of [compute_ies], cell by cell:
    [p] is the cell of the recoded layer (tmpf3, the cumulative
    percentile), [v] the cell of the scaled projection layer (INtmpf2). *)
Definition calcc (p v : cell) (INenvmin INenvmax : Q) : cell :=
  mc_if (mc_eq p (Some 0))
    (mc_mul
       (mc_div (mc_sub (mc_float v) (Some INenvmin))
               (mc_sub (Some INenvmax) (Some INenvmin)))
       (Some 100))
    (mc_if (mc_le p (Some 50))
       (mc_mul (Some 2) (mc_float p))
       (mc_if (mc_lt p (Some 100))
          (mc_mul (Some 2) (mc_sub (Some 100) (mc_float p)))
          (mc_mul
             (mc_div (mc_sub (Some INenvmax) (mc_float v))
                     (mc_sub (Some INenvmax) (Some INenvmin)))
             (Some 100)))).

(** *** Recode rule tables *)

(** One line [lower:upper:output] of a rules file. *)
Record rule := Rule { lower : Z; upper : Z; output : Q }.

(** r.recode on one integer cell: the first rule whose closed interval
    holds the value gives the output; no rule gives NULL. *)
Fixpoint r_recode (rules : list rule) (v : Z) : cell :=
  match rules with
  | [] => None
  | r :: rest =>
      if ((lower r <=? v) && (v <=? upper r))%Z then Some (output r)
      else r_recode rest v
  end.

Fixpoint cumsum_from (acc : Z) (l : list Z) : list Z :=
  match l with
  | [] => []
  | x :: rest => (acc + x)%Z :: cumsum_from (acc + x)%Z rest
  end.

Definition np_cumsum (l : list Z) : list Z := cumsum_from 0%Z l.
Definition np_sum (l : list Z) : Z := fold_right Z.add 0%Z l.

(** [c = a / b * 100] with [a] the running and [b] the total count. *)
Definition cumulative_percent (counts : list Z) : list Q :=
  let a := np_cumsum counts in
  let b := np_sum counts in
  map (fun x => inject_Z x / inject_Z b * 100) a.

(** [np.min] and [np.max]; they raise on an empty array ([None]). *)
Definition np_min (l : list Z) : option Z :=
  match l with
  | [] => None
  | x :: rest => Some (fold_left Z.min rest x)
  end.

Definition np_max (l : list Z) : option Z :=
  match l with
  | [] => None
  | x :: rest => Some (fold_left Z.max rest x)
  end.

(** The loop writing the rules file: line [k] is [a1[k]:a2[k]:b1[k]]. *)
Fixpoint write_rules (a1 a2 : list Z) (b1 : list Q) : list rule :=
  match a1, a2, b1 with
  | x :: a1', y :: a2', z :: b1' => Rule x y z :: write_rules a1' a2' b1'
  | _, _, _ => []
  end.

Definition lower_edge (Dmin envmin : Z) : Z :=
  if (Dmin <? envmin)%Z then (Dmin - 1)%Z else (envmin - 1)%Z.

Definition upper_edge (Dmax envmax : Z) : Z :=
  if (Dmax >? envmax)%Z then (Dmax + 1)%Z else (envmax + 1)%Z.

(** The rules of [recode_reference_rasters].  [sstval] is the frequency
    table (value, count) sorted by value; [Dmin], [Dmax] are the range of
    the scaled projection layer as r.univar reports it. *)
Definition recode_reference_rasters
    (sstval : list (Z * Z)) (Dmin Dmax : Z) : option (list rule) :=
  let c := cumulative_percent (map snd sstval) in
  match np_min (map fst sstval), np_max (map fst sstval) with
  | Some envmin, Some envmax =>
      let e1 := lower_edge Dmin envmin in
      let e2 := upper_edge Dmax envmax in
      let a1 := e1 :: map fst sstval in
      let a2 := map (fun x => (x - 1)%Z) (map fst sstval) ++ [e2] in
      let b1 := 0 :: c in
      Some (write_rules a1 a2 b1)
  | _, _ => None
  end.

(** Python's [int()] and numpy's [astype(int)]: truncation toward zero. *)
Definition py_int (q : Q) : Z :=
  if Qle_bool 0 q then Qfloor q else Qceiling q.

(** Python's [min] and [max] over a column of floats. *)
Definition py_min (l : list Q) : option Q :=
  match l with
  | [] => None
  | x :: rest => Some (fold_left Qmin rest x)
  end.

Definition py_max (l : list Q) : option Q :=
  match l with
  | [] => None
  | x :: rest => Some (fold_left Qmax rest x)
  end.

(** The scaled integer values [a0] of [recode_reference_vector].  The
    product is the exact one; in binary floating point it can fall just
    below an integer that the exact product reaches. *)
Definition scaled (volval : list (Q * Z)) (digits2 : Z) : list Z :=
  map (fun x => py_int (x * inject_Z digits2)) (map fst volval).

(** The rules of [recode_reference_vector].  [volval] is the result of
    the GROUP BY / ORDER BY query (raw value, count); [digits2] is
    [10 ^ digits]. *)
Definition recode_reference_vector
    (volval : list (Q * Z)) (digits2 : Z) (Dmin Dmax : Z)
    : option (list rule) :=
  let c := cumulative_percent (map snd volval) in
  match py_min (map fst volval), py_max (map fst volval) with
  | Some mn, Some mx =>
      let envmin := py_int (mn * inject_Z digits2) in
      let envmax := py_int (mx * inject_Z digits2) in
      let e1 := lower_edge Dmin envmin in
      let e2 := upper_edge Dmax envmax in
      let a0 := scaled volval digits2 in
      let a1 := e1 :: a0 in
      let a2 := map (fun x => (x - 1)%Z) a0 ++ [e2] in
      let b1 := 0 :: c in
      Some (write_rules a1 a2 b1)
  | _, _ => None
  end.

(** *** The aggregated layers, cell by cell *)

(** r.series with [method=minimum]: the smallest of the cells that are
    not NULL, NULL when all of them are. *)
Fixpoint r_series_minimum (cells : list cell) : cell :=
  match cells with
  | [] => None
  | c :: rest =>
      match c, r_series_minimum rest with
      | Some x, Some y => Some (if Qle_bool x y then x else y)
      | Some x, None => Some x
      | None, m => m
      end
  end.

(** The expression of the layer of novel conditions,
    [if(opc < 0, 1, 0)]. *)
Definition mod1 (opc : cell) : cell :=
  mc_if (mc_lt opc (Some 0)) (Some 1) (Some 0).

(** One cell of an IES layer as [compute_ies] makes it: the value is
    recoded through the rules, then the expression [calcc] is applied. *)
Definition ies_cell (rules : list rule) (envmin envmax : Z) (v : Z) : cell :=
  calcc (r_recode rules v) (Some (inject_Z v))
    (inject_Z envmin) (inject_Z envmax).

(** *** The run of the script

    Only what bears on names is kept of the engine commands: the module
    that runs and the names under which it creates something.  The
    statistics the commands hand back and the rule tables built from them
    are the subject of the definitions above; the two recode functions
    appear here once more, as the commands they send
    ([recode_reference_vector_run], [recode_reference_rasters_run]).
    [gs.use_temp_region] and [gs.del_temp_region] are left out: they work
    on a name the library owns. *)
Section Run.

Import Python Engine.
Local Open Scope string_scope.
Local Open Scope list_scope.

Record options := {
  ref_env : string;
  ref_rast : string;
  ref_vect : string;
  ref_region : string;
  proj_env : string;
  proj_region : string;
  output_base : string;
  flag_m : bool;
  flag_n : bool;
  flag_k : bool;
  flag_c : bool;
  flag_i : bool
}.

Definition create_unique_name (name : string) : prog string :=
  hex <- uuid4 ;;
  let unique_string := name +:+ hex in
  generated unique_string ;;;
  ret unique_string.

Definition create_temporary_name (prefix : string) : prog string :=
  tmpf <- create_unique_name prefix ;;
  append tmpf ;;;
  ret tmpf.

Definition compute_ies (INipi INtmpf2 : string) : prog unit :=
  tmpf3 <- create_temporary_name "tmp6" ;;
  run_command "r.recode" [tmpf3] ;;;
  check ;;;
  run_command "r.mapcalc" [INipi] ;;;
  run_command "r.colors" [].

Definition item (l : list string) (i : nat) : string := default "" (l !! i).

Definition recode_reference_vector_run (ref_vect : string)
    (ref_env_lay : list string) (proj_region : string)
    (projection_layers ipi : list string) : prog unit :=
  tmpf0 <- create_temporary_name "tmp7" ;;
  run_command "v.extract" [tmpf0] ;;;
  run_command "v.db.addtable" [] ;;;
  run_command "db.select" [] ;;;
  check ;;;
  for_each (enumerate ref_env_lay) (fun '(m, reflay) =>
    run_command "r.info" [] ;;;
    run_command "v.db.addcolumn" [] ;;;
    run_command "db.execute" [] ;;;
    run_command "v.what.rast" [] ;;;
    run_command "db.select" [] ;;;
    run_command "g.region" [] ;;;
    tmpf2 <- create_temporary_name "tmp8" ;;
    run_command "r.mapcalc" [tmpf2] ;;;
    run_command "r.info" [] ;;;
    compute_ies (item ipi m) tmpf2 ;;;
    run_command "r.support" []).

Definition recode_reference_rasters_run (ref_env_lay : list string)
    (ref_rast : string) (projection_layers ipi : list string)
    (ref_region proj_region : string) : prog unit :=
  tmpfmask <-
    (if truthy ref_rast then
       run_command "r.mask" ["MASK"] ;;;
       tmpfmask <- create_temporary_name "tmpmsk1" ;;
       run_command "g.rename" [tmpfmask] ;;;
       ret tmpfmask
     else ret "") ;;
  for_each (enumerate ref_env_lay) (fun '(i, envlay) =>
    run_command "g.region" [] ;;;
    when (truthy ref_rast) (run_command "g.rename" ["MASK"]) ;;;
    tmpf1 <- create_temporary_name "tmp4" ;;
    run_command "r.mapcalc" [tmpf1] ;;;
    run_command "r.stats" [] ;;;
    when (truthy ref_rast) (run_command "g.rename" [tmpfmask]) ;;;
    run_command "g.region" [] ;;;
    tmpf2 <- create_temporary_name "tmp5" ;;
    run_command "r.mapcalc" [tmpf2] ;;;
    run_command "r.univar" [] ;;;
    check ;;;
    compute_ies (item ipi i) tmpf2 ;;;
    run_command "r.support" []).

Definition main (opts : options) : prog unit :=
  (* Check if there is a MASK; check the reference layers *)
  check ;;;
  when (truthy (ref_vect opts)) check ;;;
  when (truthy (ref_rast opts)) check ;;;
  let ref_env_lay := split "," (ref_env opts) in
  check ;;;
  let variable_name := map (fun z => lower (hd "" (split "@" z))) ref_env_lay in
  projection_layers <-
    (if negb (truthy (proj_env opts)) then ret ref_env_lay
     else
       let projection_layers := split "," (proj_env opts) in
       check ;;;
       ret projection_layers) ;;
  let opl := output_base opts in
  let opc := opl +:+ "_MES" in
  let ipi := map (fun i => opl +:+ "_" +:+ i) variable_name in
  (* Create reference region *)
  tmprefreg <- create_temporary_name "tmpreg1" ;;
  tmprefreg <-
    (if truthy (ref_region opts) then
       run_command "g.region" [] ;;; ret (ref_region opts)
     else if truthy (ref_rast opts) then
       run_command "g.region" [] ;;;
       run_command "g.region" [tmprefreg] ;;; ret tmprefreg
     else
       run_command "g.region" [tmprefreg] ;;; ret tmprefreg) ;;
  (* Create projection region *)
  tmpprojreg <- create_temporary_name "tmpreg2" ;;
  tmpprojreg <-
    (if truthy (proj_region opts) then
       run_command "g.region" [] ;;; ret (proj_region opts)
     else
       run_command "g.region" [] ;;;
       run_command "g.region" [tmpprojreg] ;;; ret tmpprojreg) ;;
  (* Create recode table *)
  run_command "g.region" [] ;;;
  (if truthy (ref_vect opts) then
     recode_reference_vector_run (ref_vect opts) ref_env_lay tmpprojreg
       projection_layers ipi
   else
     recode_reference_rasters_run ref_env_lay (ref_rast opts)
       projection_layers ipi tmprefreg tmpprojreg) ;;;
  run_command "g.region" [] ;;;
  (* Calculate MESS statistics *)
  run_command "r.series" [opc] ;;;
  run_command "r.colors" [] ;;;
  run_command "r.support" [] ;;;
  when (flag_n opts)
    (run_command "r.mapcalc" [opl +:+ "_novel"] ;;;
     run_command "r.category" [] ;;;
     run_command "r.support" []) ;;;
  when (flag_m opts)
    (tmpf4 <- create_temporary_name "tmp9" ;;
     run_command "r.series" [tmpf4] ;;;
     run_command "r.mapcalc" [opl +:+ "_MoD"] ;;;
     run_command "r.category" [] ;;;
     run_command "r.support" []) ;;;
  when (flag_k opts)
    (run_command "r.series" [opl +:+ "_SumNeg"] ;;;
     run_command "r.colors" [] ;;;
     run_command "r.support" []) ;;;
  when (flag_c opts)
    (tmpf5 <- create_temporary_name "tmp10" ;;
     run_command "r.info" [] ;;;
     run_command "r.series" [tmpf5] ;;;
     run_command "r.mapcalc" [opl +:+ "_CountNeg"] ;;;
     run_command "r.support" []) ;;;
  when (flag_i opts) (run_command "g.remove" []).

End Run.

(** *** Input checks and the exit-time callback *)
Section Exit.

Import Python Engine.
Local Open Scope string_scope.
Local Open Scope list_scope.

(** [raster_exists]: [rasters] holds the raster maps [gs.find_file]
    finds; the result is the message of [gs.fatal], or [None] when every
    layer exists. *)
Fixpoint raster_exists (rasters : gset string) (envlay : list string)
    : option string :=
  match envlay with
  | [] => None
  | layer :: rest =>
      if bool_decide (layer ∈ rasters) then raster_exists rasters rest
      else Some ("The layer " +:+ layer +:+ " does not exist")
  end.

(** [cleanup]: the names handed to [g.remove -f type=all], one call
    each, in the order of the calls. *)
Definition cleanup (CLEAN_RAST : list string) : list string :=
  let cleanrast := rev CLEAN_RAST in
  map (fun rast => rast) cleanrast.

End Exit.

End RMess.

(** ** r.hydro.flatten: water surfaces from lidar ground data *)
Module RHydroFlatten.

Import Python Engine.
Local Open Scope string_scope.
Local Open Scope list_scope.

Record options := {
  keep : bool;                (* flag k *)
  breaklines : string;
  min_size : option Z;
  water_elevation : string;
  water_elevation_stddev : string;
  filled_elevation : string
}.

(** The module-level helper; [main] uses its own [get_name]. *)
Definition get_tmp_name (basename : string) : prog string :=
  name <- append_node_pid basename ;;
  generated name ;;;
  append name ;;;
  ret name.

(** The [get_name] that [main] defines according to the flag [k]. *)
Definition get_name (keep : bool) (basename : string) : prog string :=
  if keep then ret ("intermediate_" +:+ basename)
  else
    name <- append_node_pid basename ;;
    generated name ;;;
    append name ;;;
    ret name.

Definition main (opts : options) : prog unit :=
  let get_name := get_name (keep opts) in
  (* [int(min_size)] or [None]; zero counts as false *)
  let size_threshold :=
    match min_size opts with
    | Some z => negb (z =? 0)%Z
    | None => false
    end in
  run_command "g.region" [] ;;;
  run_command "g.region" [] ;;;
  tmp_rfillstats <- get_name "rfillstats" ;;
  tmp_breaklines <-
    (if truthy (breaklines opts) then
       tmp_breaklines <- get_name "breaklines" ;;
       run_command "v.to.rast" [tmp_breaklines] ;;;
       ret tmp_breaklines
     else ret "") ;;
  run_command "r.fill.stats" [tmp_rfillstats] ;;;
  tmp_holes <- get_name "holes" ;;
  run_command "r.mapcalc" [tmp_holes] ;;;
  tmp_buffer <- get_name "buffer" ;;
  run_command "r.buffer" [tmp_buffer] ;;;
  tmp_buffer <-
    (if truthy (breaklines opts) then
       tmp_buffer_with_breaklines <- get_name "buffer_with_breaklines" ;;
       run_command "r.patch" [tmp_buffer_with_breaklines] ;;;
       ret tmp_buffer_with_breaklines
     else ret tmp_buffer) ;;
  tmp_reclass_for_clump <- get_name "reclass_for_clump" ;;
  run_command "r.reclass" [tmp_reclass_for_clump] ;;;
  tmp_clump <- get_name "clump" ;;
  run_command "r.clump" [tmp_clump] ;;;
  tmp_strip <- get_name "strip" ;;
  run_command "r.mapcalc" [tmp_strip] ;;;
  tmp_water_elevation <- get_name "water_elevation" ;;
  run_command "r.stats.quantile" [tmp_water_elevation] ;;;
  tmp_water_stddev <- get_name "water_stddev" ;;
  run_command "r.stats.zonal" [tmp_water_stddev] ;;;
  tmp_water_elevation_zonal <- get_name "water_elevation_zonal" ;;
  run_command "r.stats.zonal" [tmp_water_elevation_zonal] ;;;
  tmp_water_elevation_stddev_zonal <- get_name "water_elevation_stddev_zonal" ;;
  run_command "r.stats.zonal" [tmp_water_elevation_stddev_zonal] ;;;
  tmp_water_elevation_zonal_res <- get_name "water_elevation_zonal_res" ;;
  (if truthy (breaklines opts) then
     water_elevation_zonal_res_breaklines <-
       get_name "water_elevation_zonal_res_breaklines" ;;
     run_command "r.mapcalc" [water_elevation_zonal_res_breaklines] ;;;
     run_command "r.neighbors" [tmp_water_elevation_zonal_res]
   else
     run_command "r.mapcalc" [tmp_water_elevation_zonal_res]) ;;;
  tmp_water_elevation_stddev_zonal_res <-
    get_name "water_elevation_stddev_zonal_res" ;;
  run_command "r.mapcalc" [tmp_water_elevation_stddev_zonal_res] ;;;
  (if size_threshold then
     tmp_reclass <- get_name "reclass" ;;
     run_command "r.reclass" [tmp_reclass] ;;;
     tmp_clump_reclass <- get_name "clump_reclass" ;;
     run_command "r.clump" [tmp_clump_reclass] ;;;
     tmp_size <- get_name "size" ;;
     run_command "r.stats.zonal" [tmp_size] ;;;
     run_command "r.mapcalc" [water_elevation opts] ;;;
     run_command "r.mapcalc" [water_elevation_stddev opts]
   else
     run_command "r.mapcalc" [water_elevation opts] ;;;
     run_command "r.mapcalc" [water_elevation_stddev opts]) ;;;
  run_command "r.colors" [] ;;;
  run_command "r.colors" [] ;;;
  run_command "r.support" [] ;;;
  run_command "r.support" [] ;;;
  when (truthy (filled_elevation opts))
    (run_command "r.patch" [filled_elevation opts] ;;;
     run_command "r.colors" [] ;;;
     run_command "r.support" []).

(** [cleanup]: one call of [g.remove -fb type=raster] with the whole
    list, and no call at all for an empty list. *)
Definition cleanup (RAST_REMOVE : list string) : list (list string) :=
  match RAST_REMOVE with
  | [] => []
  | _ => [RAST_REMOVE]
  end.

End RHydroFlatten.

(** ** v.in.gbif: quoting the raw GBIF table *)
Module VInGbif.

Local Open Scope string_scope.
Local Open Scope list_scope.

(** The exceptions [process_csv] tells apart; [Exception] stands for any
    other exception, carried with its text. *)
Inductive exception :=
| UnicodeDecodeError (e : string)
| FileNotFoundError (filename : string) (e : string)
| Exception (e : string).

(** [str(e)] *)
Definition format (e : exception) : string :=
  match e with
  | UnicodeDecodeError e => e
  | FileNotFoundError _ e => e
  | Exception e => e
  end.

Inductive result := Return | Raise (e : exception).

(** What a run does, in order: passes over the input file and warnings. *)
Inductive event :=
| Open (encoding : option string) (errors : string)
| Warning (msg : string).

Inductive outcome := Converted | Fatal (msg : string).

Section ProcessCsv.

(** How one pass over the bytes of [gbifraw] ends when they are decoded
    with the given encoding ([None] is the system default) and error
    mode. *)
Variable convert : option string -> string -> result.

Definition process_file (input_encoding : option string)
    (handle_errors : bool) : result * list event :=
  let error_mode := if handle_errors then "replace" else "strict" in
  (convert input_encoding error_mode, [Open input_encoding error_mode]).

Definition process_csv (primary_encoding : option string)
    (fallback_encoding : string) : outcome * list event :=
  match process_file primary_encoding false with
  | (Return, t1) => (Converted, t1)
  | (Raise (UnicodeDecodeError e), t1) =>
      let w :=
        [Warning
           "Warming: Unable to decode the file with system default encoding.";
         Warning ("Details: " +:+ e);
         Warning ("Falling back to encoding: " +:+ fallback_encoding)] in
      match process_file (Some fallback_encoding) true with
      | (Return, t2) => (Converted, t1 ++ w ++ t2)
      | (Raise (UnicodeDecodeError e'), t2) =>
          (Fatal ("Details: " +:+ e'),
           t1 ++ w ++ t2 ++
           [Warning
              ("Error: Unable to decode the file even with fallback encoding "
               +:+ fallback_encoding)])
      | (Raise e', t2) =>
          (Fatal ("An unexpected error occurred during fallback processing: "
                  +:+ format e'),
           t1 ++ w ++ t2)
      end
  | (Raise (FileNotFoundError filename _), t1) =>
      (Fatal ("Error: File not found - " +:+ filename), t1)
  | (Raise (Exception e), t1) =>
      (Fatal ("An unexpected error occurred: " +:+ e), t1)
  end.

(** The passes over the input file, in order. *)
Definition passes (t : list event) : list (option string * string) :=
  flat_map (fun ev => match ev with
                      | Open enc mode => [(enc, mode)]
                      | Warning _ => []
                      end) t.

End ProcessCsv.

End VInGbif.

(** ** r.maxent.predict: running the Maxent predictor *)
Module RMaxentPredict.

Import Python.
Local Open Scope string_scope.
Local Open Scope list_scope.

Record options := {
  java : string;
  maxent : string;
  projectionlayers : string;
  alias_file : string;
  rasters : string;
  variables : string;
  lambdafile : string;
  memory : string;
  output : string
}.

Record flags := { flag_e : bool; flag_c : bool; flag_f : bool; flag_p : bool }.

(** What the script gets back from its surroundings during one run. *)
Record environment := {
  (** result of [check_java_txtfile()], the cached interpreter path *)
  java_txtfile : option string;
  (** whether [java -version] runs for a path *)
  java_functional : string -> bool;
  GRASS_ADDON_BASE : option string;
  (** [g.region -g]: the two resolutions as printed *)
  nsres : string;
  ewres : string;
  (** [gs.tempdir()] *)
  tempdir : string;
  (** rows of the alias file: file name, layer name *)
  alias_rows : list (string * string);
  (** result of [check_layers]: missing layers, ambiguous layers *)
  check_layers : list string -> list string * list string;
  (** [uuid.uuid4().hex] *)
  uuid4_hex : string;
  (** the predictor process: its stderr lines, its return code and
      whether it wrote the grid it was asked for *)
  stderr : list string;
  returncode : Z;
  writes_output : bool
}.

(** Commands sent to the engine and processes started, in order. *)
Inductive event :=
| GRegion (res : Q)                       (* g.region -a res= *)
| ROutGdal (input output : string)        (* r.out.gdal *)
| Popen (maxent_command : list string)
| RInGdal (input output : string)         (* r.in.gdal -o *)
| Warning (msg : string).

(** How a run ends: normally, by [gs.fatal], or by an exception nobody
    catches. *)
Inductive outcome :=
| Done
| Fatal (msg : string)
| Uncaught (exception : string).

(** The regular files of the file system, and the trace so far. *)
Record state := { fs : gset string; trace : list event }.

(** Script fragments: they change the state and either go on with a value
    or end the run. *)
Definition prog (A : Type) : Type := state -> state * (A + outcome).

Definition ret {A} (a : A) : prog A := fun st => (st, inl a).

Definition bind {A B} (m : prog A) (k : A -> prog B) : prog B :=
  fun st => match m st with
            | (st', inl a) => k a st'
            | (st', inr o) => (st', inr o)
            end.

Notation "x <- m ;; k" := (bind m (fun x => k))
  (at level 100, m at next level, right associativity).
Notation "m ;;; k" := (bind m (fun _ => k))
  (at level 100, right associativity).

Definition fatal {A} (msg : string) : prog A := fun st => (st, inr (Fatal msg)).
Definition raise {A} (e : string) : prog A := fun st => (st, inr (Uncaught e)).

Definition emit (ev : event) : prog unit :=
  fun st => ({| fs := fs st; trace := trace st ++ [ev] |}, inl tt).

Definition isfile (path : string) : prog bool :=
  fun st => (st, inl (bool_decide (path ∈ fs st))).

Definition write_file (path : string) : prog unit :=
  fun st => ({| fs := {[path]} ∪ fs st; trace := trace st |}, inl tt).

Fixpoint for_each {A} (l : list A) (body : A -> prog unit) : prog unit :=
  match l with
  | [] => ret tt
  | x :: rest => body x ;;; for_each rest body
  end.

Definition strip_mapset (name : string) : string :=
  if contains "@" name then hd "" (split "@" name) else name.

(** [find_index_case_insensitive]: the index of the first item whose
    lower-case form is that of the target, -1 when there is none.  The
    items are any strings, so [str.lower], which folds every cased
    character, is taken as it is ([str_lower]). *)
Definition find_index_case_insensitive (str_lower : string -> string)
    (lst : list string) (target : string) : Z :=
  match List.find (fun '(i, item) =>
                     String.eqb (str_lower item) (str_lower target))
          (enumerate lst) with
  | Some (i, _) => Z.of_nat i
  | None => (-1)%Z
  end.

Definition create_temp_name (env : environment) (prefix : string) : string :=
  prefix +:+ uuid4_hex env +:+ ".asc".

(** *** Messages *)

Definition nl : string := String (ascii_of_nat 10) EmptyString.

Definition java_not_found : string :=
  "Java cannot be found. Please ensure Java is installed "
  +:+ "and/or properly configured to be accessible from GRASS. " +:+ nl
  +:+ "If you are sure Java is installed, you can provide the path "
  +:+ "to the java executable using the 'java' parameter. " +:+ nl
  +:+ "For a more permanent solution, see the r.maxent.setup addon.".

Definition maxent_not_found : string :=
  "You did not provide the path to the maxent.jar file," +:+ nl
  +:+ "nor was it found in the addon script directory." +:+ nl
  +:+ "See the manual page of r.maxent.setup for instructions.".

Definition resolution_mismatch : string :=
  "The ns and ew resolution of the computational region do not match." +:+ nl
  +:+ "Change the resolution yourself or set the -e flag. Using the" +:+ nl
  +:+ "-e flag will adjust the resolution so both the ns and ew resolution"
  +:+ nl
  +:+ "match the smallest of the two, using nearest neighbor resampling.".

Definition no_output_raster : string :=
  "Maxent did not create an output raster for import in GRASS." +:+ nl
  +:+ "Check the error message(s) above.".

(** *** The stages of [main] *)

(** The interpreter: the local [path_to_java] stays unbound ([None]) when
    no Java is found, since that branch only warns.  [os.path.normpath]
    is taken as the identity.  A Java that cannot be started is one that
    is not functional here, and the warnings [check_java_txtfile] may give
    are not part of the trace. *)
Definition find_java (opts : options) (env : environment)
    : prog (option string) :=
  let jav := java_txtfile env in
  if truthy (java opts) then
    let java_path := java opts in
    found <- isfile java_path ;;
    if negb found then
      fatal "Provided path to java executable cannot be found."
    else if negb (java_functional env java_path) then
      fatal "Problem with provided java executable."
    else ret (Some (java opts))
  else match jav with
       | Some j => ret (Some j)
       | None =>
           if java_functional env "java" then ret (Some "java")
           else emit (Warning java_not_found) ;;; ret None
       end.

Definition find_maxent (opts : options) (env : environment) : prog string :=
  if truthy (maxent opts) then
    let maxent_file := maxent opts in
    found <- isfile maxent_file ;;
    if negb found then
      fatal "The maxent.jar file was not found on the location you provided"
    else ret maxent_file
  else match GRASS_ADDON_BASE env with
       | None => raise "TypeError"
       | Some base =>
           let maxent_file :=
             path_join (path_join base "scripts") "maxent.jar" in
           found <- isfile maxent_file ;;
           if negb found then fatal maxent_not_found
           else ret maxent_file
       end.

(** Check if X and Y resolution is equal. *)
Definition check_resolution (flgs : flags) (env : environment) : prog unit :=
  if negb (String.eqb (nsres env) (ewres env)) then
    if flag_e flgs then
      match float (nsres env), float (ewres env) with
      | Some ns, Some ew =>
          let new_resolution := Qmin ns ew in
          emit (GRegion new_resolution)
      | _, _ => raise "ValueError"
      end
    else fatal resolution_mismatch
  else ret tt.

(** Create (or get) the folder with the environmental layers. *)
Definition export_layers (opts : options) (env : environment) : prog string :=
  if truthy (projectionlayers opts) then ret (projectionlayers opts)
  else
    let temp_directory := tempdir env in
    names <-
      (if truthy (alias_file opts) then
         match alias_rows env with
         | [] => raise "IndexError"
         | rows => ret (map fst rows, map snd rows)
         end
       else
         let layer_names := split "," (rasters opts) in
         if truthy (variables opts)
         then ret (split "," (variables opts), layer_names)
         else ret (map strip_mapset layer_names, layer_names)) ;;
    let file_names := fst names in
    let layer_names := snd names in
    let chlay := check_layers env layer_names in
    if (0 <? length (fst chlay))%nat then
      fatal ("The layer(s) " +:+ join ", " (fst chlay)
             +:+ " do not exist in the accessible mapsets")
    else if (0 <? length (snd chlay))%nat then
      fatal ("There are layers with the name " +:+ join ", " (snd chlay)
             +:+ " in multiple accessible mapsets, "
             +:+ "none of which are in the current mapset."
             +:+ "Add the mapset name to specify which or these layers "
             +:+ "should be used.")
    else
      for_each (enumerate layer_names) (fun '(n, layer_name) =>
        match file_names !! n with
        | None => raise "IndexError"
        | Some name =>
            let file_name := path_join temp_directory (name +:+ ".asc") in
            emit (ROutGdal layer_name file_name) ;;;
            write_file file_name
        end) ;;;
      ret temp_directory.

Definition signature : string := "java.util.NoSuchElementException".

(** The loop over the stderr lines; the local [missing_variables] is
    unbound ([None]) until a line carries the signature. *)
Definition scan_stderr (lines : list string) : option string :=
  fold_left (fun missing_variables stderr_line =>
               if contains signature stderr_line
               then Some "Check variable names and path + names of input files"
               else missing_variables) lines None.

(** Run Maxent density.Project and import the resulting layer. *)
Definition run_maxent (opts : options) (flgs : flags) (env : environment)
    (path_to_java : option string) (maxent_file temp_directory : string)
    : prog unit :=
  let temp_file := path_join temp_directory (create_temp_name env "mxt_") in
  match path_to_java with
  | None => raise "UnboundLocalError: path_to_java"
  | Some path_to_java =>
      let maxent_command :=
        [path_to_java; "-mx" +:+ memory opts +:+ "m"; "-cp"; maxent_file;
         "density.Project"; lambdafile opts; temp_directory; temp_file]
        ++ (if flag_c flgs then ["doclamp=false"] else [])
        ++ (if flag_f flgs then ["fadebyclamping=true"] else []) in
      emit (Popen maxent_command) ;;;
      (if writes_output env then write_file temp_file else ret tt) ;;;
      let missing_variables := scan_stderr (stderr env) in
      (if negb (returncode env =? 0)%Z then
         match missing_variables with
         | None => raise "UnboundLocalError: missing_variables"
         | Some msg =>
             if truthy msg then fatal msg
             else fatal "Maxent terminated with an error"
         end
       else ret tt) ;;;
      created <- isfile temp_file ;;
      if negb created then fatal no_output_raster
      else
        emit (RInGdal temp_file (output opts))
  end.

(** Everything of [main] after the resolution check. *)
Definition export_and_predict (opts : options) (flgs : flags)
    (env : environment) (path_to_java : option string) (maxent_file : string)
    : prog unit :=
  temp_directory <- export_layers opts env ;;
  run_maxent opts flgs env path_to_java maxent_file temp_directory.

Definition main (opts : options) (flgs : flags) (env : environment)
    : prog unit :=
  path_to_java <- find_java opts env ;;
  maxent_file <- find_maxent opts env ;;
  check_resolution flgs env ;;;
  export_and_predict opts flgs env path_to_java maxent_file.

(** *** The computational region *)

Record region := { region_nsres : Q; region_ewres : Q }.

(** The engine's [g.region -a res=r]: both resolutions become [r]. *)
Definition g_region (res : Q) (r : region) : region :=
  {| region_nsres := res; region_ewres := res |}.

Definition region_after (tr : list event) (r : region) : region :=
  fold_left (fun r ev => match ev with
                         | GRegion res => g_region res r
                         | _ => r
                         end) tr r.

(** *** Exit-time cleanup *)

(** Values bound to module-level names. *)
Inductive value := PyModule | PyFunction | PyStr (s : string).

(** The names the module binds at top level: its imports and its
    functions.  [main] has no [global] declaration, so running it binds
    nothing here; [temp_directory] is a local of [main]. *)
Definition module_globals : gmap string value :=
  list_to_map
    [("atexit", PyModule); ("csv", PyModule); ("os", PyModule);
     ("shutil", PyModule); ("subprocess", PyModule); ("sys", PyModule);
     ("uuid", PyModule); ("gs", PyModule);
     ("find_index_case_insensitive", PyFunction); ("cleanup", PyFunction);
     ("check_layers", PyFunction); ("create_temp_name", PyFunction);
     ("strip_mapset", PyFunction); ("java_functional", PyFunction);
     ("check_java_txtfile", PyFunction); ("main", PyFunction)].

(** [shutil.rmtree]: removes every file under the directory. *)
Definition rmtree (dir : string) (files : gset string) : gset string :=
  filter (fun path => String.prefix (dir +:+ "/") path = false) files.

(** [cleanup]: looking up [temp_directory] goes through the module
    globals; a failed lookup raises NameError, which the bare [except]
    swallows, as it does any error of [rmtree]. *)
Definition cleanup (globals : gmap string value) (files : gset string)
    : gset string :=
  match globals !! "temp_directory" with
  | Some (PyStr temp_directory) => rmtree temp_directory files
  | Some _ => files
  | None => files
  end.

(** One process: [main], then the callback registered with [atexit]. *)
Definition script (opts : options) (flgs : flags) (env : environment)
    (files : gset string) : outcome * list event * gset string :=
  let '(st, r) := main opts flgs env {| fs := files; trace := [] |} in
  let o := match r with inl _ => Done | inr o => o end in
  (o, trace st, cleanup module_globals (fs st)).

End RMaxentPredict.

(** ** r.maxent.setup: installing maxent.jar and the path to Java *)
Module RMaxentSetup.

Import Python.
Local Open Scope string_scope.
Local Open Scope list_scope.

Record options := { java : string; maxent : string }.

Record flags := { flag_j : bool; flag_u : bool }.

(** What the script gets back from its surroundings.  [os.path.isfile]
    is also called on a truth value, which it takes for the file
    descriptor 0 or 1: [fd_isfile] tells whether that descriptor is a
    regular file. *)
Record environment := {
  GRASS_ADDON_BASE : option string;
  fd_isfile : bool -> bool;
  java_findable : bool
}.

Inductive event :=
| Info (msg : string)
| Message (msg : string)
| Warning (msg : string).

Inductive outcome :=
| Done
| Fatal (msg : string)
| Uncaught (exception : string).

(** The regular files with their contents, and the messages so far. *)
Record state := { fs : gmap string string; trace : list event }.

Definition prog (A : Type) : Type := state -> state * (A + outcome).

Definition ret {A} (a : A) : prog A := fun st => (st, inl a).

Definition bind {A B} (m : prog A) (k : A -> prog B) : prog B :=
  fun st => match m st with
            | (st', inl a) => k a st'
            | (st', inr o) => (st', inr o)
            end.

Notation "x <- m ;; k" := (bind m (fun x => k))
  (at level 100, m at next level, right associativity).
Notation "m ;;; k" := (bind m (fun _ => k))
  (at level 100, right associativity).

Definition fatal {A} (msg : string) : prog A := fun st => (st, inr (Fatal msg)).
Definition raise {A} (e : string) : prog A := fun st => (st, inr (Uncaught e)).

Definition emit (ev : event) : prog unit :=
  fun st => ({| fs := fs st; trace := trace st ++ [ev] |}, inl tt).

Definition isfile (path : string) : prog bool :=
  fun st => (st, inl (bool_decide (is_Some (fs st !! path)))).

(** [open(path, "w")] followed by [file.write(text)]; the folder of the
    file, [scripts] of the addon directory, is taken to be there. *)
Definition write (path text : string) : prog unit :=
  fun st => ({| fs := <[path := text]> (fs st); trace := trace st |}, inl tt).

(** [shutil.copyfile]: source and destination must not be the same file;
    the source has been checked to be a file. *)
Definition copyfile (src dst : string) : prog unit :=
  fun st =>
    if String.eqb src dst then (st, inr (Uncaught "SameFileError"))
    else match fs st !! src with
         | Some content =>
             ({| fs := <[dst := content]> (fs st); trace := trace st |},
              inl tt)
         | None => (st, inr (Uncaught "FileNotFoundError"))
         end.

(** [os.path.basename] *)
Definition basename (path : string) : string := List.last (split "/" path) "".

Definition nl : string := String (ascii_of_nat 10) EmptyString.

Definition install_maxent (env : environment) (maxent : string)
    (overwrite : bool) : prog unit :=
  (* Check if provided path+file exists *)
  found <- isfile maxent ;;
  (if negb found then
     fatal "The maxent.jar file was not found on the location you provided"
   else ret tt) ;;;
  (* Check if the file has the right name (maxent.jar) *)
  let file_name := basename (basename maxent) in
  match GRASS_ADDON_BASE env with
  | None => raise "TypeError"
  | Some maxent_path =>
      (if negb (String.eqb file_name "maxent.jar") then
         fatal ("The name of the maxent program should be 'maxent.jar',"
                +:+ " not '" +:+ file_name +:+ "'")
       else ret tt) ;;;
      (* Check file exists in addon directory *)
      let maxent_file :=
        path_join (path_join maxent_path "scripts") "maxent.jar" in
      maxent_copy <- isfile maxent_file ;;
      if maxent_copy && overwrite then
        copyfile maxent maxent_file ;;;
        emit (Info ("Replaced the maxent.jar file in the grass gis addon "
                    +:+ "script directory." +:+ nl
                    +:+ "path: " +:+ maxent_file +:+ "." +:+ nl))
      else
        still <- isfile maxent_file ;;
        if negb still then
          copyfile maxent maxent_file ;;;
          emit (Info ("Copied the maxent.jar file to the grass gis addon "
                      +:+ "script directory." +:+ nl
                      +:+ "path: " +:+ maxent_file +:+ "." +:+ nl))
        else
          fatal ("There is already a maxent.jar file in the scripts " +:+ nl
                 +:+ "directory. Use the -u flag if you want to update " +:+ nl
                 +:+ "the file " +:+ maxent_file +:+ ".")
  end.

Definition text_file_created (txt_java_path java : string) : string :=
  "Text file created:" +:+ nl +:+ txt_java_path +:+ nl
  +:+ "with path to java executable:" +:+ nl +:+ java.

Definition set_path_to_java (env : environment) (java : string)
    (overwrite : bool) : prog unit :=
  (* Check if provided path+file exists *)
  found <- isfile java ;;
  (if negb found then
     fatal "The java executable was not found on the location you provided"
   else ret tt) ;;;
  (* Check text file exists in addon directory *)
  match GRASS_ADDON_BASE env with
  | None => raise "TypeError"
  | Some addon_directory =>
      let txt_java_path :=
        path_join (path_join addon_directory "scripts")
          "r_maxent_path_to_java.txt" in
      java_txt_copy <- isfile txt_java_path ;;
      if java_txt_copy && overwrite then
        write txt_java_path java ;;;
        emit (Info (text_file_created txt_java_path java))
      else if negb (fd_isfile env java_txt_copy) then
        write txt_java_path java ;;;
        emit (Info (text_file_created txt_java_path java))
      else
        fatal ("The text file with the path to the java executable " +:+ nl
               +:+ "already exists in the adadon directory. Use the -u "
               +:+ nl +:+ "flag if you want to update the file")
  end.

Definition main (opts : options) (flgs : flags) (env : environment)
    : prog unit :=
  (* Check if Java can be found *)
  (if flag_j flgs then
     if negb (java_findable env) then
       emit (Warning
               ("Java cannot be found from GRASS GIS. Please ensure Java "
                +:+ "is installed and/or properly configured. If you are sure "
                +:+ "Java is installed, you can use this module to define the "
                +:+ "path to the java executable. See the help file for "
                +:+ "details."))
     else emit (Message "Java is accessible from GRASS GIS.")
   else ret tt) ;;;
  (* Set path to java executable *)
  (if truthy (java opts) then set_path_to_java env (java opts) (flag_u flgs)
   else if negb (java_findable env) then
     emit (Message
             ("Java is not installed or not accessible via the system PATH. "
              +:+ "Please ensure Java is installed and/or properly configured."
              +:+ "If you are sure Java is installed, you can use this module"
              +:+ "to define the path to the java executable. See the help file"
              +:+ "for details."))
   else ret tt) ;;;
  (* Install maxent *)
  (if truthy (maxent opts) then install_maxent env (maxent opts) (flag_u flgs)
   else ret tt).

End RMaxentSetup.

(** ** r.maxent.predict: the text file with the path to Java *)
Module RMaxentJava.

Import Python.
Local Open Scope string_scope.
Local Open Scope list_scope.

(** The characters [str.strip] removes, among the ASCII ones. *)
Definition isspace (c : ascii) : bool :=
  let n := nat_of_ascii c in
  ((9 <=? n) && (n <=? 13) || (28 <=? n) && (n <=? 32))%nat.

Fixpoint lstrip (s : string) : string :=
  match s with
  | EmptyString => EmptyString
  | String c rest => if isspace c then lstrip rest else s
  end.

Fixpoint rstrip (s : string) : string :=
  match s with
  | EmptyString => EmptyString
  | String c rest =>
      match rstrip rest with
      | EmptyString => if isspace c then EmptyString else String c EmptyString
      | kept => String c kept
      end
  end.

Definition strip (s : string) : string := rstrip (lstrip s).

(** [file.readline()] in text mode: the text up to the first line end,
    which is handed back as a newline. *)
Fixpoint readline (s : string) : string :=
  match s with
  | EmptyString => EmptyString
  | String c rest =>
      if (nat_of_ascii c =? 10)%nat || (nat_of_ascii c =? 13)%nat
      then String (ascii_of_nat 10) EmptyString
      else String c (readline rest)
  end.

(** [check_java_txtfile]: [files] are the regular files with their
    contents, which can be read, [exists_] is [os.path.exists] and
    [java_functional] tells whether [java -version] runs; the result
    comes with the warnings. *)
Definition check_java_txtfile (GRASS_ADDON_BASE : option string)
    (files : gmap string string) (exists_ java_functional : string -> bool)
    : option string * list string :=
  match GRASS_ADDON_BASE with
  | None => (None, ["GRASS_ADDON_BASE environment variable is not set."])
  | Some addon_directory =>
      if negb (truthy addon_directory) then
        (None, ["GRASS_ADDON_BASE environment variable is not set."])
      else
        let file_path :=
          path_join (path_join addon_directory "scripts")
            "r_maxent_path_to_java.txt" in
        match files !! file_path with
        | None => (None, [])
        | Some content =>
            let java_path := strip (readline content) in
            if negb (truthy java_path) then
              (None, ["The file 'r_maxent_path_to_java.txt' is empty"])
            else if negb (exists_ java_path)
                    || negb (java_functional java_path) then
              (None,
               ["The path to the Java executable '" +:+ java_path
                +:+ "', defined in the "
                +:+ "'r_maxent_path_to_java.txt' in the addon directory "
                +:+ "does not exist or is not functional."])
            else (Some java_path, [])
        end
  end.

End RMaxentJava.

(** ** r.recode.attr: recoding through the columns of a table *)
Module RRecodeAttr.

Import Python.
Local Open Scope string_scope.
Local Open Scope list_scope.

(** The rules table as [np.genfromtxt] reads it: [nmsData] are the column
    names of the header line, [myData] the rows below it. *)
Record table := { nmsData : list string; myData : list (list Q) }.

(** [myData.shape]: the array is squeezed, so a single row or a single
    column gives a one-dimensional array. *)
Definition shape (t : table) : list nat :=
  match myData t with
  | [] => [0%nat]
  | [row] => if (length row =? 1)%nat then [] else [length row]
  | row :: _ =>
      if (length row =? 1)%nat then [length (myData t)]
      else [length (myData t); length row]
  end.

(** [myData[:, y]] *)
Definition column (y : nat) (t : table) : list Q :=
  map (fun row => nth y row 0%Q) (myData t).

(** [np.column_stack((myData[:, 0], myData[:, 0], myData[:, y]))], the
    lines [value:value:new_value] of one rules file. *)
Definition myRecode (y : nat) (t : table) : list (Q * Q * Q) :=
  map (fun row => (nth 0 row 0%Q, nth 0 row 0%Q, nth y row 0%Q)) (myData t).

(** One call of r.recode. *)
Record recode := {
  input : string;
  output : string;
  rules : list (Q * Q * Q);
  flags : string
}.

Inductive outcome :=
| Done
| Fatal (msg : string)
| Uncaught (exception : string).

(** The name of the output of target column [x], [T] being the number of
    target columns. *)
Definition output_name (outNames : list string) (t : table) (T x : nat)
    : option string :=
  let y := S x in
  let lengthNames := length outNames in
  if (T =? lengthNames)%nat then outNames !! x
  else match outNames !! 0%nat, nmsData t !! y with
       | Some base, Some name => Some (base +:+ "_" +:+ name)
       | _, _ => None
       end.

(** The loop over the target columns.  [mapset] holds the raster names of
    the current mapset; r.recode adds its output to it.  [r_recode_runs]
    tells whether a call of r.recode succeeds; when it fails (a missing
    input map, say) [gs.run_command] raises CalledModuleError and the run
    ends.  The calls are those sent to the engine, a failed one
    included. *)
Fixpoint create_recode_maps (r_recode_runs : recode -> bool)
    (numVar : list nat) (lengthNumVar : nat)
    (inputmap : string) (outNames : list string) (flag_a : bool) (t : table)
    (mapset : gset string) : outcome * list recode :=
  match numVar with
  | [] => (Done, [])
  | x :: rest =>
      let y := S x in
      match output_name outNames t lengthNumVar x with
      | None => (Uncaught "IndexError", [])
      | Some nmOutput =>
          if bool_decide (nmOutput ∈ mapset) then
            (Fatal ("The layer " +:+ nmOutput
                    +:+ " already exist in this mapset"), [])
          else
            let call :=
              {| input := inputmap; output := nmOutput;
                 rules := myRecode y t;
                 flags := if flag_a then "a" else "" |} in
            if negb (r_recode_runs call) then
              (Uncaught "CalledModuleError", [call])
            else
              let '(o, calls) :=
                create_recode_maps r_recode_runs rest lengthNumVar inputmap
                  outNames flag_a t ({[nmOutput]} ∪ mapset) in
              (o, call :: calls)
      end
  end.

Definition main (r_recode_runs : recode -> bool) (inputmap outBase : string)
    (flag_a : bool) (t : table) (mapset : gset string)
    : outcome * list recode :=
  let outNames := split "," outBase in
  match shape t with
  | [_; ncols] =>
      let numVar := seq 0 (ncols - 1) in
      create_recode_maps r_recode_runs numVar (length numVar) inputmap
        outNames flag_a t mapset
  | _ => (Uncaught "IndexError", [])
  end.

(** *** The separator option *)

Definition tab : string := String (ascii_of_nat 9) EmptyString.
Definition newline : string := String (ascii_of_nat 10) EmptyString.

Definition separator_mapping : list (string * string) :=
  [("comma", ","); ("pipe", "|"); ("space", " "); ("tab", tab);
   ("newline", newline)].

(** [d.get(key, None)] *)
Fixpoint get (d : list (string * string)) (key : string) : option string :=
  match d with
  | [] => None
  | (k, v) :: rest => if String.eqb k key then Some v else get rest key
  end.

(** [get_delimiter]: the description of the delimiter is replaced with the
    actual character.  The lookup is made for keys of the mapping only, so
    it finds a value. *)
Definition get_delimiter (separator_option : string) : string :=
  if existsb (String.eqb separator_option) (map fst separator_mapping)
  then default separator_option (get separator_mapping separator_option)
  else separator_option.

End RRecodeAttr.

(** ** v.boxplot: boxplots of an attribute column *)
Module VBoxplot.

Import Python.
Local Open Scope string_scope.
Local Open Scope list_scope.

(** The [where] expression handed to v.db.select. *)
Definition where_clause (where_option column : string) : string :=
  if truthy where_option
  then where_option +:+ " AND " +:+ column +:+ " IS NOT NULL"
  else column +:+ " IS NOT NULL".

(** The call of v.db.select: with a [where] parameter when the expression
    is not empty, without one otherwise. *)
Record select := {
  map_ : string;
  columns : list string;
  where_ : option string
}.

Definition get_data (vector : string) (cols : list string) (where' : string)
    : select :=
  if truthy where'
  then {| map_ := vector; columns := cols; where_ := Some where' |}
  else {| map_ := vector; columns := cols; where_ := None |}.

(** *** The database engine on the conditions used here

    A row gives each column a value or NULL.  A condition is a sequence of
    comparisons [column = value] and [column IS NOT NULL] joined by [AND]
    and [OR], the words in upper case and set apart by single spaces, as
    the script writes them; as in SQL, [AND] binds tighter than [OR].  A
    comparison with NULL does not hold.  Conditions of another form are
    not covered: nothing is selected for them. *)
Definition row := list (string * option string).

Definition lookup_column (r : row) (column : string) : option string :=
  match find (fun kv => String.eqb (fst kv) column) r with
  | Some (_, v) => v
  | None => None
  end.

Definition holds (r : row) (comparison : list string) : bool :=
  match comparison with
  | [column; "="; value] =>
      match lookup_column r column with
      | Some v => String.eqb v value
      | None => false
      end
  | [column; "IS"; "NOT"; "NULL"] =>
      match lookup_column r column with
      | Some _ => true
      | None => false
      end
  | _ => false
  end.

(** Splits a list of words at a keyword. *)
Fixpoint split_at (keyword : string) (cur words : list string)
    : list (list string) :=
  match words with
  | [] => [cur]
  | w :: rest =>
      if String.eqb w keyword then cur :: split_at keyword [] rest
      else split_at keyword (cur ++ [w]) rest
  end.

Definition sql_where (condition : string) (r : row) : bool :=
  let words := split " " condition in
  existsb (fun conjunction =>
             forallb (holds r) (split_at "AND" [] conjunction))
          (split_at "OR" [] words).

(** The rows v.db.select hands back. *)
Definition v_db_select (q : select) (table : list row) : list row :=
  match where_ q with
  | Some condition => List.filter (sql_where condition) table
  | None => table
  end.

(** *** Grouped boxplots *)

Section Sort.
Context {A : Type} (key : A -> Q).

Fixpoint insert_sorted (x : A) (l : list A) : list A :=
  match l with
  | [] => [x]
  | y :: rest =>
      if Qle_bool (key x) (key y) then x :: l else y :: insert_sorted x rest
  end.

(** A stable sort by increasing key: equal keys keep their order. *)
Fixpoint stable_sort (l : list A) : list A :=
  match l with
  | [] => []
  | x :: rest => insert_sorted x (stable_sort rest)
  end.

(** [l.sort(key=key, reverse=reverse)]: for [reverse] the list is
    reversed, sorted and reversed again, which keeps the sort stable. *)
Definition list_sort (reverse : bool) (l : list A) : list A :=
  if reverse then rev (stable_sort (rev l)) else stable_sort l.

End Sort.

(** [np.median]: the middle of the sorted values, the mean of the two
    middle ones for an even number of values. *)
Definition np_median (l : list Q) : Q :=
  let s := stable_sort (fun x => x) l in
  let n := length s in
  if Nat.even n
  then ((nth (n / 2 - 1) s 0 + nth (n / 2) s 0) / 2)%Q
  else nth (n / 2) s 0%Q.

(** One box of the plot. *)
Record box := { label : string; data : list Q; position : nat }.

(** The values of the rows of group [m]. *)
Definition group_data (df : list (string * Q)) (m : string) : list Q :=
  let vals := map snd df in
  let groups := map fst df in
  let a := map fst (List.filter (fun jg => String.eqb (snd jg) m)
                      (enumerate groups)) in
  map (fun i => nth i vals 0%Q) a.

Definition reverse_of (sort : string) : option bool :=
  if String.eqb sort "descending" then Some true
  else if String.eqb sort "ascending" then Some false
  else None.

(** Order boxes: the group names by their median; [None] is the TypeError
    of [reverse=None]. *)
Definition order_boxes (sf : list (string * Q)) (sort : string)
    : option (list string) :=
  if truthy sort then
    match reverse_of sort with
    | Some reverse => Some (map fst (list_sort snd reverse sf))
    | None => None
    end
  else Some (map fst sf).

(** [{e: i for i, e in enumerate(sf)}], counting from [i]. *)
Fixpoint rank_dict (i : nat) (sf : list string) (ii : gmap string nat)
    : gmap string nat :=
  match sf with
  | [] => ii
  | e :: rest => rank_dict (S i) rest (<[e := i]> ii)
  end.

(** The grouped branch of [main].  [df] are the rows (group, value) and
    [uid] is [list(set(groups))], the distinct group names in the order in
    which the set hands them out.  Box [i] shows [data[i]] with the label
    [uid[i]] at [positions[i]]; the plotting library raises ValueError
    ([None]) when there is no data at all, which is the case of an empty
    selection, and when the position and data lists differ in length. *)
Definition grouped_boxplot (df : list (string * Q)) (uid : list string)
    (sort : string) : option (list box) :=
  let data := map (group_data df) uid in
  let sf := map (fun m => (m, np_median (group_data df m))) uid in
  match order_boxes sf sort with
  | None => None
  | Some sf =>
      let ii := rank_dict 0 sf ∅ in
      let sfo := omap (fun e => ii !! e) uid in
      if (length data =? 0)%nat then None
      else if (length sfo =? length data)%nat
      then Some (zip_with (fun md p => {| label := fst md; data := snd md;
                                          position := p |})
                   (zip uid data) sfo)
      else None
  end.

End VBoxplot.

(** ** r.slopeunits.metrics: the segmentation metric V *)
Module RSlopeunitsMetrics.

Import RMess.
Local Open Scope Q_scope.

Section CalculateMetrics.

(** The sum r.univar reports for a map without a single cell that is not
    NULL, as [float] reads it; [None] when there is nothing to read. *)
Variable empty_sum : option Q.

(** [r.mapcalc "num = {onecell}*v_i"], over the cells inside the mask. *)
Definition num (onecell : Q) (v_i : list cell) : list cell :=
  map (fun c => mc_mul (Some onecell) c) v_i.

(** [r.mapcalc "den = {onecell}"], over the same cells. *)
Definition den (onecell : Q) (v_i : list cell) : list cell :=
  map (fun _ => Some onecell) v_i.

(** The cells that are not NULL. *)
Definition values (m : list cell) : list Q :=
  flat_map (fun c => match c with Some x => [x] | None => [] end) m.

Definition total (l : list Q) : Q := fold_right Qplus 0 l.

(** [float(r.univar(map)["sum"])] *)
Definition r_univar_sum (m : list cell) : option Q :=
  match values m with
  | [] => empty_sum
  | l => Some (total l)
  end.

Inductive result :=
| Value (v_fin : Q)
| KeyError
| ZeroDivisionError.

(** The part of [calculate_metrics] that gives [v_fin]. *)
Definition calculate_v_fin (res : Q) (v_i : list cell) : result :=
  let onecell := res * res in
  match r_univar_sum (num onecell v_i), r_univar_sum (den onecell v_i) with
  | Some numvar, Some denvar =>
      if Qeq_bool denvar 0 then ZeroDivisionError
      else Value (numvar / denvar)
  | _, _ => KeyError
  end.

End CalculateMetrics.

End RSlopeunitsMetrics.

(* ===================================================================== *)
(** * Part II: the specification                                          *)
(* ===================================================================== *)

(** ** Python helpers on sample inputs *)
Section PythonExamples.
Import Python.
Local Open Scope string_scope.
Local Open Scope list_scope.

Example split_names : split "," "bio1,bio12@climate" = ["bio1"; "bio12@climate"].
Proof. reflexivity. Qed.

Example split_empty : split "," "" = [""].
Proof. reflexivity. Qed.

Example float_decimal : float "12.50" = Some (1250 # 100).
Proof. reflexivity. Qed.

Example float_rejects : float "ten" = None /\ float "" = None.
Proof. split; reflexivity. Qed.

Example float_exponent :
  float "1e-05" = Some (1 # 100000) /\ float "2.5E+3" = Some (25000 # 10) /\
  float "1e" = None /\ float "e5" = None /\ float "-0.5" = Some (-5 # 10).
Proof. repeat split; reflexivity. Qed.

Example contains_signature :
  contains "NoSuchElement" "Caused by: java.util.NoSuchElementException" = true.
Proof. reflexivity. Qed.

Example lower_name : lower "Bio_12" = "bio_12".
Proof. reflexivity. Qed.

End PythonExamples.

(** ** r.mess on sample inputs *)

Example calcc_below :
  RMess.calcc (Some 0%Q) (Some (0#1)) 1 4 = Some (-100 # 3).
Proof. vm_compute. reflexivity. Qed.

Example rules_1234 :
  RMess.recode_reference_rasters [(1,1);(2,1);(3,1);(4,1)]%Z 0 9 =
  Some [RMess.Rule (-1) 0 0; RMess.Rule 1 1 (100#4); RMess.Rule 2 2 (200#4);
        RMess.Rule 3 3 (300#4); RMess.Rule 4 10 (400#4)].
Proof. vm_compute. reflexivity. Qed.

(** ** r.mess: the similarity formula *)
Section MessFormula.
Import RMess.
Local Open Scope Q_scope.

(** A cell holding a number equal (as a rational) to [q]. *)
Definition cell_is (c : cell) (q : Q) : Prop :=
  exists r, c = Some r /\ r == q.

Lemma Qlt_bool_iff (x y : Q) : Qlt_bool x y = true <-> x < y.
Proof.
  unfold Qlt_bool. rewrite negb_true_iff.
  destruct (Qle_bool y x) eqn:E.
  - apply Qle_bool_iff in E. split; [discriminate | intros; lra].
  - split; [intros _ | reflexivity].
    destruct (Qlt_le_dec x y) as [Hlt | Hle]; [exact Hlt |].
    apply Qle_bool_iff in Hle. congruence.
Qed.

Lemma Qeq_bool_false (x y : Q) : Qeq_bool x y = false <-> ~ x == y.
Proof.
  split.
  - intros E H. apply Qeq_bool_iff in H. congruence.
  - intros H. destruct (Qeq_bool x y) eqn:E; [| reflexivity].
    apply Qeq_bool_iff in E. contradiction.
Qed.

Lemma Qle_bool_false (x y : Q) : Qle_bool x y = false <-> y < x.
Proof.
  split.
  - intros E. destruct (Qlt_le_dec y x) as [H | H]; [exact H |].
    apply Qle_bool_iff in H. congruence.
  - intros H. destruct (Qle_bool x y) eqn:E; [| reflexivity].
    apply Qle_bool_iff in E. lra.
Qed.

(** Which branch of [calcc] a percentile selects. *)
Lemma calcc_zero p v lo hi :
  p == 0 ->
  calcc (Some p) (Some v) lo hi =
  if Qeq_bool (hi - lo) 0 then None else Some ((v - lo) / (hi - lo) * 100).
Proof.
  intros Hp. unfold calcc, mc_if, mc_eq, mc_test.
  apply Qeq_bool_iff in Hp. rewrite Hp. cbn.
  destruct (Qeq_bool (hi - lo) 0); reflexivity.
Qed.

Lemma calcc_low p v lo hi :
  ~ p == 0 -> p <= 50 -> calcc (Some p) v lo hi = Some (2 * p).
Proof.
  intros Hp Hle. unfold calcc, mc_if, mc_eq, mc_le, mc_test.
  apply Qeq_bool_false in Hp. apply Qle_bool_iff in Hle.
  rewrite Hp, Hle. reflexivity.
Qed.

Lemma calcc_high p v lo hi :
  50 < p -> p < 100 -> calcc (Some p) v lo hi = Some (2 * (100 - p)).
Proof.
  intros H50 H100. unfold calcc, mc_if, mc_eq, mc_le, mc_lt, mc_test.
  assert (Hp : Qeq_bool p 0 = false) by (apply Qeq_bool_false; lra).
  assert (Hle : Qle_bool p 50 = false) by (apply Qle_bool_false; lra).
  apply Qlt_bool_iff in H100.
  rewrite Hp, Hle, H100. reflexivity.
Qed.

Lemma calcc_top p v lo hi :
  100 <= p ->
  calcc (Some p) (Some v) lo hi =
  if Qeq_bool (hi - lo) 0 then None else Some ((hi - v) / (hi - lo) * 100).
Proof.
  intros H100. unfold calcc, mc_if, mc_eq, mc_le, mc_lt, mc_test.
  assert (Hp : Qeq_bool p 0 = false) by (apply Qeq_bool_false; lra).
  assert (Hle : Qle_bool p 50 = false) by (apply Qle_bool_false; lra).
  assert (Hlt : Qlt_bool p 100 = false).
  { destruct (Qlt_bool p 100) eqn:E; [| reflexivity].
    apply Qlt_bool_iff in E. lra. }
  rewrite Hp, Hle, Hlt. cbn.
  destruct (Qeq_bool (hi - lo) 0); reflexivity.
Qed.

(** A quotient by the reference range is small when the numerator is. *)
Lemma scaled_small (x range eps d : Q) :
  0 < range -> 0 < eps -> d * 100 <= eps * range ->
  Qabs x < d -> Qabs (x / range * 100) < eps.
Proof.
  intros Hr He Hd' Hx.
  apply Qabs_Qlt_condition in Hx. destruct Hx as [Hx1 Hx2].
  apply Qabs_Qlt_condition.
  assert (Ht : 0 < / range) by (apply Qinv_lt_0_compat; exact Hr).
  assert (Hone : range * / range == 1) by (apply Qmult_inv_r; lra).
  unfold Qdiv. set (t := / range) in *.
  assert (Hk : d * 100 * t <= eps).
  { assert (d * 100 * t <= eps * range * t) by
      (apply Qmult_le_compat_r; lra).
    assert (eps * range * t == eps * (range * t)) by ring.
    assert (eps * (range * t) == eps) by (rewrite Hone; ring).
    lra. }
  assert (Hup : x * t * 100 < d * 100 * t).
  { assert (x * t < d * t) by (apply Qmult_lt_compat_r; lra).
    assert (x * t * 100 == x * t * 100) by reflexivity.
    assert (d * 100 * t == d * t * 100) by ring.
    lra. }
  assert (Hdn : - (d * 100 * t) < x * t * 100).
  { assert (- d * t < x * t) by (apply Qmult_lt_compat_r; lra).
    assert (- (d * 100 * t) == - d * t * 100) by ring.
    lra. }
  split; lra.
Qed.

Lemma Qabs_zero_diff (x : Q) : Qabs (x - 0) == Qabs x.
Proof. apply Qabs_wd. ring. Qed.

(** Joint continuity of [calcc] at the junction [(p0, v0)], where it
    takes the value 0: outputs stay within [eps] of 0 for every
    percentile and value within [delta] of the junction. *)
Definition continuous_at (lo hi p0 v0 : Q) : Prop :=
  cell_is (calcc (Some p0) (Some v0) lo hi) 0 /\
  forall eps, 0 < eps ->
    exists delta, 0 < delta /\
      forall p v, Qabs (p - p0) < delta -> Qabs (v - v0) < delta ->
        exists r, calcc (Some p) (Some v) lo hi = Some r /\ Qabs r < eps.

Lemma radius (eps range : Q) :
  0 < range -> 0 < eps ->
  exists delta, 0 < delta /\ delta * 2 <= eps /\
                delta * 100 <= eps * range /\ delta <= 50.
Proof.
  intros Hr He.
  assert (H1 : 0 < eps / 2) by (apply Qlt_shift_div_l; lra).
  assert (H2 : 0 < eps * range / 100).
  { apply Qlt_shift_div_l; [lra |].
    assert (0 < eps * range) by (apply Qmult_lt_0_compat; assumption).
    lra. }
  exists (Qmin (Qmin (eps / 2) (eps * range / 100)) 50).
  pose proof (Q.le_min_l (Qmin (eps / 2) (eps * range / 100)) 50).
  pose proof (Q.le_min_r (Qmin (eps / 2) (eps * range / 100)) 50).
  pose proof (Q.le_min_l (eps / 2) (eps * range / 100)).
  pose proof (Q.le_min_r (eps / 2) (eps * range / 100)).
  assert (eps / 2 * 2 == eps) by field.
  assert (eps * range / 100 * 100 == eps * range) by field.
  repeat split; try lra.
  apply Q.min_glb_lt; [apply Q.min_glb_lt |]; lra.
Qed.

Lemma range_nonzero (lo hi : Q) : lo < hi -> Qeq_bool (hi - lo) 0 = false.
Proof. intros H. apply Qeq_bool_false. lra. Qed.

Lemma continuous_at_min (lo hi : Q) : lo < hi -> continuous_at lo hi 0 lo.
Proof.
  intros Hlt. split.
  - exists ((lo - lo) / (hi - lo) * 100). split.
    + rewrite calcc_zero by reflexivity.
      rewrite range_nonzero by exact Hlt. reflexivity.
    + field. lra.
  - intros eps He.
    destruct (radius eps (hi - lo)) as (d & Hd0 & Hd1 & Hd2 & Hd3);
      [lra | exact He |].
    exists d. split; [exact Hd0 |]. intros p v Hp Hv.
    rewrite Qabs_zero_diff in Hp.
    pose proof Hp as Hp'. apply Qabs_Qlt_condition in Hp'.
    destruct Hp' as [Hp1 Hp2].
    destruct (Qeq_dec p 0) as [Hz | Hnz].
    + rewrite calcc_zero by exact Hz.
      rewrite range_nonzero by exact Hlt.
      eexists. split; [reflexivity |].
      apply scaled_small with (d := d); try assumption. lra.
    + rewrite calcc_low by (try assumption; lra).
      eexists. split; [reflexivity |].
      apply Qabs_Qlt_condition. split; lra.
Qed.

Lemma continuous_at_max (lo hi : Q) : lo < hi -> continuous_at lo hi 100 hi.
Proof.
  intros Hlt. split.
  - exists ((hi - hi) / (hi - lo) * 100). split.
    + rewrite calcc_top by lra.
      rewrite range_nonzero by exact Hlt. reflexivity.
    + field. lra.
  - intros eps He.
    destruct (radius eps (hi - lo)) as (d & Hd0 & Hd1 & Hd2 & Hd3);
      [lra | exact He |].
    exists d. split; [exact Hd0 |]. intros p v Hp Hv.
    pose proof Hp as Hp'. apply Qabs_Qlt_condition in Hp'.
    destruct Hp' as [Hp1 Hp2].
    destruct (Qlt_le_dec p 100) as [Hin | Hout].
    + rewrite calcc_high by lra.
      eexists. split; [reflexivity |].
      apply Qabs_Qlt_condition. split; lra.
    + rewrite calcc_top by exact Hout.
      rewrite range_nonzero by exact Hlt.
      eexists. split; [reflexivity |].
      apply scaled_small with (d := d); try assumption; try lra.
      assert (E : Qabs (hi - v) == Qabs (v - hi)).
      { rewrite <- Qabs_opp. apply Qabs_wd. ring. }
      rewrite E. exact Hv.
Qed.

(** C1.  In [compute_ies], a cell whose recoded percentile is 50 gets the
    similarity 100; a cell whose recoded percentile is 0 gets
    [(v - envmin) / (envmax - envmin) * 100] and one whose percentile is
    100 gets [(envmax - v) / (envmax - envmin) * 100] (NULL when the
    reference range is empty, where the engine divides by zero); and when
    [envmin < envmax] the piecewise formula is continuous where the
    extrapolation branches meet the inner ones, at percentile 0 with
    [v = envmin] and at percentile 100 with [v = envmax], with value 0. *)
Theorem mess_ies_formula (envmin envmax : Q) :
  (forall p v, p == 50 -> cell_is (calcc (Some p) v envmin envmax) 100) /\
  (forall p v, p == 0 ->
     calcc (Some p) (Some v) envmin envmax =
     if Qeq_bool (envmax - envmin) 0 then None
     else Some ((v - envmin) / (envmax - envmin) * 100)) /\
  (forall p v, p == 100 ->
     calcc (Some p) (Some v) envmin envmax =
     if Qeq_bool (envmax - envmin) 0 then None
     else Some ((envmax - v) / (envmax - envmin) * 100)) /\
  (envmin < envmax ->
     continuous_at envmin envmax 0 envmin /\
     continuous_at envmin envmax 100 envmax).
Proof.
  split; [| split; [| split]].
  - intros p v Hp. exists (2 * p). split.
    + apply calcc_low; lra.
    + lra.
  - intros p v Hp. apply calcc_zero. exact Hp.
  - intros p v Hp. apply calcc_top. lra.
  - intros Hlt. split.
    + apply continuous_at_min. exact Hlt.
    + apply continuous_at_max. exact Hlt.
Qed.

(** The formula on the reference range [10, 40]. *)
Lemma mess_ies_formula_witness :
  cell_is (calcc (Some 50) (Some 25) 10 40) 100 /\
  calcc (Some 0) (Some 7) 10 40 = Some ((7 - 10) / (40 - 10) * 100) /\
  calcc (Some 100) (Some 43) 10 40 = Some ((40 - 43) / (40 - 10) * 100) /\
  continuous_at 10 40 0 10 /\ continuous_at 10 40 100 40.
Proof.
  destruct (mess_ies_formula 10 40) as (Hmed & Hlow & Htop & Hcont).
  split; [apply Hmed; reflexivity |].
  split; [apply (Hlow 0 7); reflexivity |].
  split; [apply (Htop 100 43); reflexivity |].
  apply Hcont. reflexivity.
Defined.

End MessFormula.

(** ** r.mess: the recode rule tables *)
Section MessRules.
Import RMess.
Local Open Scope Z_scope.

(** Consecutive rules leave no gap: the next interval starts right after
    the upper end of the previous one. *)
Definition adjacent (r1 r2 : rule) : Prop := upper r1 + 1 = lower r2.

(** What a rule table built from the observed values [vals] with the
    frequencies [counts] has to satisfy, [e1] and [e2] being its outer
    edges. *)
Record rule_table_ok (vals counts : list Z) (Dmin Dmax e1 e2 : Z)
    (rules : list rule) : Prop := {
  tbl_lower : map lower rules = e1 :: vals;
  tbl_upper : map upper rules = map (fun v => v - 1) vals ++ [e2];
  tbl_output : map output rules = 0%Q :: cumulative_percent counts;
  tbl_below : e1 < Dmin /\ Forall (fun v => e1 < v) vals;
  tbl_above : Dmax < e2 /\ Forall (fun v => v < e2) vals;
  tbl_no_gap : Sorted adjacent rules;
  tbl_cover : forall x, e1 <= x <= e2 ->
              exists r, In r rules /\ lower r <= x <= upper r /\
                        r_recode rules x = Some (output r);
  tbl_monotone : StronglySorted Qle (map output rules);
  tbl_ordered : Sorted Z.lt vals ->
                Sorted Z.lt (map lower rules) /\
                Forall (fun r => lower r <= upper r) rules
}.

(** *** The rule-writing loop *)

Lemma write_rules_columns a1 a2 b1 :
  length a1 = length a2 -> length a2 = length b1 ->
  map lower (write_rules a1 a2 b1) = a1 /\
  map upper (write_rules a1 a2 b1) = a2 /\
  map output (write_rules a1 a2 b1) = b1.
Proof.
  revert a2 b1. induction a1 as [| x a1 IH]; intros [| y a2] [| z b1];
    cbn; intros H1 H2; try discriminate; auto.
  destruct (IH a2 b1) as (Hl & Hu & Ho); [lia | lia |].
  rewrite Hl, Hu, Ho. auto.
Qed.

Lemma write_rules_no_gap vals : forall e e2 z c,
  length c = length vals ->
  Sorted adjacent
    (write_rules (e :: vals) (map (fun v => v - 1) vals ++ [e2]) (z :: c)).
Proof.
  induction vals as [| v vs IH]; intros e e2 z [| c0 cs] Hlen;
    try discriminate.
  - cbn. repeat constructor.
  - cbn [map app write_rules]. constructor.
    + apply IH. cbn in Hlen. lia.
    + destruct vs, cs; cbn; constructor; unfold adjacent; cbn; lia.
Qed.

Lemma write_rules_cover vals : forall e e2 z c x,
  length c = length vals -> e <= x <= e2 ->
  exists r,
    In r (write_rules (e :: vals) (map (fun v => v - 1) vals ++ [e2])
            (z :: c)) /\
    lower r <= x <= upper r /\
    r_recode (write_rules (e :: vals) (map (fun v => v - 1) vals ++ [e2])
                (z :: c)) x = Some (output r).
Proof.
  induction vals as [| v vs IH]; intros e e2 z [| c0 cs] x Hlen Hx;
    try discriminate.
  - cbn. exists (Rule e e2 z). cbn. split; [auto |]. split; [lia |].
    replace (e <=? x) with true by (symmetry; apply Z.leb_le; lia).
    replace (x <=? e2) with true by (symmetry; apply Z.leb_le; lia).
    reflexivity.
  - cbn [map app write_rules].
    destruct (Z_le_gt_dec x (v - 1)) as [Hin | Hout].
    + exists (Rule e (v - 1) z). cbn. split; [auto |]. split; [lia |].
      replace (e <=? x) with true by (symmetry; apply Z.leb_le; lia).
      replace (x <=? v - 1) with true by (symmetry; apply Z.leb_le; lia).
      reflexivity.
    + destruct (IH v e2 c0 cs x) as (r & Hr & Hb & Hrec);
        [cbn in Hlen; lia | lia |].
      exists r. split; [right; exact Hr |]. split; [exact Hb |].
      cbn [r_recode lower upper].
      replace (x <=? v - 1) with false by (symmetry; apply Z.leb_gt; lia).
      rewrite andb_false_r. exact Hrec.
Qed.

Lemma write_rules_nonempty vals : forall e e2 z c,
  length c = length vals ->
  Sorted Z.lt (e :: vals) -> Forall (fun v => v < e2) (e :: vals) ->
  Forall (fun r => lower r <= upper r)
    (write_rules (e :: vals) (map (fun v => v - 1) vals ++ [e2]) (z :: c)).
Proof.
  induction vals as [| v vs IH]; intros e e2 z [| c0 cs] Hlen Hs Hlt;
    try discriminate.
  - cbn. constructor; [| constructor]. cbn.
    apply Forall_inv in Hlt. lia.
  - cbn [map app write_rules]. constructor.
    + cbn. apply Sorted_inv in Hs. destruct Hs as [_ Hd].
      apply HdRel_inv in Hd. lia.
    + apply IH.
      * cbn in Hlen. lia.
      * apply Sorted_inv in Hs. tauto.
      * apply Forall_inv_tail in Hlt. exact Hlt.
Qed.

(** *** Cumulative percentiles *)

Lemma cumsum_from_length l : forall acc,
  length (cumsum_from acc l) = length l.
Proof. induction l; intros; cbn; auto. Qed.

Lemma cumulative_percent_length counts :
  length (cumulative_percent counts) = length counts.
Proof.
  unfold cumulative_percent, np_cumsum.
  rewrite length_map. apply cumsum_from_length.
Qed.

Lemma cumsum_from_bounds l : forall acc,
  Forall (fun c => 0 < c) l ->
  Forall (fun a => acc <= a) (cumsum_from acc l) /\
  StronglySorted Z.le (cumsum_from acc l).
Proof.
  induction l as [| x l IH]; intros acc Hpos; cbn.
  - split; constructor.
  - pose proof (Forall_inv Hpos) as Hx. cbn in Hx.
    destruct (IH (acc + x) (Forall_inv_tail Hpos)) as [Hb Hs].
    split.
    + constructor; [lia |].
      eapply Forall_impl; [exact Hb |]. cbn. intros. lia.
    + constructor; assumption.
Qed.

Lemma percent_monotone (b x y : Z) :
  0 < b -> x <= y ->
  (inject_Z x / inject_Z b * 100 <= inject_Z y / inject_Z b * 100)%Q.
Proof.
  intros Hb Hxy.
  assert (Hbq : (0 < inject_Z b)%Q).
  { change 0%Q with (inject_Z 0). rewrite <- Zlt_Qlt. exact Hb. }
  assert (Hq : (inject_Z x <= inject_Z y)%Q) by (rewrite <- Zle_Qle; exact Hxy).
  assert (Hi : (0 < / inject_Z b)%Q) by (apply Qinv_lt_0_compat; exact Hbq).
  unfold Qdiv.
  assert ((inject_Z x * / inject_Z b <= inject_Z y * / inject_Z b)%Q)
    by (apply Qmult_le_compat_r; lra).
  lra.
Qed.

Lemma StronglySorted_map {A B} (R : A -> A -> Prop) (S : B -> B -> Prop)
    (f : A -> B) (l : list A) :
  (forall x y, R x y -> S (f x) (f y)) ->
  StronglySorted R l -> StronglySorted S (map f l).
Proof.
  intros Hf. induction 1 as [| a l Hs IH Hall]; cbn; constructor.
  - exact IH.
  - apply Forall_map. eapply Forall_impl; [exact Hall |].
    cbn. intros. apply Hf. assumption.
Qed.

Lemma np_sum_positive l :
  l <> [] -> Forall (fun c => 0 < c) l -> 0 < np_sum l.
Proof.
  intros Hne Hpos. destruct l as [| x l]; [contradiction |].
  clear Hne. revert x Hpos. induction l as [| y l IH]; intros x Hpos; cbn.
  - apply Forall_inv in Hpos. lia.
  - pose proof (Forall_inv Hpos).
    specialize (IH y (Forall_inv_tail Hpos)). cbn in *. lia.
Qed.

Lemma outputs_monotone counts :
  counts <> [] -> Forall (fun c => 0 < c) counts ->
  StronglySorted Qle (0%Q :: cumulative_percent counts).
Proof.
  intros Hne Hpos.
  pose proof (np_sum_positive counts Hne Hpos) as Hb.
  destruct (cumsum_from_bounds counts 0 Hpos) as [Hlow Hs].
  unfold cumulative_percent, np_cumsum. constructor.
  - eapply StronglySorted_map; [| exact Hs].
    intros x y Hxy. apply percent_monotone; assumption.
  - apply Forall_map. eapply Forall_impl; [exact Hlow |].
    cbn. intros a Ha.
    assert (H0 : (inject_Z 0 / inject_Z (np_sum counts) * 100 == 0)%Q).
    { unfold Qdiv. change (inject_Z 0) with 0%Q. ring. }
    rewrite <- H0. apply percent_monotone; assumption.
Qed.

(** *** Minimum and maximum of the observed values *)

Lemma fold_min_le rest : forall x,
  fold_left Z.min rest x <= x /\
  Forall (fun v => fold_left Z.min rest x <= v) rest.
Proof.
  induction rest as [| y rest IH]; intros x; cbn.
  - split; [lia | constructor].
  - destruct (IH (Z.min x y)) as [H1 H2]. split; [lia |].
    constructor; [lia | exact H2].
Qed.

Lemma fold_max_ge rest : forall x,
  x <= fold_left Z.max rest x /\
  Forall (fun v => v <= fold_left Z.max rest x) rest.
Proof.
  induction rest as [| y rest IH]; intros x; cbn.
  - split; [lia | constructor].
  - destruct (IH (Z.max x y)) as [H1 H2]. split; [lia |].
    constructor; [lia | exact H2].
Qed.

Lemma np_min_le vals envmin :
  np_min vals = Some envmin -> Forall (fun v => envmin <= v) vals.
Proof.
  destruct vals as [| x rest]; cbn; [discriminate |].
  intros [= <-]. destruct (fold_min_le rest x). constructor; assumption.
Qed.

Lemma np_max_ge vals envmax :
  np_max vals = Some envmax -> Forall (fun v => v <= envmax) vals.
Proof.
  destruct vals as [| x rest]; cbn; [discriminate |].
  intros [= <-]. destruct (fold_max_ge rest x). constructor; assumption.
Qed.

Lemma fold_Qmin_le rest : forall x,
  (fold_left Qmin rest x <= x)%Q /\
  Forall (fun v => (fold_left Qmin rest x <= v)%Q) rest.
Proof.
  induction rest as [| y rest IH]; intros x; cbn.
  - split; [lra | constructor].
  - destruct (IH (Qmin x y)) as [H1 H2].
    pose proof (Q.le_min_l x y). pose proof (Q.le_min_r x y).
    split; [lra |]. constructor; [lra | exact H2].
Qed.

Lemma fold_Qmax_ge rest : forall x,
  (x <= fold_left Qmax rest x)%Q /\
  Forall (fun v => (v <= fold_left Qmax rest x)%Q) rest.
Proof.
  induction rest as [| y rest IH]; intros x; cbn.
  - split; [lra | constructor].
  - destruct (IH (Qmax x y)) as [H1 H2].
    pose proof (Q.le_max_l x y). pose proof (Q.le_max_r x y).
    split; [lra |]. constructor; [lra | exact H2].
Qed.

(** Truncation toward zero is monotone. *)
Lemma py_int_monotone (x y : Q) : (x <= y)%Q -> py_int x <= py_int y.
Proof.
  intros Hxy. unfold py_int.
  destruct (Qle_bool 0 x) eqn:Ex; destruct (Qle_bool 0 y) eqn:Ey.
  - apply Qfloor_resp_le. exact Hxy.
  - apply Qle_bool_iff in Ex. apply Qle_bool_false in Ey. lra.
  - apply Qle_bool_false in Ex. apply Qle_bool_iff in Ey.
    apply Z.le_trans with 0.
    + change 0 with (Qceiling 0). apply Qceiling_resp_le. lra.
    + change 0 with (Qfloor 0). apply Qfloor_resp_le. exact Ey.
  - apply Qceiling_resp_le. exact Hxy.
Qed.

Lemma scale_monotone (x y : Q) (d : Z) :
  0 < d -> (x <= y)%Q ->
  py_int (x * inject_Z d) <= py_int (y * inject_Z d).
Proof.
  intros Hd Hxy. apply py_int_monotone.
  apply Qmult_le_compat_r; [exact Hxy |].
  change 0%Q with (inject_Z 0). rewrite <- Zle_Qle. lia.
Qed.

Lemma scaled_min_le volval digits2 mn :
  0 < digits2 -> py_min (map fst volval) = Some mn ->
  Forall (fun v => py_int (mn * inject_Z digits2) <= v)
    (scaled volval digits2).
Proof.
  intros Hd. unfold scaled.
  destruct (map fst volval) as [| x rest]; cbn; [discriminate |].
  intros [= <-]. destruct (fold_Qmin_le rest x) as [H1 H2].
  constructor; [apply scale_monotone; assumption |].
  apply Forall_map. eapply Forall_impl; [exact H2 |].
  cbn. intros. apply scale_monotone; assumption.
Qed.

Lemma scaled_max_ge volval digits2 mx :
  0 < digits2 -> py_max (map fst volval) = Some mx ->
  Forall (fun v => v <= py_int (mx * inject_Z digits2))
    (scaled volval digits2).
Proof.
  intros Hd. unfold scaled.
  destruct (map fst volval) as [| x rest]; cbn; [discriminate |].
  intros [= <-]. destruct (fold_Qmax_ge rest x) as [H1 H2].
  constructor; [apply scale_monotone; assumption |].
  apply Forall_map. eapply Forall_impl; [exact H2 |].
  cbn. intros. apply scale_monotone; assumption.
Qed.

(** *** The table built by either path *)

Lemma lower_edge_spec Dmin envmin :
  lower_edge Dmin envmin < Dmin /\ lower_edge Dmin envmin < envmin.
Proof. unfold lower_edge. destruct (Z.ltb_spec Dmin envmin); lia. Qed.

Lemma upper_edge_spec Dmax envmax :
  Dmax < upper_edge Dmax envmax /\ envmax < upper_edge Dmax envmax.
Proof.
  unfold upper_edge. rewrite Z.gtb_ltb.
  destruct (Z.ltb_spec envmax Dmax); lia.
Qed.

Lemma build_table_ok vals counts Dmin Dmax envmin envmax :
  length counts = length vals -> vals <> [] ->
  Forall (fun c => 0 < c) counts ->
  Forall (fun v => envmin <= v) vals ->
  Forall (fun v => v <= envmax) vals ->
  rule_table_ok vals counts Dmin Dmax
    (lower_edge Dmin envmin) (upper_edge Dmax envmax)
    (write_rules (lower_edge Dmin envmin :: vals)
       (map (fun v => v - 1) vals ++ [upper_edge Dmax envmax])
       (0%Q :: cumulative_percent counts)).
Proof.
  intros Hlen Hne Hpos Hmin Hmax.
  destruct (lower_edge_spec Dmin envmin) as [Hl1 Hl2].
  destruct (upper_edge_spec Dmax envmax) as [Hu1 Hu2].
  set (e1 := lower_edge Dmin envmin) in *.
  set (e2 := upper_edge Dmax envmax) in *.
  assert (Hc : length (cumulative_percent counts) = length vals)
    by (rewrite cumulative_percent_length; exact Hlen).
  assert (Hbelow : Forall (fun v => e1 < v) vals)
    by (eapply Forall_impl; [exact Hmin |]; cbn; intros; lia).
  assert (Habove : Forall (fun v => v < e2) vals)
    by (eapply Forall_impl; [exact Hmax |]; cbn; intros; lia).
  destruct (write_rules_columns (e1 :: vals)
              (map (fun v => v - 1) vals ++ [e2])
              (0%Q :: cumulative_percent counts)) as (Hlo & Hup & Hout).
  { rewrite length_app, length_map. cbn. lia. }
  { rewrite length_app, length_map. cbn. lia. }
  assert (Hcounts : counts <> []).
  { intros ->. destruct vals; [contradiction | discriminate]. }
  constructor; try assumption.
  - split; assumption.
  - split; assumption.
  - apply write_rules_no_gap. exact Hc.
  - intros x Hx. apply write_rules_cover; assumption.
  - rewrite Hout. apply outputs_monotone; assumption.
  - intros Hs. rewrite Hlo.
    assert (Hs' : Sorted Z.lt (e1 :: vals)).
    { constructor; [exact Hs |].
      destruct vals; constructor. apply Forall_inv in Hbelow. exact Hbelow. }
    split; [exact Hs' |].
    apply write_rules_nonempty; try assumption.
    constructor; [| exact Habove].
    destruct vals as [| v vs]; [contradiction |].
    apply Forall_inv in Hbelow. apply Forall_inv in Habove. lia.
Qed.

(** C2.  Both paths of r.mess that turn a frequency table into a recode
    rule table (from raster statistics and from point samples) yield,
    for observed values [v_0, ..., v_k] with positive counts, the rules
    [e1, v_0 - 1], [v_0, v_1 - 1], ..., [v_k, e2] with the outputs
    0, c_0, ..., c_k: [e1] lies below and [e2] above both the observed
    values and the range [Dmin, Dmax] of the projection layer, each
    interval starts right after the previous one ends, every value from
    [e1] to [e2] is recoded by a rule that holds it, the outputs never
    decrease, and for strictly increasing values the intervals are
    non-empty and in increasing order. *)
Theorem mess_recode_rule_table (Dmin Dmax : Z) :
  (forall sstval,
     sstval <> [] -> Forall (fun c => 0 < c) (map snd sstval) ->
     exists rules e1 e2,
       recode_reference_rasters sstval Dmin Dmax = Some rules /\
       rule_table_ok (map fst sstval) (map snd sstval)
         Dmin Dmax e1 e2 rules) /\
  (forall volval digits2,
     volval <> [] -> 0 < digits2 ->
     Forall (fun c => 0 < c) (map snd volval) ->
     exists rules e1 e2,
       recode_reference_vector volval digits2 Dmin Dmax = Some rules /\
       rule_table_ok (scaled volval digits2) (map snd volval)
         Dmin Dmax e1 e2 rules).
Proof.
  split.
  - intros sstval Hne Hpos. unfold recode_reference_rasters.
    destruct (np_min (map fst sstval)) as [envmin |] eqn:Emin;
      [| destruct sstval; [contradiction | discriminate]].
    destruct (np_max (map fst sstval)) as [envmax |] eqn:Emax;
      [| destruct sstval; [contradiction | discriminate]].
    eexists _, _, _. split; [reflexivity |].
    apply build_table_ok with (envmin := envmin) (envmax := envmax).
    + rewrite !length_map. reflexivity.
    + destruct sstval; [contradiction | discriminate].
    + exact Hpos.
    + apply np_min_le. exact Emin.
    + apply np_max_ge. exact Emax.
  - intros volval digits2 Hne Hd Hpos. unfold recode_reference_vector.
    destruct (py_min (map fst volval)) as [mn |] eqn:Emin;
      [| destruct volval; [contradiction | discriminate]].
    destruct (py_max (map fst volval)) as [mx |] eqn:Emax;
      [| destruct volval; [contradiction | discriminate]].
    eexists _, _, _. split; [reflexivity |].
    apply build_table_ok with
      (envmin := py_int (mn * inject_Z digits2))
      (envmax := py_int (mx * inject_Z digits2)).
    + unfold scaled. rewrite !length_map. reflexivity.
    + unfold scaled. destruct volval; [contradiction | discriminate].
    + exact Hpos.
    + apply scaled_min_le; assumption.
    + apply scaled_max_ge; assumption.
Qed.

(** The tables of a raster with the values 1..4 and of three point
    values at two decimal digits. *)
Lemma mess_recode_rule_table_witness :
  (exists rules e1 e2,
     recode_reference_rasters [(1, 1); (2, 1); (3, 1); (4, 1)] 0 9
       = Some rules /\
     rule_table_ok [1; 2; 3; 4] [1; 1; 1; 1] 0 9 e1 e2 rules) /\
  (exists rules e1 e2,
     recode_reference_vector [((3 # 2)%Q, 2); ((9 # 4)%Q, 1); ((5 # 1)%Q, 3)] 100 0 900
       = Some rules /\
     rule_table_ok [150; 225; 500] [2; 1; 3] 0 900 e1 e2 rules).
Proof.
  destruct (mess_recode_rule_table 0 9) as [Hr _].
  destruct (mess_recode_rule_table 0 900) as [_ Hv].
  split.
  - apply (Hr [(1, 1); (2, 1); (3, 1); (4, 1)]).
    + discriminate.
    + repeat constructor.
  - apply (Hv [((3 # 2)%Q, 2); ((9 # 4)%Q, 1); ((5 # 1)%Q, 3)] 100).
    + discriminate.
    + reflexivity.
    + repeat constructor.
Defined.

(** *** Where the recoded percentile is 0 and where it is 100 *)

Lemma r_recode_first vals : forall e e2 z c v,
  length c = length vals -> e <= v -> v <= e2 -> Forall (fun x => v < x) vals ->
  r_recode (write_rules (e :: vals) (map (fun x => x - 1) vals ++ [e2]) (z :: c))
    v = Some z.
Proof.
  intros e e2 z c v Hlen Hlo Hhi Hbelow.
  destruct vals as [| v0 vs]; destruct c as [| c0 cs]; try discriminate; cbn.
  - replace (e <=? v) with true by (symmetry; apply Z.leb_le; lia).
    replace (v <=? e2) with true by (symmetry; apply Z.leb_le; lia).
    reflexivity.
  - apply Forall_inv in Hbelow.
    replace (e <=? v) with true by (symmetry; apply Z.leb_le; lia).
    replace (v <=? v0 - 1) with true by (symmetry; apply Z.leb_le; lia).
    reflexivity.
Qed.

Lemma last_cons {A} (r : list A) : forall y d,
  List.last (y :: r) d = List.last r y.
Proof.
  induction r as [| z r IH]; intros y d; [reflexivity |].
  change (List.last (z :: r) d = List.last (z :: r) y).
  rewrite (IH z d), (IH z y). reflexivity.
Qed.

Lemma sorted_last_ge l : forall x, Sorted Z.lt (x :: l) -> x <= List.last l x.
Proof.
  induction l as [| y l IH]; intros x Hs; [cbn; lia |].
  apply Sorted_inv in Hs. destruct Hs as [Hs Hd]. apply HdRel_inv in Hd.
  rewrite last_cons. specialize (IH y Hs). lia.
Qed.

Lemma r_recode_last vals : forall e e2 z c v,
  length c = length vals -> Sorted Z.lt (e :: vals) ->
  List.last vals e <= v -> v <= e2 ->
  r_recode (write_rules (e :: vals) (map (fun x => x - 1) vals ++ [e2]) (z :: c))
    v = Some (List.last c z).
Proof.
  induction vals as [| v0 vs IH]; intros e e2 z [| c0 cs] v Hlen Hs Hlast Hhi;
    try discriminate.
  - cbn in *.
    replace (e <=? v) with true by (symmetry; apply Z.leb_le; lia).
    replace (v <=? e2) with true by (symmetry; apply Z.leb_le; lia).
    reflexivity.
  - apply Sorted_inv in Hs. destruct Hs as [Hs Hd].
    pose proof (sorted_last_ge vs v0 Hs) as Hv0.
    rewrite last_cons in Hlast.
    change (write_rules (e :: v0 :: vs)
              (map (fun x => x - 1) (v0 :: vs) ++ [e2]) (z :: c0 :: cs))
      with (Rule e (v0 - 1) z ::
            write_rules (v0 :: vs) (map (fun x => x - 1) vs ++ [e2]) (c0 :: cs)).
    cbn [r_recode lower upper].
    replace (v <=? v0 - 1) with false by (symmetry; apply Z.leb_gt; lia).
    rewrite andb_false_r.
    rewrite (IH v0 e2 c0 cs v); [| cbn in Hlen; lia | exact Hs | exact Hlast
                                 | exact Hhi].
    rewrite last_cons. reflexivity.
Qed.

Lemma cumsum_from_last l : forall acc d,
  l <> [] -> List.last (cumsum_from acc l) d = acc + np_sum l.
Proof.
  induction l as [| x l IH]; intros acc d Hne; [contradiction |].
  cbn [cumsum_from]. rewrite last_cons.
  destruct l as [| y l'].
  - cbn. lia.
  - rewrite IH by discriminate. cbn. lia.
Qed.

Lemma last_map {A B} (f : A -> B) (l : list A) : forall d d',
  l <> [] -> List.last (map f l) d' = f (List.last l d).
Proof.
  induction l as [| x l IH]; intros d d' Hne; [contradiction |].
  cbn [map]. rewrite !last_cons. destruct l as [| y l'].
  - reflexivity.
  - apply IH. discriminate.
Qed.

(** The last cumulative percentile is 100. *)
Lemma cumulative_percent_last counts :
  counts <> [] -> Forall (fun c => 0 < c) counts ->
  (List.last (cumulative_percent counts) 0 == 100)%Q.
Proof.
  intros Hne Hpos. pose proof (np_sum_positive counts Hne Hpos) as Hb.
  unfold cumulative_percent, np_cumsum.
  rewrite (last_map _ _ 0%Z).
  - rewrite cumsum_from_last by exact Hne. rewrite Z.add_0_l.
    field. intros H. unfold Qeq in H. cbn in H. lia.
  - destruct counts; [contradiction | discriminate].
Qed.

(** The cells of [compute_ies] outside the observed range, for the table
    of [recode_reference_rasters] over strictly increasing values: below
    the observed minimum the recoded percentile is 0 and the similarity is
    the lower extrapolation; from the observed maximum on the percentile
    is 100 and the similarity is the upper extrapolation. *)
Lemma mess_cells_outside_range sstval Dmin Dmax rules envmin envmax :
  Sorted Z.lt (map fst sstval) ->
  Forall (fun c => 0 < c) (map snd sstval) ->
  recode_reference_rasters sstval Dmin Dmax = Some rules ->
  np_min (map fst sstval) = Some envmin ->
  np_max (map fst sstval) = Some envmax ->
  envmin < envmax ->
  (forall v, lower_edge Dmin envmin <= v < envmin ->
     calcc (r_recode rules v) (Some (inject_Z v))
       (inject_Z envmin) (inject_Z envmax) =
     Some ((inject_Z v - inject_Z envmin)
           / (inject_Z envmax - inject_Z envmin) * 100)%Q) /\
  (forall v, envmax <= v <= upper_edge Dmax envmax ->
     calcc (r_recode rules v) (Some (inject_Z v))
       (inject_Z envmin) (inject_Z envmax) =
     Some ((inject_Z envmax - inject_Z v)
           / (inject_Z envmax - inject_Z envmin) * 100)%Q).
Proof.
  intros Hs Hpos Hrules Hmin Hmax Hlt.
  assert (Hr : rules =
                write_rules (lower_edge Dmin envmin :: map fst sstval)
                  (map (fun x => x - 1) (map fst sstval)
                   ++ [upper_edge Dmax envmax])
                  (0%Q :: cumulative_percent (map snd sstval))).
  { unfold recode_reference_rasters in Hrules. rewrite Hmin, Hmax in Hrules.
    cbv zeta in Hrules. congruence. }
  clear Hrules. rewrite Hr. clear Hr rules.
  assert (Hne : map fst sstval <> [])
    by (intros E; rewrite E in Hmin; discriminate).
  assert (Hlen : length (cumulative_percent (map snd sstval))
                 = length (map fst sstval))
    by (rewrite cumulative_percent_length, !length_map; reflexivity).
  assert (Hrange : Qeq_bool (inject_Z envmax - inject_Z envmin) 0 = false).
  { apply range_nonzero. rewrite <- Zlt_Qlt. exact Hlt. }
  pose proof (np_min_le _ _ Hmin) as Hlow.
  pose proof (np_max_ge _ _ Hmax) as Hhigh.
  destruct (lower_edge_spec Dmin envmin) as [_ He1].
  destruct (upper_edge_spec Dmax envmax) as [_ He2].
  split.
  - intros v [Hv1 Hv2].
    rewrite r_recode_first; try assumption; try lia.
    + rewrite calcc_zero by reflexivity. rewrite Hrange. reflexivity.
    + eapply Forall_impl; [exact Hlow |]. cbn. intros. lia.
  - intros v [Hv1 Hv2].
    assert (Hlast : List.last (map fst sstval) (lower_edge Dmin envmin)
                    = envmax).
    { destruct (map fst sstval) as [| x rest] eqn:E; [contradiction |].
      apply Z.le_antisymm.
      - rewrite Forall_forall in Hhigh. apply Hhigh.
        apply list_elem_of_In.
        destruct (@exists_last _ (x :: rest)) as (l' & y & E');
          [discriminate |].
        rewrite E', List.last_last. apply in_or_app. right. left. reflexivity.
      - cbn in Hmax. injection Hmax as <-. rewrite last_cons.
        clear - Hs. revert x Hs.
        induction rest as [| y rest IH]; intros x Hs; [cbn; lia |].
        apply Sorted_inv in Hs. destruct Hs as [Hs Hd].
        apply HdRel_inv in Hd. cbn [fold_left]. rewrite last_cons.
        replace (Z.max x y) with y by lia. apply IH. exact Hs. }
    rewrite r_recode_last; try assumption; try lia.
    + pose proof (cumulative_percent_last (map snd sstval)) as H100.
      rewrite calcc_top.
      * rewrite Hrange. reflexivity.
      * rewrite H100; [lra | | exact Hpos].
        intros E. apply Hne. destruct sstval; [reflexivity | discriminate].
    + constructor; [exact Hs |].
      destruct (map fst sstval) as [| x rest]; constructor.
      apply Forall_inv in Hlow. lia.
Qed.

End MessRules.


(** ** v.in.gbif: the two-tier decoding *)
Section GbifEncoding.
Import VInGbif.
Local Open Scope string_scope.
Local Open Scope list_scope.

(** C7.  [process_csv] converts the file in one strict pass when the
    primary decoding succeeds; when that pass raises a decoding error it
    makes exactly one more pass, with the fallback encoding and the
    permissive error mode; and it ends fatally on a decoding error only if
    both passes raised one. *)
Theorem gbif_two_tier_decoding (convert : option string -> string -> result)
    (primary : option string) (fallback : string) :
  (convert primary "strict" = Return ->
   process_csv convert primary fallback =
   (Converted, [Open primary "strict"])) /\
  (forall e, convert primary "strict" = Raise (UnicodeDecodeError e) ->
   passes (snd (process_csv convert primary fallback)) =
   [(primary, "strict"); (Some fallback, "replace")] /\
   (convert (Some fallback) "replace" = Return ->
    fst (process_csv convert primary fallback) = Converted)) /\
  (forall e', fst (process_csv convert primary fallback)
              = Fatal ("Details: " +:+ e') <->
     (exists e, convert primary "strict" = Raise (UnicodeDecodeError e)) /\
     convert (Some fallback) "replace" = Raise (UnicodeDecodeError e')).
Proof.
  unfold process_csv, process_file. split; [| split].
  - intros ->. reflexivity.
  - intros e ->. split.
    + destruct (convert (Some fallback) "replace") as [| []]; reflexivity.
    + intros ->. reflexivity.
  - intros e'. split.
    + destruct (convert primary "strict") as [| [e | f e | e]] eqn:E1;
        cbn; try discriminate.
      destruct (convert (Some fallback) "replace") as [| [e2 | f2 e2 | e2]];
        cbn; try discriminate.
      intros [= H]. change (e2 = e') in H. subst e'.
      split; [exists e |]; reflexivity.
    + intros [[e ->] ->]. reflexivity.
Qed.

(** A Latin-1 file under a UTF-8 locale: the strict pass fails, the
    permissive one succeeds. *)
Definition latin1_file (enc : option string) (mode : string) : result :=
  if String.eqb mode "strict"
  then Raise (UnicodeDecodeError "invalid start byte")
  else Return.

Lemma gbif_two_tier_decoding_witness :
  passes (snd (process_csv latin1_file None "utf-8")) =
  [(None, "strict"); (Some "utf-8", "replace")] /\
  fst (process_csv latin1_file None "utf-8") = Converted.
Proof.
  destruct (gbif_two_tier_decoding latin1_file None "utf-8")
    as (_ & Hretry & _).
  destruct (Hretry "invalid start byte") as [Hp Hc]; [reflexivity |].
  split; [exact Hp | apply Hc; reflexivity].
Defined.

End GbifEncoding.

(** ** r.maxent.predict *)
Section MaxentPredict.
Import Python RMaxentPredict.
Local Open Scope string_scope.
Local Open Scope list_scope.

(** A run on an existing folder of exported layers in which the predictor
    exits with code 1 and an error that is not the known signature. *)
Definition failing_options : options :=
  {| java := ""; maxent := "/opt/maxent.jar";
     projectionlayers := "/data/layers"; alias_file := ""; rasters := "";
     variables := ""; lambdafile := "species.lambdas"; memory := "300";
     output := "prediction" |}.

Definition no_flags : flags :=
  {| flag_e := false; flag_c := false; flag_f := false; flag_p := false |}.

Definition failing_environment : environment :=
  {| java_txtfile := Some "/usr/bin/java";
     java_functional := fun _ => true;
     GRASS_ADDON_BASE := Some "/addons";
     nsres := "10"; ewres := "10";
     tempdir := "/tmp/grass";
     alias_rows := [];
     check_layers := fun _ => ([], []);
     uuid4_hex := "0f3a";
     stderr := ["Error: species.lambdas (No such file or directory)"];
     returncode := 1;
     writes_output := false |}.

(** *** Properties of the state that script fragments keep *)

Definition preserves {A} (P : state -> Prop) (m : prog A) : Prop :=
  forall st, P st -> P (fst (m st)).

Lemma preserves_ret {A} P (a : A) : preserves P (ret a).
Proof. intros st H. exact H. Qed.

Lemma preserves_fatal {A} P msg : preserves P (@fatal A msg).
Proof. intros st H. exact H. Qed.

Lemma preserves_raise {A} P e : preserves P (@raise A e).
Proof. intros st H. exact H. Qed.

Lemma preserves_isfile P path : preserves P (isfile path).
Proof. intros st H. exact H. Qed.

Lemma preserves_bind {A B} P (m : prog A) (k : A -> prog B) :
  preserves P m -> (forall a, preserves P (k a)) -> preserves P (bind m k).
Proof.
  intros Hm Hk st H. unfold bind. specialize (Hm st H).
  destruct (m st) as [st' [a | o]]; cbn in *.
  - apply Hk. exact Hm.
  - exact Hm.
Qed.

Lemma preserves_for_each {A} P (l : list A) (body : A -> prog unit) :
  (forall x, preserves P (body x)) -> preserves P (for_each l body).
Proof.
  intros Hb. induction l as [| x l IH]; cbn.
  - apply preserves_ret.
  - apply preserves_bind; [apply Hb | intros _; exact IH].
Qed.

Create HintDb preserves.
#[local] Hint Resolve preserves_ret preserves_fatal preserves_raise
  preserves_isfile : preserves.

(** Steps through the control structure of a fragment. *)
Ltac preserves_step :=
  match goal with
  | |- preserves _ (bind _ _) => apply preserves_bind; [| intros ?]
  | |- preserves _ (for_each _ _) => apply preserves_for_each; intros ?
  | |- preserves _ (if ?b then _ else _) => destruct b
  | |- preserves _ (match ?x with _ => _ end) => destruct x
  | |- preserves _ (let _ := _ in _) => cbv zeta
  | |- preserves _ _ => solve [auto with preserves]
  end.

(** No predictor process has been started. *)
Definition no_popen (st : state) : Prop :=
  forall cmd, ~ In (Popen cmd) (trace st).

(** Every grid exported so far is a file. *)
Definition exported_present (st : state) : Prop :=
  forall input out, In (ROutGdal input out) (trace st) -> out ∈ fs st.

Lemma warning_no_popen msg : preserves no_popen (emit (Warning msg)).
Proof.
  intros st H cmd Hin. cbn in Hin. apply in_app_or in Hin.
  destruct Hin as [Hin | [Hin | []]]; [exact (H cmd Hin) | discriminate].
Qed.

Lemma find_java_quiet opts env : preserves no_popen (find_java opts env).
Proof.
  unfold find_java. repeat preserves_step. apply warning_no_popen.
Qed.

Lemma find_maxent_quiet opts env : preserves no_popen (find_maxent opts env).
Proof. unfold find_maxent. repeat preserves_step. Qed.

Lemma differ_as_text env (ns ew : Q) :
  float (nsres env) = Some ns -> float (ewres env) = Some ew ->
  ~ (ns == ew)%Q -> String.eqb (nsres env) (ewres env) = false.
Proof.
  intros Hns Hew Hne. destruct (String.eqb_spec (nsres env) (ewres env)) as [E |];
    [| reflexivity].
  rewrite E in Hns. rewrite Hns in Hew. injection Hew as ->.
  exfalso. apply Hne. reflexivity.
Qed.

(** C8.  When the two resolutions of the region differ: without the [-e]
    flag no run starts the predictor or completes, and a run that gets to
    the resolution check ends there with the fatal message; with the flag
    such a run sends [g.region -a res=] with the smaller of the two
    resolutions, after which both resolutions of the region have that
    value, and goes on with the export and the prediction. *)
Theorem maxent_resolution_mismatch (opts : options) (flgs : flags)
    (env : environment) (files : gset string) (ns ew : Q) :
  float (nsres env) = Some ns -> float (ewres env) = Some ew ->
  ~ (ns == ew)%Q ->
  let st0 := {| fs := files; trace := [] |} in
  (flag_e flgs = false ->
   (forall cmd, ~ In (Popen cmd) (trace (fst (main opts flgs env st0)))) /\
   snd (main opts flgs env st0) <> inl tt /\
   (forall st1 st2 path_to_java maxent_file,
      find_java opts env st0 = (st1, inl path_to_java) ->
      find_maxent opts env st1 = (st2, inl maxent_file) ->
      main opts flgs env st0 =
      (st2, inr (Fatal resolution_mismatch)))) /\
  (flag_e flgs = true ->
   forall st1 st2 path_to_java maxent_file,
     find_java opts env st0 = (st1, inl path_to_java) ->
     find_maxent opts env st1 = (st2, inl maxent_file) ->
     let adjusted :=
       {| fs := fs st2; trace := trace st2 ++ [GRegion (Qmin ns ew)] |} in
     main opts flgs env st0 =
       export_and_predict opts flgs env path_to_java maxent_file adjusted /\
     (forall reg, region_after (trace adjusted) reg =
                  {| region_nsres := Qmin ns ew; region_ewres := Qmin ns ew |}) /\
     (Qmin ns ew <= ns)%Q /\ (Qmin ns ew <= ew)%Q).
Proof.
  intros Hns Hew Hne st0.
  pose proof (differ_as_text env ns ew Hns Hew Hne) as Htxt.
  assert (H0 : no_popen st0) by (intros cmd []).
  split.
  - intros He.
    pose proof (find_java_quiet opts env st0 H0) as Hj.
    unfold main, bind.
    destruct (find_java opts env st0) as [st1 [pj | o1]] eqn:Ej; cbn in Hj.
    + pose proof (find_maxent_quiet opts env st1 Hj) as Hm.
      destruct (find_maxent opts env st1) as [st2 [mf | o2]] eqn:Em;
        cbn in Hm.
      * unfold check_resolution. rewrite Htxt, He. cbn.
        split; [exact Hm |]. split; [discriminate |].
        intros st1' st2' pj' mf' [= <- <-]. rewrite Em.
        intros [= <- <-]. reflexivity.
      * cbn. split; [exact Hm |]. split; [discriminate |].
        intros st1' st2' pj' mf' [= <- <-]. rewrite Em. discriminate.
    + cbn. split; [exact Hj |]. split; [discriminate |].
      intros st1' st2' pj' mf'. discriminate.
  - intros He st1 st2 pj mf Ej Em adjusted. split; [| split; [| split]].
    + unfold main, bind. rewrite Ej, Em.
      unfold check_resolution. rewrite Htxt, He, Hns, Hew. reflexivity.
    + intros reg. unfold adjusted. cbn [trace].
      unfold region_after. rewrite fold_left_app. reflexivity.
    + apply Q.le_min_l.
    + apply Q.le_min_r.
Qed.

(** A region of 10 by 30 map units and the [-e] flag. *)
Definition uneven_environment : environment :=
  {| java_txtfile := Some "/usr/bin/java";
     java_functional := fun _ => true;
     GRASS_ADDON_BASE := Some "/addons";
     nsres := "10"; ewres := "30";
     tempdir := "/tmp/grass";
     alias_rows := [];
     check_layers := fun _ => ([], []);
     uuid4_hex := "0f3a";
     stderr := [];
     returncode := 0;
     writes_output := true |}.

Definition adapt_flag : flags :=
  {| flag_e := true; flag_c := false; flag_f := false; flag_p := false |}.

Lemma maxent_resolution_mismatch_witness :
  let st0 := {| fs := {["/opt/maxent.jar"]}; trace := [] |} in
  main failing_options adapt_flag uneven_environment st0 =
  export_and_predict failing_options adapt_flag uneven_environment
    (Some "/usr/bin/java") "/opt/maxent.jar"
    {| fs := fs st0; trace := [GRegion (Qmin 10 30)] |}.
Proof.
  intros st0.
  destruct (maxent_resolution_mismatch failing_options adapt_flag
              uneven_environment {["/opt/maxent.jar"]} 10 30)
    as [_ Hflag]; [reflexivity | reflexivity | discriminate |].
  destruct (Hflag eq_refl st0 st0 (Some "/usr/bin/java") "/opt/maxent.jar")
    as [Hgo _]; [reflexivity | vm_compute; reflexivity |].
  exact Hgo.
Defined.

(** Resolutions below 0.0001 are printed with an exponent. *)
Definition fine_environment : environment :=
  {| java_txtfile := Some "/usr/bin/java";
     java_functional := fun _ => true;
     GRASS_ADDON_BASE := Some "/addons";
     nsres := "1e-05"; ewres := "2.5e-05";
     tempdir := "/tmp/grass";
     alias_rows := [];
     check_layers := fun _ => ([], []);
     uuid4_hex := "0f3a";
     stderr := [];
     returncode := 0;
     writes_output := true |}.

Example fine_resolution_adjusted :
  check_resolution adapt_flag fine_environment {| fs := ∅; trace := [] |} =
    ({| fs := ∅; trace := [GRegion (1 # 100000)] |}, inl tt) /\
  check_resolution no_flags fine_environment {| fs := ∅; trace := [] |} =
    ({| fs := ∅; trace := [] |}, inr (Fatal resolution_mismatch)).
Proof. split; vm_compute; reflexivity. Qed.

(** *** What the exit-time callback sees *)

Lemma emit_present ev :
  (forall input out, ev <> ROutGdal input out) ->
  preserves exported_present (emit ev).
Proof.
  intros Hev st H input out Hin. cbn in *. apply in_app_or in Hin.
  destruct Hin as [Hin | [Hin | []]]; [exact (H _ _ Hin) |].
  exfalso. exact (Hev _ _ Hin).
Qed.

Lemma write_present path : preserves exported_present (write_file path).
Proof.
  intros st H input out Hin. cbn in *. specialize (H _ _ Hin). set_solver.
Qed.

Lemma export_present layer_name file_name :
  preserves exported_present
    (emit (ROutGdal layer_name file_name) ;;; write_file file_name).
Proof.
  intros st H input out Hin. cbn in *. apply in_app_or in Hin.
  destruct Hin as [Hin | [Hin | []]].
  - specialize (H _ _ Hin). set_solver.
  - injection Hin as _ <-. set_solver.
Qed.

Lemma main_exported_present opts flgs env :
  preserves exported_present (main opts flgs env).
Proof.
  unfold main, export_and_predict, run_maxent, export_layers,
    check_resolution, find_maxent, find_java.
  repeat first
    [ apply export_present
    | apply write_present
    | apply emit_present; discriminate
    | preserves_step ].
Qed.

(** C9.  The exit-time callback of r.maxent.predict removes nothing:
    [temp_directory] is not among the names bound at module level, so the
    callback leaves every file system as it finds it; after any run the
    files are those [main] left behind, and every grid written by the
    export is still among them. *)
Theorem maxent_cleanup_removes_nothing (opts : options) (flgs : flags)
    (env : environment) (files : gset string) :
  module_globals !! "temp_directory" = None /\
  (forall remaining, cleanup module_globals remaining = remaining) /\
  snd (script opts flgs env files) =
    fs (fst (main opts flgs env {| fs := files; trace := [] |})) /\
  (forall input out,
     In (ROutGdal input out) (snd (fst (script opts flgs env files))) ->
     out ∈ snd (script opts flgs env files)).
Proof.
  assert (Hlookup : module_globals !! "temp_directory" = None)
    by (vm_compute; reflexivity).
  assert (Hclean : forall remaining,
             cleanup module_globals remaining = remaining).
  { intros remaining. unfold cleanup. rewrite Hlookup. reflexivity. }
  split; [exact Hlookup |]. split; [exact Hclean |].
  pose proof (main_exported_present opts flgs env
                {| fs := files; trace := [] |}) as Hkeep.
  unfold script.
  destruct (main opts flgs env {| fs := files; trace := [] |}) as [st r].
  cbn in *. rewrite Hclean. split; [reflexivity |].
  apply Hkeep. intros input out [].
Qed.

(** A successful run that exports two layers to the temporary folder. *)
Definition export_options : options :=
  {| java := ""; maxent := "/opt/maxent.jar"; projectionlayers := "";
     alias_file := ""; rasters := "elevation,slope@PERMANENT";
     variables := ""; lambdafile := "species.lambdas"; memory := "300";
     output := "prediction" |}.

Definition working_environment : environment :=
  {| java_txtfile := Some "/usr/bin/java";
     java_functional := fun _ => true;
     GRASS_ADDON_BASE := Some "/addons";
     nsres := "10"; ewres := "10";
     tempdir := "/tmp/grass";
     alias_rows := [];
     check_layers := fun _ => ([], []);
     uuid4_hex := "0f3a";
     stderr := [];
     returncode := 0;
     writes_output := true |}.

Example export_run :
  fst (script export_options no_flags working_environment
         {["/opt/maxent.jar"]}) =
  (Done,
   [ROutGdal "elevation" "/tmp/grass/elevation.asc";
    ROutGdal "slope@PERMANENT" "/tmp/grass/slope.asc";
    Popen ["/usr/bin/java"; "-mx300m"; "-cp"; "/opt/maxent.jar";
           "density.Project"; "species.lambdas"; "/tmp/grass";
           "/tmp/grass/mxt_0f3a.asc"];
    RInGdal "/tmp/grass/mxt_0f3a.asc" "prediction"]).
Proof. vm_compute. reflexivity. Qed.

Lemma maxent_cleanup_removes_nothing_witness :
  "/tmp/grass/slope.asc" ∈
    snd (script export_options no_flags working_environment
           {["/opt/maxent.jar"]}).
Proof.
  destruct (maxent_cleanup_removes_nothing export_options no_flags
              working_environment {["/opt/maxent.jar"]})
    as (_ & _ & _ & Hkept).
  apply (Hkept "slope@PERMANENT").
  vm_compute. tauto.
Defined.

(** *** The exit code of the predictor *)

Lemma scan_stderr_from lines : forall acc,
  fold_left (fun missing_variables stderr_line =>
               if contains signature stderr_line
               then Some "Check variable names and path + names of input files"
               else missing_variables) lines acc =
  if existsb (contains signature) lines
  then Some "Check variable names and path + names of input files"
  else acc.
Proof.
  induction lines as [| line lines IH]; intros acc; cbn.
  - reflexivity.
  - rewrite IH. destruct (contains signature line); cbn.
    + destruct (existsb (contains signature) lines); reflexivity.
    + reflexivity.
Qed.

(** [missing_variables] is bound exactly when a line carries the
    signature. *)
Lemma scan_stderr_bound lines :
  scan_stderr lines =
  if existsb (contains signature) lines
  then Some "Check variable names and path + names of input files"
  else None.
Proof. unfold scan_stderr. apply scan_stderr_from. Qed.

(** How the run goes on once the predictor has been started: a non-zero
    exit code gives the variable-names diagnostic when the signature was
    seen and the unbound local otherwise; a zero exit code gives the fatal
    message when the grid is missing and the import when it is there. *)
Lemma run_maxent_outcome opts flgs env path_to_java maxent_file temp_directory
    st :
  let temp_file := path_join temp_directory (create_temp_name env "mxt_") in
  let run := run_maxent opts flgs env (Some path_to_java) maxent_file
               temp_directory st in
  (returncode env <> 0%Z ->
   existsb (contains signature) (stderr env) = true ->
   snd run =
   inr (Fatal "Check variable names and path + names of input files")) /\
  (returncode env <> 0%Z ->
   existsb (contains signature) (stderr env) = false ->
   snd run = inr (Uncaught "UnboundLocalError: missing_variables")) /\
  (returncode env = 0%Z ->
   writes_output env = false -> temp_file ∉ fs st ->
   snd run = inr (Fatal no_output_raster)) /\
  (returncode env = 0%Z -> writes_output env = true ->
   snd run = inl tt /\
   exists tr, trace (fst run) = tr ++ [RInGdal temp_file (output opts)]).
Proof.
  intros temp_file run. subst run.
  unfold run_maxent. fold temp_file.
  set (cmd := _ ++ _ ++ _).
  unfold bind, emit, isfile. cbn [fs trace].
  rewrite scan_stderr_bound.
  split; [| split; [| split]].
  - intros Hrc Hsig. apply Z.eqb_neq in Hrc. rewrite Hrc, Hsig.
    destruct (writes_output env); reflexivity.
  - intros Hrc Hsig. apply Z.eqb_neq in Hrc. rewrite Hrc, Hsig.
    destruct (writes_output env); reflexivity.
  - intros Hrc Hw Hnot. rewrite Hrc, Hw. cbn.
    rewrite bool_decide_eq_false_2 by exact Hnot. reflexivity.
  - intros Hrc Hw. rewrite Hrc, Hw. cbn.
    rewrite bool_decide_eq_true_2 by set_solver. cbn. eauto.
Qed.

(** C5 on the failing run: the predictor exits with code 1, no stderr line
    carries the signature, and the run ends on the unbound local instead of
    the fatal message of that branch. *)
Theorem maxent_exit_code_unbound_local :
  fst (script failing_options no_flags failing_environment
         {["/opt/maxent.jar"]}) =
  (Uncaught "UnboundLocalError: missing_variables",
   [Popen ["/usr/bin/java"; "-mx300m"; "-cp"; "/opt/maxent.jar";
           "density.Project"; "species.lambdas"; "/data/layers";
           "/data/layers/mxt_0f3a.asc"]]).
Proof. vm_compute. reflexivity. Qed.

End MaxentPredict.


(** ** r.recode.attr *)
Section RecodeAttr.
Import Python RRecodeAttr.
Local Open Scope string_scope.
Local Open Scope list_scope.

(** The run recodes the input once for each of the [T] target columns: the
    call for column [x] carries the rules built from that column and the
    output name the script derives for it. *)
Definition recodes_each_column (r_recode_runs : recode -> bool)
    (inputmap outBase : string) (flag_a : bool)
    (t : table) (mapset : gset string) (T : nat) : Prop :=
  let calls := snd (main r_recode_runs inputmap outBase flag_a t mapset) in
  let outNames := split "," outBase in
  fst (main r_recode_runs inputmap outBase flag_a t mapset) = Done /\
  length calls = T /\
  (forall x c, calls !! x = Some c ->
     input c = inputmap /\ rules c = myRecode (S x) t /\
     output_name outNames t T x = Some (output c)) /\
  (T = length outNames ->
   forall x c, calls !! x = Some c -> outNames !! x = Some (output c)) /\
  (T <> length outNames ->
   forall x c, calls !! x = Some c ->
     exists base header,
       outNames !! 0%nat = Some base /\ nmsData t !! S x = Some header /\
       output c = base +:+ "_" +:+ header).

Definition call_for (inputmap : string) (flag_a : bool) (t : table)
    (x : nat) (nmOutput : string) : recode :=
  {| input := inputmap; output := nmOutput; rules := myRecode (S x) t;
     flags := if flag_a then "a" else "" |}.

(** The calls for the columns [k], [k+1], ... under the given names. *)
Definition calls_from (inputmap : string) (flag_a : bool) (t : table)
    (k : nat) (names : list string) : list recode :=
  zip_with (call_for inputmap flag_a t) (seq k (length names)) names.

(** The first [k] columns have new names and their calls succeed. *)
Definition columns_pass (r_recode_runs : recode -> bool) (inputmap : string)
    (flag_a : bool) (t : table) (mapset : gset string)
    (names : list string) (k : nat) : Prop :=
  NoDup (take k names) /\
  (forall nm, nm ∈ take k names -> nm ∉ mapset) /\
  (forall j nm, (j < k)%nat -> names !! j = Some nm ->
     r_recode_runs (call_for inputmap flag_a t j nm) = true).

Lemma calls_from_cons inputmap flag_a t k nm names :
  calls_from inputmap flag_a t k (nm :: names) =
  call_for inputmap flag_a t k nm
  :: calls_from inputmap flag_a t (S k) names.
Proof. reflexivity. Qed.

(** The loop goes through the columns that pass, one call each, and goes
    on with the rest of the columns in the mapset the calls have left. *)
Lemma create_recode_maps_pass r_recode_runs inputmap outNames flag_a t T :
  forall names k0 k mapset,
    Forall2 (fun x nm => output_name outNames t T x = Some nm)
      (seq k0 (length names)) names ->
    (k <= length names)%nat ->
    NoDup (take k names) ->
    (forall nm, nm ∈ take k names -> nm ∉ mapset) ->
    (forall j nm, (j < k)%nat -> names !! j = Some nm ->
       r_recode_runs (call_for inputmap flag_a t (k0 + j) nm) = true) ->
    exists mapset',
      (forall nm, nm ∈ mapset' <-> nm ∈ mapset \/ nm ∈ take k names) /\
      create_recode_maps r_recode_runs (seq k0 (length names)) T inputmap
        outNames flag_a t mapset =
      (fst (create_recode_maps r_recode_runs
              (seq (k0 + k) (length names - k)) T inputmap outNames flag_a t
              mapset'),
       calls_from inputmap flag_a t k0 (take k names)
       ++ snd (create_recode_maps r_recode_runs
                 (seq (k0 + k) (length names - k)) T inputmap outNames
                 flag_a t mapset')).
Proof.
  induction names as [| nm names IH]; intros k0 k mapset Hnames Hk Hnd Hnew Hok.
  - cbn in Hk. assert (k = 0)%nat as -> by lia. exists mapset. split.
    + intros n. cbn. split; [auto | intros [H | H]; [exact H | inversion H]].
    + reflexivity.
  - destruct k as [| k].
    + exists mapset. split.
      * intros n. cbn. split; [auto | intros [H | H]; [exact H | inversion H]].
      * rewrite Nat.add_0_r, Nat.sub_0_r.
        destruct (create_recode_maps _ _ _ _ _ _ _ _); reflexivity.
    + cbn [length seq] in Hnames.
      inversion Hnames as [| ? ? ? ? Hx Hrest]; subst.
      cbn [take] in Hnd, Hnew. apply NoDup_cons in Hnd.
      destruct Hnd as [Hnm Hnd].
      assert (Hfresh : nm ∉ mapset) by (apply Hnew; left).
      assert (Hrun : r_recode_runs (call_for inputmap flag_a t k0 nm) = true).
      { rewrite <- (Nat.add_0_r k0) at 1. apply Hok; [lia | reflexivity]. }
      destruct (IH (S k0) k ({[nm]} ∪ mapset) Hrest) as (mapset' & Hmem & Hgo).
      * cbn in Hk. lia.
      * exact Hnd.
      * intros n Hn Hin. apply elem_of_union in Hin.
        destruct Hin as [Hin | Hin].
        -- apply elem_of_singleton in Hin. subst n. contradiction.
        -- apply (Hnew n); [right; exact Hn | exact Hin].
      * intros j n Hj Hn.
        replace (S k0 + j)%nat with (k0 + S j)%nat by lia.
        apply Hok; [lia | exact Hn].
      * exists mapset'. split.
        -- intros n. rewrite Hmem. cbn [take].
           rewrite elem_of_union, elem_of_singleton, elem_of_cons. tauto.
        -- cbn [length seq create_recode_maps]. rewrite Hx.
           rewrite bool_decide_eq_false_2 by exact Hfresh.
           fold (call_for inputmap flag_a t k0 nm). rewrite Hrun. cbn [negb].
           rewrite Hgo.
           replace (k0 + S k)%nat with (S k0 + k)%nat by lia.
           cbn [Nat.sub]. cbn [take]. rewrite calls_from_cons. reflexivity.
Qed.

Lemma output_name_cases outNames t T x nm :
  output_name outNames t T x = Some nm ->
  (T = length outNames -> outNames !! x = Some nm) /\
  (T <> length outNames ->
   exists base header,
     outNames !! 0%nat = Some base /\ nmsData t !! S x = Some header /\
     nm = base +:+ "_" +:+ header).
Proof.
  unfold output_name. destruct (Nat.eqb_spec T (length outNames)) as [E | E].
  - intros H. split; [intros _; exact H | contradiction].
  - destruct (outNames !! 0%nat) as [base |]; [| discriminate].
    destruct (nmsData t !! S x) as [header |]; [| discriminate].
    intros [= <-]. split; [contradiction |]. intros _. eauto.
Qed.

(** The run of [main] through the first [k] columns, which pass. *)
Lemma main_pass r_recode_runs inputmap outBase flag_a t mapset nrows T names k :
  shape t = [nrows; S T] ->
  mapM (output_name (split "," outBase) t T) (seq 0 T) = Some names ->
  (k <= T)%nat ->
  columns_pass r_recode_runs inputmap flag_a t mapset names k ->
  length names = T /\
  exists mapset',
    (forall nm, nm ∈ mapset' <-> nm ∈ mapset \/ nm ∈ take k names) /\
    main r_recode_runs inputmap outBase flag_a t mapset =
    (fst (create_recode_maps r_recode_runs (seq k (T - k)) T inputmap
            (split "," outBase) flag_a t mapset'),
     calls_from inputmap flag_a t 0 (take k names)
     ++ snd (create_recode_maps r_recode_runs (seq k (T - k)) T inputmap
               (split "," outBase) flag_a t mapset')).
Proof.
  intros Hshape Hnames Hk (Hnd & Hnew & Hok).
  apply mapM_Some in Hnames.
  assert (Hlen : length names = T).
  { apply Forall2_length in Hnames. rewrite length_seq in Hnames. lia. }
  split; [exact Hlen |].
  unfold main. rewrite Hshape.
  replace (S T - 1)%nat with T by lia. rewrite length_seq.
  rewrite <- Hlen in Hnames |- *.
  destruct (create_recode_maps_pass r_recode_runs inputmap
              (split "," outBase) flag_a t (length names) names 0 k mapset)
    as (mapset' & Hmem & Hgo); try assumption; [lia |].
  exists mapset'. split; [exact Hmem | exact Hgo].
Qed.

(** C3, as amended.  On a two-dimensional table with [T] target columns
    and the output names the script derives for them:
    - when the names are pairwise distinct, none of them is in the current
      mapset and every call of r.recode succeeds, r.recode.attr recodes
      the input exactly once per target column, through the rules
      [value:value:new_value] of that column; with as many given names as
      target columns the output of column [x] has the [x]-th given name,
      and otherwise it has the first given name, an underscore and the
      header of the column;
    - when the name of column [k] is the first that is in the current
      mapset, be it from the start or as the output of an earlier column,
      the run ends with the fatal message on that name, having recoded the
      columns before [k] and neither column [k] nor a later one;
    - when the call for column [k] is the first that fails, the run ends
      there with the error of that call, and no later column is
      recoded. *)
Theorem recode_attr_one_call_per_column (r_recode_runs : recode -> bool)
    (inputmap outBase : string)
    (flag_a : bool) (t : table) (mapset : gset string) (nrows T : nat)
    (names : list string) :
  shape t = [nrows; S T] ->
  mapM (output_name (split "," outBase) t T) (seq 0 T) = Some names ->
  (columns_pass r_recode_runs inputmap flag_a t mapset names T ->
   recodes_each_column r_recode_runs inputmap outBase flag_a t mapset T) /\
  (forall k nm,
     names !! k = Some nm ->
     columns_pass r_recode_runs inputmap flag_a t mapset names k ->
     nm ∈ mapset \/ nm ∈ take k names ->
     main r_recode_runs inputmap outBase flag_a t mapset =
     (Fatal ("The layer " +:+ nm +:+ " already exist in this mapset"),
      calls_from inputmap flag_a t 0 (take k names))) /\
  (forall k nm,
     names !! k = Some nm ->
     columns_pass r_recode_runs inputmap flag_a t mapset names k ->
     nm ∉ mapset -> nm ∉ take k names ->
     r_recode_runs (call_for inputmap flag_a t k nm) = false ->
     main r_recode_runs inputmap outBase flag_a t mapset =
     (Uncaught "CalledModuleError",
      calls_from inputmap flag_a t 0 (take k names)
      ++ [call_for inputmap flag_a t k nm])).
Proof.
  intros Hshape Hnames.
  pose proof (proj1 (mapM_Some _ _ _) Hnames) as Hall.
  assert (Hlen : length names = T).
  { apply Forall2_length in Hall. rewrite length_seq in Hall. lia. }
  assert (Hname : forall k nm, names !! k = Some nm ->
                    (k < T)%nat /\
                    output_name (split "," outBase) t T k = Some nm).
  { intros k nm Hk. pose proof (lookup_lt_Some _ _ _ Hk) as Hlt.
    split; [lia |].
    eapply (Forall2_lookup_lr _ _ _ k k nm) in Hall;
      [exact Hall | apply lookup_seq; split; [reflexivity | lia] | exact Hk]. }
  split; [| split].
  - intros Hpass.
    destruct (main_pass r_recode_runs inputmap outBase flag_a t mapset nrows
                T names T Hshape Hnames (Nat.le_refl T) Hpass)
      as (_ & mapset' & _ & Hmain).
    rewrite Nat.sub_diag in Hmain. cbn [seq create_recode_maps fst snd] in Hmain.
    rewrite app_nil_r, <- Hlen, firstn_all in Hmain.
    unfold recodes_each_column. rewrite Hmain. cbn [fst snd].
    unfold calls_from.
    assert (Hcall : forall x c,
               zip_with (call_for inputmap flag_a t)
                 (seq 0 (length names)) names !! x = Some c ->
               c = call_for inputmap flag_a t x (output c) /\
               output_name (split "," outBase) t T x = Some (output c)).
    { intros x c Hc. apply lookup_zip_with_Some in Hc.
      destruct Hc as (x' & nm & -> & Hx & Hnm).
      apply lookup_seq in Hx. destruct Hx as [-> Hlt]. cbn.
      split; [reflexivity |]. apply (Hname x nm Hnm). }
    split; [reflexivity |]. split.
    { rewrite length_zip_with, length_seq. lia. }
    split.
    { intros x c Hc. destruct (Hcall x c Hc) as [-> Hn]. cbn. auto. }
    split.
    + intros HT x c Hc. destruct (Hcall x c Hc) as [_ Hn].
      apply output_name_cases in Hn. apply Hn. exact HT.
    + intros HT x c Hc. destruct (Hcall x c Hc) as [_ Hn].
      apply output_name_cases in Hn. apply Hn. exact HT.
  - intros k nm Hk Hpass Hexists.
    destruct (Hname k nm Hk) as [Hlt Hout].
    destruct (main_pass r_recode_runs inputmap outBase flag_a t mapset nrows
                T names k Hshape Hnames (Nat.lt_le_incl _ _ Hlt) Hpass)
      as (_ & mapset' & Hmem & Hmain).
    rewrite Hmain.
    destruct (T - k)%nat as [| rest] eqn:Erest; [lia |].
    cbn [seq create_recode_maps]. rewrite Hout.
    rewrite bool_decide_eq_true_2 by (apply Hmem; exact Hexists).
    cbn [fst snd]. rewrite app_nil_r. reflexivity.
  - intros k nm Hk Hpass Hnew Hdistinct Hfails.
    destruct (Hname k nm Hk) as [Hlt Hout].
    destruct (main_pass r_recode_runs inputmap outBase flag_a t mapset nrows
                T names k Hshape Hnames (Nat.lt_le_incl _ _ Hlt) Hpass)
      as (_ & mapset' & Hmem & Hmain).
    rewrite Hmain.
    destruct (T - k)%nat as [| rest] eqn:Erest; [lia |].
    cbn [seq create_recode_maps]. rewrite Hout.
    rewrite bool_decide_eq_false_2
      by (intros H; apply Hmem in H; destruct H; contradiction).
    fold (call_for inputmap flag_a t k nm). rewrite Hfails.
    cbn [negb fst snd]. reflexivity.
Qed.

(** A table with the source column [value] and the targets [soil] and
    [cover]. *)
Definition landuse_table : table :=
  {| nmsData := ["value"; "soil"; "cover"];
     myData := [[1; 10; 100]; [2; 20; 200]; [3; 30; 300]]%Q |}.

(** An engine in which every call of r.recode succeeds. *)
Definition r_recode_succeeds (call : recode) : bool := true.

Lemma recode_attr_one_call_per_column_witness :
  recodes_each_column r_recode_succeeds "landuse" "a,b" false landuse_table
    ∅ 2 /\
  recodes_each_column r_recode_succeeds "landuse" "out" false landuse_table
    ∅ 2 /\
  main r_recode_succeeds "landuse" "a,b" false landuse_table {["b"]} =
    (Fatal "The layer b already exist in this mapset",
     [call_for "landuse" false landuse_table 0 "a"]).
Proof.
  split; [| split].
  - destruct (recode_attr_one_call_per_column r_recode_succeeds "landuse"
                "a,b" false landuse_table ∅ 3 2 ["a"; "b"])
      as (Hall & _ & _); [reflexivity | reflexivity |].
    apply Hall. split; [compute_done |].
    split; [set_solver | reflexivity].
  - destruct (recode_attr_one_call_per_column r_recode_succeeds "landuse"
                "out" false landuse_table ∅ 3 2 ["out_soil"; "out_cover"])
      as (Hall & _ & _); [reflexivity | reflexivity |].
    apply Hall. split; [compute_done |].
    split; [set_solver | reflexivity].
  - destruct (recode_attr_one_call_per_column r_recode_succeeds "landuse"
                "a,b" false landuse_table {["b"]} 3 2 ["a"; "b"])
      as (_ & Hfatal & _); [reflexivity | reflexivity |].
    apply (Hfatal 1%nat "b").
    + reflexivity.
    + split; [compute_done |]. split; [| reflexivity].
      intros nm Hnm. cbn in Hnm. apply list_elem_of_singleton in Hnm.
      subst nm. set_solver.
    + left. set_solver.
Defined.

(** C3 as stated fails when an output name is taken: with the layer [a]
    already in the mapset the script stops at the first column and recodes
    nothing. *)
Lemma recode_attr_existing_layer :
  main r_recode_succeeds "landuse" "a,b" false landuse_table {["a"]} =
    (Fatal "The layer a already exist in this mapset", []) /\
  ~ recodes_each_column r_recode_succeeds "landuse" "a,b" false
      landuse_table {["a"]} 2.
Proof.
  assert (H : main r_recode_succeeds "landuse" "a,b" false landuse_table
                {["a"]} =
              (Fatal "The layer a already exist in this mapset", []))
    by (vm_compute; reflexivity).
  split; [exact H |].
  unfold recodes_each_column. rewrite H. cbn. intros [Hdone _]. discriminate.
Qed.

End RecodeAttr.

(** ** v.boxplot: the selection of rows *)
Section BoxplotWhere.
Import Python VBoxplot.
Local Open Scope string_scope.
Local Open Scope list_scope.

Lemma append_truthy (a b : string) : truthy b = true -> truthy (a +:+ b) = true.
Proof.
  unfold truthy. destruct a as [| c a]; [intros H; exact H |].
  intros _. reflexivity.
Qed.

Lemma append_assoc (a b c : string) : (a +:+ b) +:+ c = a +:+ (b +:+ c).
Proof.
  induction a as [| x a IH]; [reflexivity |].
  change (String x ((a +:+ b) +:+ c) = String x (a +:+ (b +:+ c))).
  rewrite IH. reflexivity.
Qed.

(** The expression is never empty, so v.db.select always gets a [where]
    parameter, and that parameter ends with the test on the value column. *)
Lemma where_clause_always_given (vector where_option column : string)
    (cols : list string) :
  exists prefix,
    where_clause where_option column = prefix +:+ column +:+ " IS NOT NULL" /\
    (prefix = "" \/ prefix = where_option +:+ " AND ") /\
    where_ (get_data vector cols (where_clause where_option column)) =
    Some (where_clause where_option column).
Proof.
  assert (Ht : truthy (where_clause where_option column) = true).
  { unfold where_clause. destruct (truthy where_option).
    - apply append_truthy, append_truthy, append_truthy. reflexivity.
    - apply append_truthy. reflexivity. }
  unfold get_data. rewrite Ht. unfold where_clause.
  destruct (truthy where_option).
  - exists (where_option +:+ " AND "). split; [| auto].
    rewrite !append_assoc. reflexivity.
  - exists "". split; [reflexivity | auto].
Qed.

(** Three trees; the first two have no height. *)
Definition trees : list row :=
  [[("cat", Some "1"); ("height", None)];
   [("cat", Some "3"); ("height", None)];
   [("cat", Some "2"); ("height", Some "5.5")]].

Example where_absent_excludes_null :
  v_db_select (get_data "trees" ["height"] (where_clause "" "height")) trees =
  [[("cat", Some "2"); ("height", Some "5.5")]].
Proof. vm_compute. reflexivity. Qed.

Example where_and_excludes_null :
  v_db_select
    (get_data "trees" ["height"] (where_clause "cat = 1" "height")) trees = [].
Proof. vm_compute. reflexivity. Qed.

(** C10 on the failing run: the user's condition has a top-level [OR], the
    appended test joins its last alternative only, and the row of tree 1,
    whose height is NULL, is selected. *)
Theorem boxplot_where_or_selects_null :
  where_clause "cat = 1 OR cat = 2" "height" =
    "cat = 1 OR cat = 2 AND height IS NOT NULL" /\
  v_db_select
    (get_data "trees" ["height"]
       (where_clause "cat = 1 OR cat = 2" "height")) trees =
  [[("cat", Some "1"); ("height", None)];
   [("cat", Some "2"); ("height", Some "5.5")]].
Proof. split; vm_compute; reflexivity. Qed.

End BoxplotWhere.


(** ** v.boxplot: the order of the groups *)
Section BoxplotOrder.
Import Python VBoxplot.
Local Open Scope string_scope.
Local Open Scope list_scope.

(** Three groups with the medians 10, 30 and 20. *)
Definition three_groups : list (string * Q) :=
  [("group_A", 9); ("group_B", 30); ("group_C", 18); ("group_A", 10);
   ("group_C", 22); ("group_A", 14); ("group_B", 25); ("group_B", 41)]%Q.

Example three_groups_descending :
  grouped_boxplot three_groups ["group_C"; "group_A"; "group_B"] "descending"
  = Some [ {| label := "group_C"; data := [18; 22]%Q; position := 1 |};
           {| label := "group_A"; data := [9; 10; 14]%Q; position := 2 |};
           {| label := "group_B"; data := [30; 25; 41]%Q; position := 0 |} ].
Proof. vm_compute. reflexivity. Qed.

(** *** The stable sort *)

Section SortFacts.
Context {A : Type} (key : A -> Q).

Definition key_le (x y : A) : Prop := (key x <= key y)%Q.

Lemma insert_sorted_perm x l : Permutation (insert_sorted key x l) (x :: l).
Proof.
  induction l as [| y l IH]; cbn.
  - reflexivity.
  - destruct (Qle_bool (key x) (key y)).
    + reflexivity.
    + rewrite IH. apply perm_swap.
Qed.

Lemma stable_sort_perm l : Permutation (stable_sort key l) l.
Proof.
  induction l as [| x l IH]; cbn.
  - reflexivity.
  - rewrite insert_sorted_perm. constructor. exact IH.
Qed.

Lemma insert_sorted_sorted x l :
  StronglySorted key_le l -> StronglySorted key_le (insert_sorted key x l).
Proof.
  induction 1 as [| y l Hs IH Hall]; cbn.
  - repeat constructor.
  - destruct (Qle_bool (key x) (key y)) eqn:E.
    + apply Qle_bool_iff in E. constructor.
      * constructor; assumption.
      * constructor; [exact E |].
        eapply Forall_impl; [exact Hall |]. unfold key_le. cbn. intros. lra.
    + apply Qle_bool_false in E. constructor; [exact IH |].
      eapply Permutation_Forall; [symmetry; apply insert_sorted_perm |].
      constructor; [unfold key_le; lra | exact Hall].
Qed.

Lemma stable_sort_sorted l : StronglySorted key_le (stable_sort key l).
Proof.
  induction l as [| x l IH]; cbn.
  - constructor.
  - apply insert_sorted_sorted. exact IH.
Qed.

End SortFacts.

(** *** Facts on sorted lists *)

Lemma StronglySorted_refine {A} (R R' : A -> A -> Prop) (l : list A) :
  NoDup l ->
  (forall x y, In x l -> In y l -> x <> y -> R x y -> R' x y) ->
  StronglySorted R l -> StronglySorted R' l.
Proof.
  intros Hnd Himp Hs. induction Hs as [| x l Hs IH Hall].
  - constructor.
  - apply NoDup_cons in Hnd. destruct Hnd as [Hx Hnd]. constructor.
    + apply IH; [exact Hnd |]. intros a b Ha Hb. apply Himp; right; assumption.
    + apply Forall_forall. intros y Hy.
      rewrite Forall_forall in Hall.
      apply Himp; [left; reflexivity | right; apply list_elem_of_In; exact Hy | |].
      * intros ->. apply Hx. exact Hy.
      * apply Hall. exact Hy.
Qed.

Lemma StronglySorted_app {A} (R : A -> A -> Prop) (l1 l2 : list A) :
  StronglySorted R l1 -> StronglySorted R l2 ->
  (forall x y, In x l1 -> In y l2 -> R x y) ->
  StronglySorted R (l1 ++ l2).
Proof.
  intros H1 H2 H12. induction H1 as [| x l Hs IH Hall]; cbn.
  - exact H2.
  - constructor.
    + apply IH. intros a b Ha Hb. apply H12; [right; exact Ha | exact Hb].
    + apply Forall_app. split; [exact Hall |].
      apply Forall_forall. intros y Hy. apply H12; [left; reflexivity |].
      apply list_elem_of_In. exact Hy.
Qed.

Lemma StronglySorted_rev {A} (R : A -> A -> Prop) (l : list A) :
  StronglySorted R l -> StronglySorted (fun x y => R y x) (rev l).
Proof.
  induction 1 as [| x l Hs IH Hall]; cbn.
  - constructor.
  - apply StronglySorted_app; [exact IH | repeat constructor |].
    intros a b Ha [<- | []]. apply in_rev in Ha.
    rewrite Forall_forall in Hall. apply Hall. apply list_elem_of_In. exact Ha.
Qed.

(** A list has at most one arrangement sorted by an asymmetric relation. *)
Lemma sorted_unique {A} (R : A -> A -> Prop) :
  (forall x y, R x y -> R y x -> False) ->
  forall l1 l2, StronglySorted R l1 -> StronglySorted R l2 ->
                Permutation l1 l2 -> l1 = l2.
Proof.
  intros Hasym l1. induction l1 as [| x l1 IH]; intros l2 H1 H2 Hp.
  - apply Permutation_nil in Hp. symmetry. exact Hp.
  - destruct l2 as [| y l2];
      [symmetry in Hp; apply Permutation_nil in Hp; discriminate |].
    apply StronglySorted_inv in H1. destruct H1 as [H1 Hx].
    apply StronglySorted_inv in H2. destruct H2 as [H2 Hy].
    rewrite Forall_forall in Hx, Hy.
    assert (Exy : x = y).
    { assert (Hin1 : In x (y :: l2))
        by (eapply Permutation_in; [exact Hp | left; reflexivity]).
      assert (Hin2 : In y (x :: l1))
        by (eapply Permutation_in; [symmetry; exact Hp | left; reflexivity]).
      destruct Hin1 as [-> | Hin1]; [reflexivity |].
      destruct Hin2 as [-> | Hin2]; [reflexivity |].
      exfalso. apply (Hasym x y).
      - apply Hx. apply list_elem_of_In. exact Hin2.
      - apply Hy. apply list_elem_of_In. exact Hin1. }
    subst y. f_equal. apply IH; [exact H1 | exact H2 |].
    eapply Permutation_cons_inv. exact Hp.
Qed.

(** *** The dictionary of ranks *)

Lemma rank_dict_other sf : forall i (ii : gmap string nat) e,
  ~ In e sf -> rank_dict i sf ii !! e = ii !! e.
Proof.
  induction sf as [| x sf IH]; intros i ii e Hnot; cbn.
  - reflexivity.
  - rewrite IH by (intros H; apply Hnot; right; exact H).
    apply lookup_insert_ne. intros ->. apply Hnot. left. reflexivity.
Qed.

Lemma rank_dict_lookup sf : forall i (ii : gmap string nat) e,
  NoDup sf -> In e sf ->
  exists k, rank_dict i sf ii !! e = Some (i + k)%nat /\ sf !! k = Some e.
Proof.
  induction sf as [| x sf IH]; intros i ii e Hnd Hin; [destruct Hin |].
  apply NoDup_cons in Hnd. destruct Hnd as [Hx Hnd]. cbn.
  destruct (string_dec e x) as [-> | Hne].
  - exists 0%nat. split; [| reflexivity].
    rewrite rank_dict_other
      by (intros H; apply Hx; apply list_elem_of_In; exact H).
    rewrite lookup_insert_eq. f_equal. lia.
  - destruct Hin as [-> | Hin]; [contradiction |].
    destruct (IH (S i) (<[x := i]> ii) e Hnd Hin) as (k & Hk & Hsf).
    exists (S k). split; [| exact Hsf]. rewrite Hk. f_equal. lia.
Qed.

(** *** Drawing the boxes at their ranks *)

Definition median_of (df : list (string * Q)) (g : string) : Q :=
  np_median (group_data df g).

(** The boxes carry the groups of [uid] in that order, each with the
    values of its group and at the place the group has in [ranking]. *)
Definition placed_by (df : list (string * Q)) (uid ranking : list string)
    (boxes : list box) : Prop :=
  length boxes = length uid /\
  forall i b, boxes !! i = Some b ->
    uid !! i = Some (label b) /\
    data b = group_data df (label b) /\
    ranking !! position b = Some (label b).

Lemma omap_total {A B} (f : A -> option B) (l : list A) :
  (forall x, In x l -> is_Some (f x)) ->
  Forall2 (fun x y => f x = Some y) l (omap f l).
Proof.
  induction l as [| x l IH]; intros H; cbn.
  - constructor.
  - destruct (H x (or_introl eq_refl)) as [y Hy]. rewrite Hy. cbn.
    constructor; [exact Hy |]. apply IH. intros z Hz. apply H. right. exact Hz.
Qed.

Lemma draw_placed df uid sort ranking :
  uid <> [] ->
  order_boxes (map (fun m => (m, np_median (group_data df m))) uid) sort
    = Some ranking ->
  NoDup ranking -> (forall g, In g uid -> In g ranking) ->
  exists boxes,
    grouped_boxplot df uid sort = Some boxes /\
    placed_by df uid ranking boxes.
Proof.
  intros Hsome Horder Hnd Hall. unfold grouped_boxplot. rewrite Horder.
  cbv zeta. rewrite length_map.
  assert (Hdata : (length uid =? 0)%nat = false).
  { apply Nat.eqb_neq. destruct uid; [contradiction | discriminate]. }
  rewrite Hdata.
  set (ii := rank_dict 0 ranking ∅).
  assert (Hsfo : Forall2 (fun e k => ii !! e = Some k) uid
                   (omap (fun e => ii !! e) uid)).
  { apply omap_total. intros g Hg.
    destruct (rank_dict_lookup ranking 0 ∅ g Hnd (Hall g Hg)) as (k & Hk & _).
    exists (0 + k)%nat. exact Hk. }
  pose proof (Forall2_length _ _ _ Hsfo) as Hlen.
  rewrite <- Hlen, Nat.eqb_refl.
  eexists. split; [reflexivity |]. split.
  - rewrite length_zip_with, length_zip_with, length_map. lia.
  - intros i b Hb.
    apply lookup_zip_with_Some in Hb. destruct Hb as (md & k & -> & Hmd & Hk).
    apply lookup_zip_with_Some in Hmd.
    destruct Hmd as (g & d & -> & Hg & Hd). cbn.
    rewrite list_lookup_fmap, Hg in Hd. injection Hd as <-.
    split; [exact Hg |]. split; [reflexivity |].
    pose proof (Forall2_lookup_lr _ _ _ _ _ _ Hsfo Hg Hk) as Hii.
    assert (Hin : In g ranking).
    { apply Hall. apply list_elem_of_In. eapply list_elem_of_lookup_2. exact Hg. }
    destruct (rank_dict_lookup ranking 0 ∅ g Hnd Hin) as (k' & Hk' & Hrk).
    fold ii in Hk'. rewrite Hii in Hk'. injection Hk' as ->. exact Hrk.
Qed.

(** *** The groups by their medians *)

Definition by_median (df : list (string * Q)) (p q : string * Q) : Prop :=
  (median_of df (fst p) < median_of df (fst q))%Q.

Lemma sorted_by_median df uid l :
  NoDup uid ->
  (forall g h, In g uid -> In h uid -> g <> h ->
               ~ (median_of df g == median_of df h)%Q) ->
  Permutation l (map (fun m => (m, median_of df m)) uid) ->
  StronglySorted (by_median df) (stable_sort snd l).
Proof.
  intros Hnd Hdist Hperm.
  set (sf := map (fun m => (m, median_of df m)) uid) in *.
  assert (Hmem : forall p, In p (stable_sort snd l) ->
                   In (fst p) uid /\ snd p = median_of df (fst p)).
  { intros p Hp.
    assert (Hsf : In p sf).
    { eapply Permutation_in; [exact Hperm |].
      eapply Permutation_in; [apply stable_sort_perm | exact Hp]. }
    apply in_map_iff in Hsf. destruct Hsf as (m & <- & Hm). cbn. auto. }
  assert (Hnd' : NoDup (stable_sort snd l)).
  { rewrite stable_sort_perm, Hperm. unfold sf.
    assert (Hinj : Inj (=) (=) (fun m : string => (m, median_of df m)))
      by (intros a b [= ->]; reflexivity).
    exact (NoDup_fmap_2 _ uid Hnd). }
  eapply StronglySorted_refine; [exact Hnd' | | apply stable_sort_sorted].
  intros p q Hp Hq Hne Hle. unfold key_le in Hle. unfold by_median.
  destruct (Hmem p Hp) as [Hgp Hsp]. destruct (Hmem q Hq) as [Hgq Hsq].
  rewrite Hsp, Hsq in Hle.
  assert (Hg : fst p <> fst q).
  { intros E. apply Hne. destruct p, q. cbn in *. subst. reflexivity. }
  specialize (Hdist _ _ Hgp Hgq Hg). lra.
Qed.

(** The order asked for, on the groups with their medians. *)
Lemma order_boxes_descending sf :
  order_boxes sf "descending"
    = Some (map fst (rev (stable_sort snd (rev sf)))).
Proof. reflexivity. Qed.

Lemma order_boxes_ascending sf :
  order_boxes sf "ascending" = Some (map fst (stable_sort snd sf)).
Proof. reflexivity. Qed.

(** C6.  With a [group_by] column and pairwise distinct group medians,
    [order=descending] places the boxes by strictly decreasing median:
    when the selection is not empty there is a ranking of the groups,
    strictly decreasing in the median, and the box of every group sits at
    the place of the group in that ranking; with [order=ascending] the
    boxes sit at the places of the reversed ranking.  On an empty
    selection nothing is plotted: the plotting library raises an
    error. *)
Theorem boxplot_groups_ordered_by_median (df : list (string * Q))
    (uid : list string) :
  NoDup uid ->
  (forall g h, In g uid -> In h uid -> g <> h ->
               ~ (median_of df g == median_of df h)%Q) ->
  (uid <> [] ->
   exists ranking boxes_d boxes_a,
     Permutation ranking uid /\
     StronglySorted (fun g h => (median_of df h < median_of df g)%Q) ranking /\
     grouped_boxplot df uid "descending" = Some boxes_d /\
     placed_by df uid ranking boxes_d /\
     grouped_boxplot df uid "ascending" = Some boxes_a /\
     placed_by df uid (rev ranking) boxes_a) /\
  (uid = [] ->
   grouped_boxplot df uid "descending" = None /\
   grouped_boxplot df uid "ascending" = None).
Proof.
  intros Hnd Hdist. split; [| intros ->; split; reflexivity].
  intros Hsome.
  set (sf := map (fun m => (m, median_of df m)) uid).
  assert (Hasc : StronglySorted (by_median df) (stable_sort snd sf))
    by (apply sorted_by_median with (uid := uid); [assumption .. | reflexivity]).
  assert (Hasc' : StronglySorted (by_median df) (stable_sort snd (rev sf)))
    by (apply sorted_by_median with (uid := uid);
        [assumption .. | symmetry; apply Permutation_rev]).
  assert (Esort : stable_sort snd (rev sf) = stable_sort snd sf).
  { apply (sorted_unique (by_median df)); [| assumption | assumption |].
    - unfold by_median. intros p q H1 H2. lra.
    - rewrite !stable_sort_perm. symmetry. apply Permutation_rev. }
  assert (Hfst : map fst sf = uid).
  { unfold sf. rewrite map_map. cbn. apply map_id. }
  set (ranking := map fst (rev (stable_sort snd sf))).
  assert (Hperm : Permutation ranking uid).
  { transitivity (map fst sf); [| rewrite Hfst; reflexivity].
    unfold ranking. apply Permutation_map.
    rewrite <- Permutation_rev. apply stable_sort_perm. }
  assert (Hrank_nd : NoDup ranking) by (rewrite Hperm; exact Hnd).
  assert (Hrev : rev ranking = map fst (stable_sort snd sf)).
  { unfold ranking. rewrite map_rev, rev_involutive. reflexivity. }
  assert (Hin : forall g, In g uid -> In g ranking).
  { intros g Hg. eapply Permutation_in; [symmetry; exact Hperm | exact Hg]. }
  destruct (draw_placed df uid "descending" ranking Hsome)
    as (boxes_d & Hd & Hpd).
  { rewrite order_boxes_descending.
    change (Some (map fst (rev (stable_sort snd (rev sf)))) = Some ranking).
    rewrite Esort. reflexivity. }
  { exact Hrank_nd. }
  { exact Hin. }
  destruct (draw_placed df uid "ascending" (rev ranking) Hsome)
    as (boxes_a & Ha & Hpa).
  { rewrite order_boxes_ascending.
    change (Some (map fst (stable_sort snd sf)) = Some (rev ranking)).
    rewrite Hrev. reflexivity. }
  { rewrite <- Permutation_rev. exact Hrank_nd. }
  { intros g Hg. apply in_rev. rewrite rev_involutive. apply Hin. exact Hg. }
  exists ranking, boxes_d, boxes_a.
  split; [exact Hperm |]. split; [| auto].
  unfold ranking.
  apply StronglySorted_map with
    (R := fun p q => by_median df q p).
  - unfold by_median. intros p q H. exact H.
  - apply StronglySorted_rev. exact Hasc.
Qed.

(** The three groups with the medians 10, 30 and 20. *)
Lemma boxplot_groups_ordered_by_median_witness :
  exists ranking boxes_d boxes_a,
    Permutation ranking ["group_C"; "group_A"; "group_B"] /\
    StronglySorted
      (fun g h => (median_of three_groups h < median_of three_groups g)%Q)
      ranking /\
    grouped_boxplot three_groups ["group_C"; "group_A"; "group_B"]
      "descending" = Some boxes_d /\
    placed_by three_groups ["group_C"; "group_A"; "group_B"] ranking boxes_d /\
    grouped_boxplot three_groups ["group_C"; "group_A"; "group_B"]
      "ascending" = Some boxes_a /\
    placed_by three_groups ["group_C"; "group_A"; "group_B"] (rev ranking)
      boxes_a.
Proof.
  apply (boxplot_groups_ordered_by_median three_groups
           ["group_C"; "group_A"; "group_B"]).
  - compute_done.
  - intros g h Hg Hh Hne.
    destruct Hg as [<- | [<- | [<- | []]]];
      destruct Hh as [<- | [<- | [<- | []]]];
      try contradiction; vm_compute; discriminate.
  - discriminate.
Defined.

End BoxplotOrder.


(** ** Temporary names and the cleanup list *)
Section TemporaryNames.
Import Python Engine.
Local Open Scope string_scope.
Local Open Scope list_scope.

(** The names appended to the cleanup list, in order. *)
Definition appended (l : list event) : list string :=
  flat_map (fun ev => match ev with Append name => [name] | _ => [] end) l.

(** Whenever a command creates something under a name that has been
    generated as a temporary name, that name was appended to the cleanup
    list earlier in the log. *)
Definition registered_before_creation (l : list event) : Prop :=
  forall i module creates name,
    l !! i = Some (Command module creates) -> In name creates ->
    In (Generate name) (take i l) -> In (Append name) (take i l).

(** Between the steps of a script every generated name has been
    appended, and the cleanup list holds exactly the appended names. *)
Record tracked (st : state) : Prop := {
  tracked_order : registered_before_creation (log st);
  tracked_all : forall name, In (Generate name) (log st) ->
                             In (Append name) (log st);
  tracked_list : cleanup_list st = appended (log st)
}.

Definition keeps {A} (m : prog A) : Prop :=
  forall w st, tracked st -> tracked (fst (m w st)).

Lemma appended_app l1 l2 : appended (l1 ++ l2) = appended l1 ++ appended l2.
Proof. unfold appended. apply flat_map_app. Qed.

Lemma tracked_initial : tracked initial.
Proof.
  constructor; cbn.
  - intros i module creates name H. rewrite lookup_nil in H. discriminate.
  - intros name [].
  - reflexivity.
Qed.

(** The log grows by events that are not commands. *)
Lemma registered_quiet l ext :
  registered_before_creation l ->
  (forall module creates, ~ In (Command module creates) ext) ->
  registered_before_creation (l ++ ext).
Proof.
  intros Hl Hext i module creates name Hi Hin Hgen.
  destruct (Nat.lt_ge_cases i (length l)) as [Hlt | Hge].
  - rewrite lookup_app_l in Hi by exact Hlt.
    rewrite take_app_le in * by lia.
    eapply Hl; eassumption.
  - rewrite lookup_app_r in Hi by exact Hge.
    exfalso. apply (Hext module creates).
    apply list_elem_of_In. eapply list_elem_of_lookup_2. exact Hi.
Qed.

Lemma keeps_ret {A} (a : A) : keeps (ret a).
Proof. intros w st H. exact H. Qed.

Lemma keeps_bind {A B} (m : prog A) (k : A -> prog B) :
  keeps m -> (forall a, keeps (k a)) -> keeps (bind m k).
Proof.
  intros Hm Hk w st H. unfold bind. specialize (Hm w st H).
  destruct (m w st) as [st' [a |]]; cbn in *.
  - apply Hk. exact Hm.
  - exact Hm.
Qed.

Lemma keeps_for_each {A} (l : list A) (body : A -> prog unit) :
  (forall x, keeps (body x)) -> keeps (for_each l body).
Proof.
  intros Hb. induction l as [| x l IH]; cbn.
  - apply keeps_ret.
  - apply keeps_bind; [apply Hb | intros _; exact IH].
Qed.

Lemma keeps_when b (m : prog unit) : keeps m -> keeps (when b m).
Proof. intros H. destruct b; [exact H | apply keeps_ret]. Qed.

Lemma keeps_check : keeps check.
Proof. intros w st [H1 H2 H3]. constructor; assumption. Qed.

Lemma keeps_run_command module creates : keeps (run_command module creates).
Proof.
  intros w st [Horder Hall Hlist].
  constructor; cbn [run_command fst step record log cleanup_list].
  - intros i module' creates' name Hi Hin Hgen.
    destruct (Nat.lt_ge_cases i (length (log st))) as [Hlt | Hge].
    + rewrite lookup_app_l in Hi by exact Hlt.
      rewrite take_app_le in * by lia.
      eapply Horder; eassumption.
    + assert (i = length (log st)) as ->.
      { apply lookup_lt_Some in Hi. rewrite length_app in Hi. cbn in Hi. lia. }
      rewrite take_app_length in *. apply Hall. exact Hgen.
  - intros name Hgen. apply in_app_or in Hgen.
    destruct Hgen as [Hgen | [Hgen | []]]; [| discriminate].
    apply in_or_app. left. apply Hall. exact Hgen.
  - rewrite appended_app. cbn. rewrite app_nil_r. exact Hlist.
Qed.

(** A name is generated and appended in one go. *)
Lemma tracked_register st name n k :
  tracked st ->
  tracked {| cleanup_list := cleanup_list st ++ [name];
             log := (log st ++ [Generate name]) ++ [Append name];
             uuid_calls := n; steps := k |}.
Proof.
  intros [Horder Hall Hlist]. constructor; cbn [log cleanup_list].
  - rewrite <- app_assoc. apply registered_quiet; [exact Horder |].
    intros module creates [H | [H | []]]; discriminate.
  - intros name' Hgen. rewrite <- app_assoc in *.
    apply in_app_or in Hgen. apply in_or_app.
    destruct Hgen as [Hgen | [Hgen | [Hgen | []]]]; try discriminate.
    + left. apply Hall. exact Hgen.
    + injection Hgen as <-. right. right. left. reflexivity.
  - rewrite !appended_app. cbn. rewrite app_nil_r. rewrite Hlist. reflexivity.
Qed.

Lemma keeps_create_temporary_name prefix :
  keeps (RMess.create_temporary_name prefix).
Proof. intros w st H. cbn. apply tracked_register. exact H. Qed.

Lemma keeps_get_name keep basename :
  keeps (RHydroFlatten.get_name keep basename).
Proof.
  intros w st H. destruct keep; cbn.
  - exact H.
  - destruct st. apply (tracked_register _ _ _ _ H).
Qed.

Lemma keeps_get_tmp_name basename : keeps (RHydroFlatten.get_tmp_name basename).
Proof. intros w st H. cbn. destruct st. apply (tracked_register _ _ _ _ H). Qed.

(** Steps through the control structure of a script. *)
Ltac keeps_step :=
  match goal with
  | |- keeps (RMess.create_temporary_name _) => apply keeps_create_temporary_name
  | |- keeps (RHydroFlatten.get_name _ _) => apply keeps_get_name
  | |- keeps (run_command _ _) => apply keeps_run_command
  | |- keeps check => apply keeps_check
  | |- keeps (ret _) => apply keeps_ret
  | |- keeps (bind _ _) => apply keeps_bind; [| intros ?]
  | |- keeps (for_each _ _) => apply keeps_for_each; intros ?
  | |- keeps (when _ _) => apply keeps_when
  | |- keeps (if ?b then _ else _) => destruct b
  | |- keeps (match ?x with _ => _ end) => destruct x
  end.

Lemma keeps_compute_ies INipi INtmpf2 : keeps (RMess.compute_ies INipi INtmpf2).
Proof. unfold RMess.compute_ies. repeat keeps_step. Qed.

Lemma keeps_mess_main opts : keeps (RMess.main opts).
Proof.
  unfold RMess.main, RMess.recode_reference_vector_run,
    RMess.recode_reference_rasters_run.
  repeat match goal with
         | |- keeps (RMess.compute_ies _ _) => apply keeps_compute_ies
         | |- _ => keeps_step
         end.
Qed.

Lemma keeps_hydro_main opts : keeps (RHydroFlatten.main opts).
Proof. unfold RHydroFlatten.main. cbv zeta. repeat keeps_step. Qed.

Lemma appended_In name l : In (Append name) l -> In name (appended l).
Proof.
  intros H. unfold appended. apply in_flat_map.
  exists (Append name). split; [exact H | left; reflexivity].
Qed.

(** What holds of the state in which a run ends, early or not: every
    command that creates something under a temporary name generated before
    finds that name already appended to the cleanup list, and the cleanup
    list holds every temporary name generated during the run. *)
Definition cleanup_complete (st : state) : Prop :=
  registered_before_creation (log st) /\
  (forall name, In (Generate name) (log st) -> In name (cleanup_list st)) /\
  (forall i module creates name,
     log st !! i = Some (Command module creates) -> In name creates ->
     In (Generate name) (take i (log st)) -> In name (cleanup_list st)).

Lemma tracked_complete st : tracked st -> cleanup_complete st.
Proof.
  intros [Horder Hall Hlist].
  assert (Hgen : forall name, In (Generate name) (log st) ->
                              In name (cleanup_list st)).
  { intros name H. rewrite Hlist. apply appended_In, Hall, H. }
  split; [exact Horder |]. split; [exact Hgen |].
  intros i module creates name _ _ H. apply Hgen.
  rewrite <- (take_drop i (log st)). apply in_or_app. left. exact H.
Qed.

(** C4, as amended.  In r.mess and in r.hydro.flatten every generated
    temporary name is appended to the cleanup list before any engine
    command creates something under it, so that the list holds whatever
    may exist under a generated name, whatever the options and wherever
    the run ends: when a command fails, when a check of the script stops
    the run, or at the end of [main].  (With the flag [k] r.hydro.flatten
    generates no temporary names.) *)
Theorem temporary_names_registered_first (w : world) :
  (forall opts, cleanup_complete (fst (RMess.main opts w initial))) /\
  (forall opts, cleanup_complete (fst (RHydroFlatten.main opts w initial))).
Proof.
  split; intros opts; apply tracked_complete.
  - apply keeps_mess_main. apply tracked_initial.
  - apply keeps_hydro_main. apply tracked_initial.
Qed.

(** A lake without breaklines on node [host] in process 4711; the run
    ends when r.buffer fails. *)
Definition lake_options : RHydroFlatten.options :=
  {| RHydroFlatten.keep := false;
     RHydroFlatten.breaklines := "";
     RHydroFlatten.min_size := None;
     RHydroFlatten.water_elevation := "water";
     RHydroFlatten.water_elevation_stddev := "water_stddev";
     RHydroFlatten.filled_elevation := "" |}.

Definition failing_buffer : world :=
  {| uuid4_hex := fun _ => "0f3a"; node_pid := "host_4711";
     stops := fun k => (k =? 4)%nat |}.

Example lake_run_log :
  let st := fst (RHydroFlatten.main lake_options failing_buffer initial) in
  log st =
    [Command "g.region" []; Command "g.region" [];
     Generate "rfillstats_host_4711"; Append "rfillstats_host_4711";
     Command "r.fill.stats" ["rfillstats_host_4711"];
     Generate "holes_host_4711"; Append "holes_host_4711";
     Command "r.mapcalc" ["holes_host_4711"];
     Generate "buffer_host_4711"; Append "buffer_host_4711";
     Command "r.buffer" ["buffer_host_4711"]] /\
  cleanup_list st =
    ["rfillstats_host_4711"; "holes_host_4711"; "buffer_host_4711"].
Proof. vm_compute. split; reflexivity. Qed.

Lemma temporary_names_registered_first_witness :
  In "buffer_host_4711"
    (cleanup_list (fst (RHydroFlatten.main lake_options failing_buffer initial))).
Proof.
  destruct (temporary_names_registered_first failing_buffer) as [_ Hhydro].
  destruct (Hhydro lake_options) as (_ & _ & Hcreated).
  apply (Hcreated 10%nat "r.buffer" ["buffer_host_4711"]).
  - vm_compute. reflexivity.
  - left. reflexivity.
  - vm_compute. tauto.
Defined.

(** *** The raster MASK of r.mess *)

(** What a run makes for its own use only: what it creates under a
    generated name, and the raster MASK, which r.mess sets when a
    reference raster is given (it refuses to start when there is a MASK
    already) and takes away again. *)
Definition temporary_artifact (l : list event) (name : string) : Prop :=
  In (Generate name) l \/ name = "MASK".

(** C4 as stated: the cleanup list holds every temporary artifact that a
    command of the run has created. *)
Definition every_artifact_listed (st : state) : Prop :=
  forall module creates name,
    In (Command module creates) (log st) -> In name creates ->
    temporary_artifact (log st) name -> In name (cleanup_list st).

(** One variable, and a reference raster to mask the reference area. *)
Definition masked_options : RMess.options :=
  {| RMess.ref_env := "bio1"; RMess.ref_rast := "reserve";
     RMess.ref_vect := ""; RMess.ref_region := ""; RMess.proj_env := "";
     RMess.proj_region := ""; RMess.output_base := "mess";
     RMess.flag_m := false; RMess.flag_n := false; RMess.flag_k := false;
     RMess.flag_c := false; RMess.flag_i := false |}.

(** The run ends when r.mapcalc fails on the first variable, the mask
    being set. *)
Definition failing_mapcalc : world :=
  {| uuid4_hex := fun n => match n with
                           | 0 => "a0" | 1 => "a1" | 2 => "a2" | _ => "a3"
                           end%nat;
     node_pid := "host_4711";
     stops := fun k => (k =? 12)%nat |}.

Example masked_run_log :
  let run := RMess.main masked_options failing_mapcalc initial in
  snd run = None /\
  log (fst run) =
    [Generate "tmpreg1a0"; Append "tmpreg1a0";
     Command "g.region" []; Command "g.region" ["tmpreg1a0"];
     Generate "tmpreg2a1"; Append "tmpreg2a1";
     Command "g.region" []; Command "g.region" ["tmpreg2a1"];
     Command "g.region" []; Command "r.mask" ["MASK"];
     Generate "tmpmsk1a2"; Append "tmpmsk1a2";
     Command "g.rename" ["tmpmsk1a2"]; Command "g.region" [];
     Command "g.rename" ["MASK"]; Generate "tmp4a3"; Append "tmp4a3";
     Command "r.mapcalc" ["tmp4a3"]] /\
  cleanup_list (fst run) = ["tmpreg1a0"; "tmpreg2a1"; "tmpmsk1a2"; "tmp4a3"].
Proof. vm_compute. repeat split; reflexivity. Qed.

(** C4 as stated fails on r.mess: in this run the raster MASK has been
    set, by r.mask and again by g.rename, and the run ends with MASK in
    place; MASK is not in the cleanup list, and the exit-time callback
    does not remove it. *)
Lemma mess_mask_outside_cleanup_list :
  let st := fst (RMess.main masked_options failing_mapcalc initial) in
  In (Command "g.rename" ["MASK"]) (log st) /\
  ~ In "MASK" (cleanup_list st) /\
  ~ In "MASK" (RMess.cleanup (cleanup_list st)) /\
  ~ every_artifact_listed st.
Proof.
  cbv zeta. destruct masked_run_log as (_ & Hlog & Hlist).
  assert (Hmask : In (Command "g.rename" ["MASK"])
                    (log (fst (RMess.main masked_options failing_mapcalc
                                 initial)))).
  { rewrite Hlog. cbn. tauto. }
  assert (Hnot : ~ In "MASK"
                   (cleanup_list (fst (RMess.main masked_options
                                         failing_mapcalc initial)))).
  { rewrite Hlist. cbn. intros H.
    repeat (destruct H as [H | H]; [discriminate |]). exact H. }
  split; [exact Hmask |]. split; [exact Hnot |]. split.
  - rewrite Hlist. cbn. intros H.
    repeat (destruct H as [H | H]; [discriminate |]). exact H.
  - intros Hall. apply Hnot.
    apply (Hall "g.rename" ["MASK"] "MASK" Hmask).
    + left. reflexivity.
    + right. reflexivity.
Qed.

End TemporaryNames.

(* ===================================================================== *)
(** * Part III: further properties of the scripts                         *)
(* ===================================================================== *)

(** ** r.mess: the recoded percentile is the empirical distribution *)
Section MessDistribution.
Import RMess.
Local Open Scope Z_scope.

(** The number of reference cells with a value of at most [v]. *)
Definition count_le (table : list (Z * Z)) (v : Z) : Z :=
  np_sum (map snd (List.filter (fun r => fst r <=? v) table)).

(** The share of the reference cells with a value of at most [v], in
    percent. *)
Definition percent_le (table : list (Z * Z)) (v : Z) : Q :=
  (inject_Z (count_le table v) / inject_Z (np_sum (map snd table)) * 100)%Q.

(** The rule table over a frequency table with the outer edges [e1] and
    [e2], as both recode functions build it. *)
Definition table_rules (table : list (Z * Z)) (e1 e2 : Z) : list rule :=
  write_rules (e1 :: map fst table)
    (map (fun x => x - 1) (map fst table) ++ [e2])
    (0%Q :: cumulative_percent (map snd table)).

Lemma filter_above (table : list (Z * Z)) v x :
  Sorted Z.lt (x :: map fst table) -> v < x ->
  List.filter (fun r => fst r <=? v) table = [].
Proof.
  intros Hs Hv. apply Sorted_StronglySorted in Hs; [| intros a b c; lia].
  apply StronglySorted_inv in Hs. destruct Hs as [_ Hall].
  induction table as [| [y c] table IH]; [reflexivity |].
  cbn in *. pose proof (Forall_inv Hall) as Hy. cbn in Hy.
  replace (y <=? v) with false by (symmetry; apply Z.leb_gt; lia).
  apply IH. apply Forall_inv_tail in Hall. exact Hall.
Qed.

Lemma write_rules_cons x a1 y a2 z b1 :
  write_rules (x :: a1) (y :: a2) (z :: b1) =
  Rule x y z :: write_rules a1 a2 b1.
Proof. reflexivity. Qed.

Lemma r_recode_cumulative (b : Z) (table : list (Z * Z)) :
  forall e e2 z acc v,
    Sorted Z.lt (e :: map fst table) -> e <= v <= e2 ->
    r_recode
      (write_rules (e :: map fst table)
         (map (fun x => x - 1) (map fst table) ++ [e2])
         (z :: map (fun x => inject_Z x / inject_Z b * 100)%Q
                 (cumsum_from acc (map snd table)))) v =
    Some (match List.filter (fun r => fst r <=? v) table with
          | [] => z
          | _ => (inject_Z (acc + count_le table v) / inject_Z b * 100)%Q
          end).
Proof.
  induction table as [| [v0 c0] rest IH]; intros e e2 z acc v Hs Hv.
  - cbn.
    replace (e <=? v) with true by (symmetry; apply Z.leb_le; lia).
    replace (v <=? e2) with true by (symmetry; apply Z.leb_le; lia).
    reflexivity.
  - cbn [map fst snd] in Hs.
    apply Sorted_inv in Hs. destruct Hs as [Hs Hd]. apply HdRel_inv in Hd.
    cbn [map fst snd cumsum_from app].
    rewrite write_rules_cons.
    cbn [r_recode lower upper output List.filter fst].
    destruct (Z_le_gt_dec v0 v) as [Hge | Hlt].
    + replace (v <=? v0 - 1) with false by (symmetry; apply Z.leb_gt; lia).
      rewrite andb_false_r.
      rewrite (IH v0 e2 _ (acc + c0) v Hs) by lia.
      replace (v0 <=? v) with true by (symmetry; apply Z.leb_le; lia).
      assert (Hc : count_le ((v0, c0) :: rest) v = c0 + count_le rest v).
      { unfold count_le. cbn [List.filter fst].
        replace (v0 <=? v) with true by (symmetry; apply Z.leb_le; lia).
        reflexivity. }
      rewrite Hc.
      destruct (List.filter (fun r => fst r <=? v) rest) as [| r rs] eqn:E.
      * unfold count_le. rewrite E. cbn [map np_sum fold_right].
        rewrite Z.add_0_r. reflexivity.
      * rewrite Z.add_assoc. reflexivity.
    + replace (e <=? v) with true by (symmetry; apply Z.leb_le; lia).
      replace (v <=? v0 - 1) with true by (symmetry; apply Z.leb_le; lia).
      replace (v0 <=? v) with false by (symmetry; apply Z.leb_gt; lia).
      rewrite (filter_above rest v v0 Hs) by lia. reflexivity.
Qed.

Lemma table_rules_percent table e1 e2 v :
  Sorted Z.lt (e1 :: map fst table) -> e1 <= v <= e2 ->
  cell_is (r_recode (table_rules table e1 e2) v) (percent_le table v).
Proof.
  intros Hs Hv. unfold table_rules, cumulative_percent, np_cumsum.
  rewrite r_recode_cumulative by assumption.
  eexists. split; [reflexivity |]. unfold percent_le.
  destruct (List.filter (fun r => fst r <=? v) table) eqn:E.
  - unfold count_le. rewrite E. cbn. unfold Qdiv. ring.
  - rewrite Z.add_0_l. reflexivity.
Qed.

Lemma sorted_below e vals :
  Sorted Z.lt vals -> Forall (fun v => e < v) vals -> Sorted Z.lt (e :: vals).
Proof.
  intros Hs Hall. constructor; [exact Hs |].
  destruct vals; constructor. apply Forall_inv in Hall. exact Hall.
Qed.

Lemma map_fst_combine {A B} (l : list A) (k : list B) :
  length l = length k -> map fst (combine l k) = l.
Proof.
  revert k. induction l as [| x l IH]; intros [| y k] H; try discriminate;
    [reflexivity |].
  cbn. f_equal. apply IH. cbn in H. lia.
Qed.

Lemma map_snd_combine {A B} (l : list A) (k : list B) :
  length l = length k -> map snd (combine l k) = k.
Proof.
  revert k. induction l as [| x l IH]; intros [| y k] H; try discriminate;
    [reflexivity |].
  cbn. f_equal. apply IH. cbn in H. lia.
Qed.

Lemma mess_percentile_is_distribution_core sstval Dmin Dmax rules envmin
    envmax v :
  Sorted Z.lt (map fst sstval) ->
  recode_reference_rasters sstval Dmin Dmax = Some rules ->
  np_min (map fst sstval) = Some envmin ->
  np_max (map fst sstval) = Some envmax ->
  lower_edge Dmin envmin <= v <= upper_edge Dmax envmax ->
  cell_is (r_recode rules v) (percent_le sstval v).
Proof.
  intros Hs Hrules Hmin Hmax Hv.
  assert (Hr : rules = table_rules sstval (lower_edge Dmin envmin)
                         (upper_edge Dmax envmax)).
  { unfold recode_reference_rasters in Hrules. rewrite Hmin, Hmax in Hrules.
    cbv zeta in Hrules. unfold table_rules. congruence. }
  rewrite Hr. apply table_rules_percent; [| exact Hv].
  apply sorted_below; [exact Hs |].
  destruct (lower_edge_spec Dmin envmin) as [_ He].
  eapply Forall_impl; [apply np_min_le; exact Hmin |]. cbn. intros. lia.
Qed.

(** X1.  The percentile that the rule table of r.mess assigns to a value
    [v] between its outer edges is the share, in percent, of the reference
    cells (or reference points) whose value is at most [v]: the recoded
    layer is the empirical cumulative distribution of the reference
    sample.  This holds for the table from raster statistics and for the
    table from point samples (over the scaled integer values). *)
Theorem mess_percentile_is_distribution (Dmin Dmax : Z) :
  (forall sstval rules envmin envmax v,
     Sorted Z.lt (map fst sstval) ->
     Forall (fun c => 0 < c) (map snd sstval) ->
     recode_reference_rasters sstval Dmin Dmax = Some rules ->
     np_min (map fst sstval) = Some envmin ->
     np_max (map fst sstval) = Some envmax ->
     lower_edge Dmin envmin <= v <= upper_edge Dmax envmax ->
     cell_is (r_recode rules v) (percent_le sstval v)) /\
  (forall volval digits2 rules mn mx v,
     0 < digits2 ->
     Sorted Z.lt (scaled volval digits2) ->
     Forall (fun c => 0 < c) (map snd volval) ->
     recode_reference_vector volval digits2 Dmin Dmax = Some rules ->
     py_min (map fst volval) = Some mn ->
     py_max (map fst volval) = Some mx ->
     lower_edge Dmin (py_int (mn * inject_Z digits2)) <= v
       <= upper_edge Dmax (py_int (mx * inject_Z digits2)) ->
     cell_is (r_recode rules v)
       (percent_le (combine (scaled volval digits2) (map snd volval)) v)).
Proof.
  split.
  - intros sstval rules envmin envmax v Hs _ Hrules Hmin Hmax Hv.
    eapply mess_percentile_is_distribution_core; eassumption.
  - intros volval digits2 rules mn mx v Hd Hs _ Hrules Hmin Hmax Hv.
    assert (Hlen : length (scaled volval digits2) = length (map snd volval))
      by (unfold scaled; rewrite !length_map; reflexivity).
    assert (Hr : rules =
                 table_rules (combine (scaled volval digits2) (map snd volval))
                   (lower_edge Dmin (py_int (mn * inject_Z digits2)))
                   (upper_edge Dmax (py_int (mx * inject_Z digits2)))).
    { unfold recode_reference_vector in Hrules. rewrite Hmin, Hmax in Hrules.
      cbv zeta in Hrules. unfold table_rules.
      rewrite map_fst_combine, map_snd_combine by exact Hlen. congruence. }
    rewrite Hr. apply table_rules_percent; [| exact Hv].
    rewrite map_fst_combine by exact Hlen.
    apply sorted_below; [exact Hs |].
    destruct (lower_edge_spec Dmin (py_int (mn * inject_Z digits2)))
      as [_ He].
    eapply Forall_impl; [apply scaled_min_le; eassumption |].
    cbn. intros. lia.
Qed.

(** The raster with the values 1..4, at the value 3: three of the four
    cells are at most 3. *)
Lemma mess_percentile_is_distribution_witness :
  cell_is
    (r_recode
       [Rule (-1) 0 0; Rule 1 1 (100 # 4); Rule 2 2 (200 # 4);
        Rule 3 3 (300 # 4); Rule 4 10 (400 # 4)] 3)
    (percent_le [(1, 1); (2, 1); (3, 1); (4, 1)] 3).
Proof.
  destruct (mess_percentile_is_distribution 0 9) as [Hraster _].
  apply (Hraster [(1, 1); (2, 1); (3, 1); (4, 1)] _ 1 4 3).
  - repeat constructor.
  - repeat constructor.
  - reflexivity.
  - reflexivity.
  - reflexivity.
  - cbn. lia.
Defined.

End MessDistribution.

(** ** r.mess: the sign of the similarity *)
Section MessSign.
Import RMess.
Local Open Scope Z_scope.

Lemma fold_min_In rest : forall x, In (fold_left Z.min rest x) (x :: rest).
Proof.
  induction rest as [| y rest IH]; intros x; cbn; [auto |].
  destruct (IH (Z.min x y)) as [H | H].
  - destruct (Z.min_spec x y) as [[_ E] | [_ E]]; rewrite E in H at 1; auto.
  - auto.
Qed.

Lemma fold_max_In rest : forall x, In (fold_left Z.max rest x) (x :: rest).
Proof.
  induction rest as [| y rest IH]; intros x; cbn; [auto |].
  destruct (IH (Z.max x y)) as [H | H].
  - destruct (Z.max_spec x y) as [[_ E] | [_ E]]; rewrite E in H at 1; auto.
  - auto.
Qed.

Lemma np_min_In vals m : np_min vals = Some m -> In m vals.
Proof.
  destruct vals as [| x rest]; cbn; [discriminate |].
  intros [= <-]. apply fold_min_In.
Qed.

Lemma np_max_In vals m : np_max vals = Some m -> In m vals.
Proof.
  destruct vals as [| x rest]; cbn; [discriminate |].
  intros [= <-]. apply fold_max_In.
Qed.

Lemma count_le_cons x c table v :
  count_le ((x, c) :: table) v =
  if x <=? v then c + count_le table v else count_le table v.
Proof. unfold count_le. cbn. destruct (x <=? v); reflexivity. Qed.

Lemma np_sum_cons x l : np_sum (x :: l) = x + np_sum l.
Proof. reflexivity. Qed.

Lemma count_le_nonneg table v :
  Forall (fun c => 0 < c) (map snd table) -> 0 <= count_le table v.
Proof.
  induction table as [| [x c] table IH]; intros Hpos.
  - unfold count_le. cbn. lia.
  - pose proof (Forall_inv Hpos) as Hc. cbn in Hc.
    specialize (IH (Forall_inv_tail Hpos)).
    rewrite count_le_cons. destruct (x <=? v); lia.
Qed.

Lemma count_le_at_least table v x :
  Forall (fun c => 0 < c) (map snd table) ->
  In x (map fst table) -> x <= v -> 0 < count_le table v.
Proof.
  induction table as [| [y c] table IH]; intros Hpos Hin Hv;
    [destruct Hin |].
  pose proof (Forall_inv Hpos) as Hc. cbn in Hc.
  pose proof (count_le_nonneg table v (Forall_inv_tail Hpos)) as Hnn.
  rewrite count_le_cons.
  destruct Hin as [E | Hin].
  - cbn in E. subst y.
    replace (x <=? v) with true by (symmetry; apply Z.leb_le; lia). lia.
  - specialize (IH (Forall_inv_tail Hpos) Hin Hv).
    destruct (y <=? v); lia.
Qed.

Lemma count_le_at_most table v :
  Forall (fun c => 0 < c) (map snd table) ->
  count_le table v <= np_sum (map snd table).
Proof.
  induction table as [| [y c] table IH]; intros Hpos.
  - unfold count_le. cbn. lia.
  - pose proof (Forall_inv Hpos) as Hc. cbn in Hc.
    specialize (IH (Forall_inv_tail Hpos)).
    rewrite count_le_cons. cbn [map snd]. rewrite np_sum_cons.
    destruct (y <=? v); lia.
Qed.

Lemma count_le_less table v x :
  Forall (fun c => 0 < c) (map snd table) ->
  In x (map fst table) -> v < x -> count_le table v < np_sum (map snd table).
Proof.
  induction table as [| [y c] table IH]; intros Hpos Hin Hv; [destruct Hin |].
  pose proof (Forall_inv Hpos) as Hc. cbn in Hc.
  pose proof (count_le_at_most table v (Forall_inv_tail Hpos)) as Hm.
  rewrite count_le_cons. cbn [map snd]. rewrite np_sum_cons.
  destruct Hin as [E | Hin].
  - cbn in E. subst y.
    replace (x <=? v) with false by (symmetry; apply Z.leb_gt; lia). lia.
  - specialize (IH (Forall_inv_tail Hpos) Hin Hv).
    destruct (y <=? v); lia.
Qed.

Lemma percent_between (a b : Z) :
  0 < a -> a < b ->
  (0 < inject_Z a / inject_Z b * 100 /\ inject_Z a / inject_Z b * 100 < 100)%Q.
Proof.
  intros Ha Hab.
  assert (Hb : (0 < inject_Z b)%Q)
    by (change 0%Q with (inject_Z 0); rewrite <- Zlt_Qlt; lia).
  assert (Ha' : (0 < inject_Z a)%Q)
    by (change 0%Q with (inject_Z 0); rewrite <- Zlt_Qlt; lia).
  assert (Hab' : (inject_Z a < inject_Z b)%Q) by (rewrite <- Zlt_Qlt; lia).
  assert (Hi : (0 < / inject_Z b)%Q) by (apply Qinv_lt_0_compat; exact Hb).
  assert (Hone : (inject_Z b * / inject_Z b == 1)%Q)
    by (apply Qmult_inv_r; lra).
  unfold Qdiv. set (t := (/ inject_Z b)%Q) in *.
  assert (H1 : (0 < inject_Z a * t)%Q) by (apply Qmult_lt_0_compat; assumption).
  assert (H2 : (inject_Z a * t < inject_Z b * t)%Q)
    by (apply Qmult_lt_compat_r; assumption).
  split; lra.
Qed.

Lemma extrapolation_sign (x lo hi : Q) :
  (lo < hi)%Q ->
  ((x < 0 -> x / (hi - lo) * 100 < 0) /\
   (0 <= x -> 0 <= x / (hi - lo) * 100))%Q.
Proof.
  intros Hlt.
  assert (Hi : (0 < / (hi - lo))%Q) by (apply Qinv_lt_0_compat; lra).
  unfold Qdiv. set (t := (/ (hi - lo))%Q) in *. split; intros Hx.
  - assert ((x * t < 0 * t)%Q) by (apply Qmult_lt_compat_r; assumption). lra.
  - assert ((0 * t <= x * t)%Q) by (apply Qmult_le_compat_r; lra). lra.
Qed.

(** X2.  For a reference raster with at least two distinct values, the
    similarity of a cell is negative exactly when the value of the cell
    lies outside the observed range [[envmin, envmax]] of the reference
    sample, and it never exceeds 100. *)
Theorem mess_similarity_sign (Dmin Dmax : Z) (sstval : list (Z * Z))
    (rules : list rule) (envmin envmax v : Z) :
  Sorted Z.lt (map fst sstval) ->
  Forall (fun c => 0 < c) (map snd sstval) ->
  recode_reference_rasters sstval Dmin Dmax = Some rules ->
  np_min (map fst sstval) = Some envmin ->
  np_max (map fst sstval) = Some envmax ->
  envmin < envmax ->
  lower_edge Dmin envmin <= v <= upper_edge Dmax envmax ->
  exists r,
    ies_cell rules envmin envmax v = Some r /\
    ((r < 0)%Q <-> v < envmin \/ envmax < v) /\
    (r <= 100)%Q.
Proof.
  intros Hs Hpos Hrules Hmin Hmax Hlt Hv.
  assert (HltQ : (inject_Z envmin < inject_Z envmax)%Q)
    by (rewrite <- Zlt_Qlt; exact Hlt).
  destruct (mess_cells_outside_range sstval Dmin Dmax rules envmin envmax
              Hs Hpos Hrules Hmin Hmax Hlt) as [Hbelow Habove].
  unfold ies_cell.
  destruct (Z_lt_ge_dec v envmin) as [Hlow | Hge].
  - rewrite Hbelow by lia. eexists. split; [reflexivity |].
    destruct (extrapolation_sign (inject_Z v - inject_Z envmin)
                (inject_Z envmin) (inject_Z envmax) HltQ) as [Hneg _].
    assert ((inject_Z v < inject_Z envmin)%Q) by (rewrite <- Zlt_Qlt; lia).
    assert (Hr : (((inject_Z v - inject_Z envmin)
                   / (inject_Z envmax - inject_Z envmin) * 100) < 0)%Q)
      by (apply Hneg; lra).
    split; [split; [intros _; left; exact Hlow | intros _; exact Hr] | lra].
  - destruct (Z_le_gt_dec envmax v) as [Hhigh | Hin].
    + rewrite Habove by lia. eexists. split; [reflexivity |].
      destruct (extrapolation_sign (inject_Z envmax - inject_Z v)
                  (inject_Z envmin) (inject_Z envmax) HltQ) as [Hneg Hpos'].
      assert ((inject_Z envmax <= inject_Z v)%Q) by (rewrite <- Zle_Qle; lia).
      split; [split |].
      * intros Hr. right.
        destruct (Z.eq_dec v envmax) as [-> | Hne]; [| lia].
        exfalso.
        assert ((0 <= (inject_Z envmax - inject_Z envmax)
                      / (inject_Z envmax - inject_Z envmin) * 100)%Q)
          by (apply Hpos'; lra).
        lra.
      * intros [Hc | Hc]; [lia |]. apply Hneg.
        assert ((inject_Z envmax < inject_Z v)%Q) by (rewrite <- Zlt_Qlt; lia).
        lra.
      * destruct (Z.eq_dec v envmax) as [-> | Hne].
        -- assert (((inject_Z envmax - inject_Z envmax)
                    / (inject_Z envmax - inject_Z envmin) * 100 == 0)%Q)
             by (field; lra).
           lra.
        -- assert ((inject_Z envmax < inject_Z v)%Q)
             by (rewrite <- Zlt_Qlt; lia).
           assert (((inject_Z envmax - inject_Z v)
                    / (inject_Z envmax - inject_Z envmin) * 100 < 0)%Q)
             by (apply Hneg; lra).
           lra.
    + destruct (mess_percentile_is_distribution_core sstval Dmin Dmax rules
                  envmin envmax v Hs Hrules Hmin Hmax Hv) as (p & Hp & Epq).
      rewrite Hp.
      assert (Hcount : 0 < count_le sstval v < np_sum (map snd sstval)).
      { split.
        - apply count_le_at_least with (x := envmin);
            [exact Hpos | apply np_min_In; exact Hmin | lia].
        - apply count_le_less with (x := envmax);
            [exact Hpos | apply np_max_In; exact Hmax | lia]. }
      destruct (percent_between _ _ (proj1 Hcount) (proj2 Hcount))
        as [Hp0 Hp100].
      unfold percent_le in Epq.
      destruct (Qlt_le_dec 50 p) as [H50 | H50].
      * rewrite calcc_high by lra. eexists. split; [reflexivity |].
        split; [split; [intros; lra | intros [|]; lia] | lra].
      * rewrite calcc_low by lra. eexists. split; [reflexivity |].
        split; [split; [intros; lra | intros [|]; lia] | lra].
Qed.

(** The raster with the values 1..4, at the value 3. *)
Lemma mess_similarity_sign_witness :
  exists r,
    ies_cell
      [Rule (-1) 0 0; Rule 1 1 (100 # 4); Rule 2 2 (200 # 4);
       Rule 3 3 (300 # 4); Rule 4 10 (400 # 4)] 1 4 3 = Some r /\
    ((r < 0)%Q <-> 3 < 1 \/ 4 < 3) /\
    (r <= 100)%Q.
Proof.
  apply (mess_similarity_sign 0 9 [(1, 1); (2, 1); (3, 1); (4, 1)] _ 1 4 3).
  - repeat constructor.
  - repeat constructor.
  - reflexivity.
  - reflexivity.
  - reflexivity.
  - lia.
  - cbn. lia.
Defined.

End MessSign.

(** ** r.mess: the layer of novel conditions *)
Section MessNovel.
Import RMess.
Local Open Scope Q_scope.

Lemma r_series_minimum_null cells :
  r_series_minimum cells = None <-> (forall c, In c cells -> c = None).
Proof.
  induction cells as [| c rest IH]; cbn.
  - split; [intros _ c [] | reflexivity].
  - destruct c as [x |].
    + split.
      * destruct (r_series_minimum rest); discriminate.
      * intros H. specialize (H (Some x) (or_introl eq_refl)). discriminate.
    + rewrite IH. split.
      * intros H c [<- | Hc]; [reflexivity | apply H, Hc].
      * intros H c Hc. apply H. right. exact Hc.
Qed.

Lemma r_series_minimum_least cells m :
  r_series_minimum cells = Some m ->
  In (Some m) cells /\ (forall x, In (Some x) cells -> m <= x).
Proof.
  revert m. induction cells as [| c rest IH]; intros m; cbn; [discriminate |].
  destruct c as [x |].
  - destruct (r_series_minimum rest) as [y |] eqn:E.
    + destruct (IH y eq_refl) as [Hin Hle].
      destruct (Qle_bool x y) eqn:Exy; intros [= <-].
      * apply Qle_bool_iff in Exy. split; [left; reflexivity |].
        intros z [[= <-] | Hz]; [lra |].
        specialize (Hle z Hz). lra.
      * apply Qle_bool_false in Exy. split; [right; exact Hin |].
        intros z [[= <-] | Hz]; [lra | apply Hle, Hz].
    + intros [= <-]. split; [left; reflexivity |].
      intros z [[= <-] | Hz]; [lra |].
      apply r_series_minimum_null with (c := Some z) in E; [discriminate | exact Hz].
  - intros H. destruct (IH m H) as [Hin Hle].
    split; [right; exact Hin |].
    intros z [Hz | Hz]; [discriminate | apply Hle, Hz].
Qed.

Lemma mod1_value m :
  mod1 (Some m) = Some (if Qlt_bool m 0 then 1 else 0).
Proof.
  unfold mod1, mc_lt, mc_test, mc_if. destruct (Qlt_bool m 0); reflexivity.
Qed.

(** X3.  With the flag [n], a cell of the layer of novel conditions is 1
    exactly when at least one of the IES layers is negative there, 0
    exactly when some IES layer has a value there and none is negative,
    and NULL exactly when every IES layer is NULL there. *)
Theorem mess_novel_iff_some_negative (cells : list cell) :
  (mod1 (r_series_minimum cells) = Some 1 <->
     exists x, In (Some x) cells /\ x < 0) /\
  (mod1 (r_series_minimum cells) = Some 0 <->
     (exists x, In (Some x) cells) /\
     (forall x, In (Some x) cells -> 0 <= x)) /\
  (mod1 (r_series_minimum cells) = None <->
     forall c, In c cells -> c = None).
Proof.
  destruct (r_series_minimum cells) as [m |] eqn:E.
  - destruct (r_series_minimum_least cells m E) as [Hin Hle].
    rewrite mod1_value.
    destruct (Qlt_bool m 0) eqn:Em.
    + apply Qlt_bool_iff in Em. split; [| split].
      * split; [intros _; exists m; split; assumption | reflexivity].
      * split; [discriminate |]. intros [_ H]. specialize (H m Hin). lra.
      * split; [discriminate |]. intros H. specialize (H _ Hin). discriminate.
    + assert (Hm : 0 <= m).
      { destruct (Qlt_le_dec m 0) as [Hlt | Hge]; [| exact Hge].
        apply Qlt_bool_iff in Hlt. congruence. }
      split; [| split].
      * split; [discriminate |]. intros (x & Hx & Hneg).
        specialize (Hle x Hx). lra.
      * split; [| reflexivity]. intros _. split; [exists m; exact Hin |].
        intros x Hx. specialize (Hle x Hx). lra.
      * split; [discriminate |]. intros H. specialize (H _ Hin). discriminate.
  - pose proof (proj1 (r_series_minimum_null cells) E) as Hnull.
    cbn. split; [| split].
    + split; [discriminate |]. intros (x & Hx & _).
      specialize (Hnull _ Hx). discriminate.
    + split; [discriminate |]. intros [(x & Hx) _].
      specialize (Hnull _ Hx). discriminate.
    + split; [intros _; exact Hnull | reflexivity].
Qed.

End MessNovel.

(** ** r.mess: the check of the input layers *)
Section MessInput.
Import RMess.
Local Open Scope string_scope.
Local Open Scope list_scope.

(** X4.  [raster_exists] lets a list of layers pass exactly when every
    layer exists; otherwise the message names the first layer of the
    list that does not exist, whatever follows it. *)
Theorem mess_raster_exists_first_missing (rasters : gset string)
    (envlay : list string) :
  (raster_exists rasters envlay = None <->
     forall layer, In layer envlay -> layer ∈ rasters) /\
  (forall msg, raster_exists rasters envlay = Some msg ->
     exists found layer rest,
       envlay = found ++ layer :: rest /\
       (forall l, In l found -> l ∈ rasters) /\
       (layer ∉ rasters) /\
       msg = "The layer " +:+ layer +:+ " does not exist").
Proof.
  induction envlay as [| layer rest [IHnone IHmsg]]; cbn.
  - split; [split; [intros _ l [] | reflexivity] | discriminate].
  - destruct (bool_decide (layer ∈ rasters)) eqn:E.
    + apply bool_decide_eq_true in E. split.
      * rewrite IHnone. split.
        -- intros H l [<- | Hl]; [exact E | apply H, Hl].
        -- intros H l Hl. apply H. right. exact Hl.
      * intros msg Hmsg.
        destruct (IHmsg msg Hmsg) as (found & l & rest' & -> & Hf & Hl & ->).
        exists (layer :: found), l, rest'. repeat split; try assumption.
        intros l' [<- | Hl']; [exact E | apply Hf, Hl'].
    + apply bool_decide_eq_false in E. split.
      * split; [discriminate |]. intros H. exfalso. apply E. apply H.
        left. reflexivity.
      * intros msg [= <-]. exists [], layer, rest.
        repeat split; [intros l [] | exact E].
Qed.

End MessInput.

(** ** r.mess and r.hydro.flatten: what the exit-time callback removes *)
Section CleanupCalls.
Import Python Engine.
Local Open Scope string_scope.
Local Open Scope list_scope.

(** The temporary names made up during a run, in order. *)
Definition generated_names (l : list event) : list string :=
  flat_map (fun ev => match ev with Generate name => [name] | _ => [] end) l.

(** [P] holds after a script fragment whenever it holds before, also
    when the fragment ends the run. *)
Definition invariant (P : state -> Prop) {A} (m : prog A) : Prop :=
  forall w st, P st -> P (fst (m w st)).

Lemma invariant_ret P {A} (a : A) : invariant P (ret a).
Proof. intros w st H. exact H. Qed.

Lemma invariant_bind P {A B} (m : prog A) (k : A -> prog B) :
  invariant P m -> (forall a, invariant P (k a)) -> invariant P (bind m k).
Proof.
  intros Hm Hk w st H. unfold bind. specialize (Hm w st H).
  destruct (m w st) as [st' [a |]]; cbn in *.
  - apply Hk. exact Hm.
  - exact Hm.
Qed.

Lemma invariant_bind_ret P {A B} (a : A) (k : A -> prog B) :
  invariant P (k a) -> invariant P (bind (ret a) k).
Proof. intros Hk w st H. apply Hk. exact H. Qed.

Lemma invariant_for_each P {A} (l : list A) (body : A -> prog unit) :
  (forall x, invariant P (body x)) -> invariant P (for_each l body).
Proof.
  intros Hb. induction l as [| x l IH]; cbn.
  - apply invariant_ret.
  - apply invariant_bind; [apply Hb | intros _; exact IH].
Qed.

Lemma invariant_when P b (m : prog unit) :
  invariant P m -> invariant P (when b m).
Proof. intros H. destruct b; [exact H | apply invariant_ret]. Qed.

(** The cleanup list holds the generated names, each as often as it was
    generated, in the order of generation. *)
Definition listed (st : state) : Prop :=
  cleanup_list st = generated_names (log st).

Lemma generated_names_app l1 l2 :
  generated_names (l1 ++ l2) = generated_names l1 ++ generated_names l2.
Proof. unfold generated_names. apply flat_map_app. Qed.

Lemma listed_check : invariant listed check.
Proof. intros w st H. exact H. Qed.

Lemma listed_run_command module creates :
  invariant listed (run_command module creates).
Proof.
  intros w st H. unfold listed in *. cbn.
  rewrite generated_names_app. cbn. rewrite app_nil_r. exact H.
Qed.

Lemma listed_register st name n k :
  listed st ->
  listed {| cleanup_list := cleanup_list st ++ [name];
            log := (log st ++ [Generate name]) ++ [Append name];
            uuid_calls := n; steps := k |}.
Proof.
  unfold listed. cbn. intros H.
  rewrite !generated_names_app. cbn. rewrite app_nil_r. rewrite H.
  reflexivity.
Qed.

Lemma listed_create_temporary_name prefix :
  invariant listed (RMess.create_temporary_name prefix).
Proof. intros w st H. cbn. apply listed_register. exact H. Qed.

Lemma listed_get_name keep basename :
  invariant listed (RHydroFlatten.get_name keep basename).
Proof.
  intros w st H. destruct keep; cbn.
  - exact H.
  - destruct st. apply (listed_register _ _ _ _ H).
Qed.

Ltac listed_step :=
  match goal with
  | |- invariant _ (RMess.create_temporary_name _) =>
      apply listed_create_temporary_name
  | |- invariant _ (RHydroFlatten.get_name _ _) => apply listed_get_name
  | |- invariant _ (run_command _ _) => apply listed_run_command
  | |- invariant _ check => apply listed_check
  | |- invariant _ (ret _) => apply invariant_ret
  | |- invariant _ (bind _ _) => apply invariant_bind; [| intros ?]
  | |- invariant _ (for_each _ _) => apply invariant_for_each; intros ?
  | |- invariant _ (when _ _) => apply invariant_when
  | |- invariant _ (if ?b then _ else _) => destruct b
  | |- invariant _ (match ?x with _ => _ end) => destruct x
  end.

Lemma listed_compute_ies INipi INtmpf2 :
  invariant listed (RMess.compute_ies INipi INtmpf2).
Proof. unfold RMess.compute_ies. repeat listed_step. Qed.

Lemma listed_mess_main opts : invariant listed (RMess.main opts).
Proof.
  unfold RMess.main, RMess.recode_reference_vector_run,
    RMess.recode_reference_rasters_run.
  repeat match goal with
         | |- invariant _ (RMess.compute_ies _ _) => apply listed_compute_ies
         | |- _ => listed_step
         end.
Qed.

Lemma listed_hydro_main opts : invariant listed (RHydroFlatten.main opts).
Proof. unfold RHydroFlatten.main. cbv zeta. repeat listed_step. Qed.

Lemma listed_initial : listed initial.
Proof. reflexivity. Qed.

(** X5.  When r.mess exits, at the end of [main] or earlier, [cleanup]
    sends one [g.remove] for every temporary name generated during the
    run and for nothing else, the name generated last first. *)
Theorem mess_cleanup_removes_generated (w : world) (opts : RMess.options) :
  RMess.cleanup (cleanup_list (fst (RMess.main opts w initial))) =
  rev (generated_names (log (fst (RMess.main opts w initial)))).
Proof.
  unfold RMess.cleanup. cbv zeta. rewrite map_id.
  f_equal. apply listed_mess_main. apply listed_initial.
Qed.

(** X6.  When r.hydro.flatten exits, [cleanup] sends at most one
    [g.remove], and the names it is given are the temporary names
    generated during the run, in the order of generation; no call is
    made when none was generated. *)
Theorem hydro_cleanup_single_call (w : world)
    (opts : RHydroFlatten.options) :
  let calls :=
    RHydroFlatten.cleanup
      (cleanup_list (fst (RHydroFlatten.main opts w initial))) in
  let names :=
    generated_names (log (fst (RHydroFlatten.main opts w initial))) in
  (length calls <= 1)%nat /\
  concat calls = names /\
  (calls = [] <-> names = []).
Proof.
  cbv zeta.
  rewrite (listed_hydro_main opts w initial listed_initial).
  destruct (generated_names _) as [| name names]; cbn.
  - repeat split; auto.
  - rewrite app_nil_r. repeat split; auto; discriminate.
Qed.

(** With the flag [k]: what a name of a created map may be. *)
Definition kept_name (opts : RHydroFlatten.options) (name : string) : Prop :=
  String.prefix "intermediate_" name = true \/
  In name [RHydroFlatten.water_elevation opts;
           RHydroFlatten.water_elevation_stddev opts;
           RHydroFlatten.filled_elevation opts].

Definition kept (opts : RHydroFlatten.options) (st : state) : Prop :=
  cleanup_list st = [] /\
  forall module creates name,
    In (Command module creates) (log st) -> In name creates ->
    kept_name opts name.

Lemma kept_run_command opts module creates :
  Forall (kept_name opts) creates ->
  invariant (kept opts) (run_command module creates).
Proof.
  intros Hc w st [Hlist Hlog]. split; [exact Hlist |].
  cbn. intros module' creates' name Hin Hname.
  apply in_app_or in Hin. destruct Hin as [Hin | [[= <- <-] | []]].
  - eapply Hlog; eassumption.
  - rewrite Forall_forall in Hc. apply Hc. apply list_elem_of_In. exact Hname.
Qed.

Lemma get_name_keep basename :
  RHydroFlatten.get_name true basename = ret ("intermediate_" +:+ basename).
Proof. reflexivity. Qed.

Ltac kept_step :=
  match goal with
  | |- invariant _ (bind (RHydroFlatten.get_name true _) _) =>
      rewrite get_name_keep; apply invariant_bind_ret
  | |- invariant _ (run_command _ _) =>
      apply kept_run_command; repeat constructor;
      solve [left; reflexivity | right; cbn; tauto]
  | |- invariant _ (ret _) => apply invariant_ret
  | |- invariant _ (bind _ _) => apply invariant_bind; [| intros ?]
  | |- invariant _ (when _ _) => apply invariant_when
  | |- invariant _ (if ?b then _ else _) => destruct b
  | |- invariant _ (match ?x with _ => _ end) => destruct x
  end.

Lemma kept_hydro_main opts :
  RHydroFlatten.keep opts = true ->
  invariant (kept opts) (RHydroFlatten.main opts).
Proof.
  intros Hkeep. unfold RHydroFlatten.main. cbv zeta. rewrite Hkeep.
  repeat kept_step.
Qed.

(** X7.  With the flag [k] r.hydro.flatten registers nothing for
    removal, so that [cleanup] sends no [g.remove]; every map a command
    of the run creates is named [intermediate_...] or is one of the
    three outputs. *)
Theorem hydro_keep_leaves_intermediates (w : world)
    (opts : RHydroFlatten.options) :
  RHydroFlatten.keep opts = true ->
  RHydroFlatten.cleanup
    (cleanup_list (fst (RHydroFlatten.main opts w initial))) = [] /\
  forall module creates name,
    In (Command module creates)
       (log (fst (RHydroFlatten.main opts w initial))) ->
    In name creates ->
    String.prefix "intermediate_" name = true \/
    In name [RHydroFlatten.water_elevation opts;
             RHydroFlatten.water_elevation_stddev opts;
             RHydroFlatten.filled_elevation opts].
Proof.
  intros Hkeep.
  destruct (kept_hydro_main opts Hkeep w initial) as [Hlist Hlog].
  - split; [reflexivity |]. intros module creates name [].
  - rewrite Hlist. split; [reflexivity | exact Hlog].
Qed.

(** A lake with breaklines, the intermediate results kept. *)
Definition kept_lake_options : RHydroFlatten.options :=
  {| RHydroFlatten.keep := true;
     RHydroFlatten.breaklines := "shore";
     RHydroFlatten.min_size := Some 40%Z;
     RHydroFlatten.water_elevation := "water";
     RHydroFlatten.water_elevation_stddev := "water_stddev";
     RHydroFlatten.filled_elevation := "filled" |}.

Definition quiet_world : world :=
  {| uuid4_hex := fun _ => "0f3a"; node_pid := "host_4711";
     stops := fun _ => false |}.

Lemma hydro_keep_leaves_intermediates_witness :
  RHydroFlatten.cleanup
    (cleanup_list
       (fst (RHydroFlatten.main kept_lake_options quiet_world initial))) = [].
Proof.
  apply (hydro_keep_leaves_intermediates quiet_world kept_lake_options).
  reflexivity.
Defined.

End CleanupCalls.

(** ** r.recode.attr: outputs, degenerate tables and the separator *)
Section RecodeAttrRuns.
Import Python RRecodeAttr.
Local Open Scope string_scope.
Local Open Scope list_scope.

Definition already_exist (nm : string) : string :=
  "The layer " +:+ nm +:+ " already exist in this mapset".

Lemma create_recode_maps_fresh r_recode_runs inputmap outNames flag_a t T :
  forall xs mapset o calls,
    create_recode_maps r_recode_runs xs T inputmap outNames flag_a t mapset
      = (o, calls) ->
    List.NoDup (map output calls) /\
    (forall c, In c calls -> (output c ∉ mapset) /\ input c = inputmap) /\
    (forall msg, o = Fatal msg ->
       exists nm, msg = already_exist nm /\
                  (nm ∈ mapset \/ In nm (map output calls))).
Proof.
  induction xs as [| x xs IH]; intros mapset o calls; cbn [create_recode_maps].
  - intros [= <- <-]. split; [constructor |].
    split; [intros c [] | discriminate].
  - destruct (output_name outNames t T x) as [nmOutput |].
    + destruct (bool_decide (nmOutput ∈ mapset)) eqn:E.
      * apply bool_decide_eq_true in E. intros [= <- <-].
        split; [constructor |]. split; [intros c [] |].
        intros msg [= <-]. exists nmOutput. split; [reflexivity | left; exact E].
      * apply bool_decide_eq_false in E.
        destruct (r_recode_runs _); cbn [negb].
        -- destruct (create_recode_maps r_recode_runs xs T inputmap outNames
                       flag_a t ({[nmOutput]} ∪ mapset))
             as [o' calls'] eqn:Erest.
           intros [= <- <-].
           destruct (IH _ _ _ Erest) as (Hnd & Hnew & Hfatal).
           split; [| split].
           ++ cbn. constructor; [| exact Hnd].
              intros Hin. apply in_map_iff in Hin.
              destruct Hin as (c & Hc & Hin).
              destruct (Hnew c Hin) as [Hnot _]. apply Hnot. rewrite Hc.
              apply elem_of_union_l, elem_of_singleton. reflexivity.
           ++ intros c [<- | Hin]; [split; [exact E | reflexivity] |].
              destruct (Hnew c Hin) as [Hnot Hinput].
              split; [| exact Hinput].
              intros Hmem. apply Hnot. apply elem_of_union_r. exact Hmem.
           ++ intros msg Hmsg. destruct (Hfatal msg Hmsg) as (nm & -> & Hnm).
              exists nm. split; [reflexivity |].
              destruct Hnm as [Hnm | Hnm].
              ** apply elem_of_union in Hnm. destruct Hnm as [Hnm | Hnm].
                 --- apply elem_of_singleton in Hnm. subst nm.
                     right. left. reflexivity.
                 --- left. exact Hnm.
              ** right. right. exact Hnm.
        -- intros [= <- <-]. split; [| split].
           ++ cbn. constructor; [intros [] | constructor].
           ++ intros c [<- | []]. split; [exact E | reflexivity].
           ++ discriminate.
    + intros [= <- <-]. split; [constructor |].
      split; [intros c [] | discriminate].
Qed.

(** X8.  Whatever the table, the names, the mapset and the engine,
    r.recode.attr never sends r.recode an output name that is in the
    current mapset or that an earlier call of the run has used; and when
    the run ends with the fatal message on an existing layer, the layer it
    names is in the mapset or is the output of an earlier call. *)
Theorem recode_attr_never_overwrites (r_recode_runs : recode -> bool)
    (inputmap outBase : string)
    (flag_a : bool) (t : table) (mapset : gset string) :
  let calls := snd (main r_recode_runs inputmap outBase flag_a t mapset) in
  List.NoDup (map output calls) /\
  (forall c, In c calls -> (output c ∉ mapset) /\ input c = inputmap) /\
  (forall msg,
     fst (main r_recode_runs inputmap outBase flag_a t mapset) = Fatal msg ->
     exists nm, msg = already_exist nm /\
                (nm ∈ mapset \/ In nm (map output calls))).
Proof.
  cbv zeta. unfold main.
  destruct (shape t) as [| nrows [| ncols [| ? ?]]];
    try (cbn; split; [constructor | split; [intros c [] | discriminate]]).
  destruct (create_recode_maps r_recode_runs (seq 0 (ncols - 1))
              (length (seq 0 (ncols - 1))) inputmap (split "," outBase)
              flag_a t mapset) as [o calls] eqn:E.
  cbn [fst snd]. eapply create_recode_maps_fresh. exact E.
Qed.

(** X9.  A rules file with at most one data row, or with a single column,
    is read as a one-dimensional array; the script then ends on the
    IndexError of [dimData[1]] and recodes nothing. *)
Theorem recode_attr_flat_table (r_recode_runs : recode -> bool)
    (inputmap outBase : string) (flag_a : bool)
    (t : table) (mapset : gset string) :
  (length (myData t) <= 1)%nat \/ length (hd [] (myData t)) = 1%nat ->
  main r_recode_runs inputmap outBase flag_a t mapset
    = (Uncaught "IndexError", []).
Proof.
  intros H. unfold main, shape.
  destruct (myData t) as [| row [| row' rest]] eqn:E.
  - reflexivity.
  - destruct (length row =? 1)%nat; reflexivity.
  - destruct H as [H | H]; [cbn in H; lia |].
    cbn in H. rewrite H. reflexivity.
Qed.

(** One line of data below the header. *)
Definition one_row_table : table :=
  {| nmsData := ["value"; "soil"; "cover"]; myData := [[1; 10; 100]]%Q |}.

Lemma recode_attr_flat_table_witness :
  main r_recode_succeeds "landuse" "a,b" false one_row_table ∅
    = (Uncaught "IndexError", []).
Proof.
  apply (recode_attr_flat_table r_recode_succeeds "landuse" "a,b" false
           one_row_table ∅).
  left. cbn. lia.
Defined.

Lemma get_delimiter_cases s :
  (In s (map fst separator_mapping) /\
   get separator_mapping s = Some (get_delimiter s)) \/
  (~ In s (map fst separator_mapping) /\ get_delimiter s = s).
Proof.
  unfold get_delimiter.
  destruct (existsb (String.eqb s) (map fst separator_mapping)) eqn:E.
  - left. apply existsb_exists in E. destruct E as (k & Hk & Ek).
    apply String.eqb_eq in Ek. subst k. split; [exact Hk |].
    cbn in Hk.
    destruct Hk as [<- | [<- | [<- | [<- | [<- | []]]]]]; reflexivity.
  - right. split; [| reflexivity]. intros Hin.
    assert (existsb (String.eqb s) (map fst separator_mapping) = true).
    { apply existsb_exists. exists s. split; [exact Hin |].
      apply String.eqb_refl. }
    congruence.
Qed.

(** X10.  [get_delimiter] turns each of the five separator names into its
    one character and leaves every other string as it is; its result is
    never one of the five names, so that applying it twice changes
    nothing more. *)
Theorem get_delimiter_idempotent (separator_option : string) :
  (In separator_option ["comma"; "pipe"; "space"; "tab"; "newline"] ->
   String.length (get_delimiter separator_option) = 1%nat) /\
  (~ In separator_option ["comma"; "pipe"; "space"; "tab"; "newline"] ->
   get_delimiter separator_option = separator_option) /\
  ~ In (get_delimiter separator_option)
       ["comma"; "pipe"; "space"; "tab"; "newline"] /\
  get_delimiter (get_delimiter separator_option) =
    get_delimiter separator_option.
Proof.
  assert (Hnames : forall s,
            In s ["comma"; "pipe"; "space"; "tab"; "newline"] ->
            String.length (get_delimiter s) = 1%nat /\
            ~ In (get_delimiter s)
                 ["comma"; "pipe"; "space"; "tab"; "newline"]).
  { intros s [<- | [<- | [<- | [<- | [<- | []]]]]];
      (split; [reflexivity |]);
      cbn; intros H; repeat (destruct H as [H | H]; [discriminate |]);
      exact H. }
  assert (Hother : forall s,
            ~ In s ["comma"; "pipe"; "space"; "tab"; "newline"] ->
            get_delimiter s = s).
  { intros s Hs. destruct (get_delimiter_cases s) as [[Hin _] | [_ E]];
      [contradiction | exact E]. }
  split; [intros H; apply Hnames, H |].
  split; [apply Hother |].
  assert (Hnot : ~ In (get_delimiter separator_option)
                      ["comma"; "pipe"; "space"; "tab"; "newline"]).
  { destruct (get_delimiter_cases separator_option) as [[Hin _] | [Hn E]].
    - apply Hnames. exact Hin.
    - rewrite E. exact Hn. }
  split; [exact Hnot | apply Hother; exact Hnot].
Qed.

End RecodeAttrRuns.

(** ** r.maxent.predict: names of layers and variables *)
Section MaxentNames.
Import Python RMaxentPredict.
Local Open Scope string_scope.
Local Open Scope list_scope.

(** The part of a string before the first separator. *)
Fixpoint before (sep : ascii) (s : string) : string :=
  match s with
  | EmptyString => EmptyString
  | String c rest =>
      if Ascii.eqb c sep then EmptyString else String c (before sep rest)
  end.

Lemma append_empty_r (s : string) : s +:+ "" = s.
Proof.
  induction s as [| c s IH]; [reflexivity |].
  change (String c (s +:+ "") = String c s). rewrite IH. reflexivity.
Qed.

Lemma append_cons (c : ascii) (a b : string) :
  String c a +:+ b = String c (a +:+ b).
Proof. reflexivity. Qed.

Lemma hd_split_from sep s : forall cur,
  hd "" (split_from sep cur s) = cur +:+ before sep s.
Proof.
  induction s as [| c s IH]; intros cur; cbn [split_from before].
  - cbn. symmetry. apply append_empty_r.
  - destruct (Ascii.eqb c sep).
    + cbn. symmetry. apply append_empty_r.
    + rewrite IH. rewrite append_assoc. reflexivity.
Qed.

Lemma contains_at_cons c s :
  contains "@" (String c s) = Ascii.eqb c "@" || contains "@" s.
Proof.
  change (contains "@" (String c s))
    with (String.prefix "@" (String c s) || contains "@" s).
  f_equal.
  change (String.prefix "@" (String c s))
    with (if Ascii.ascii_dec "@" c then String.prefix "" s else false).
  destruct (Ascii.ascii_dec "@" c) as [<- | Hne].
  - destruct s; reflexivity.
  - symmetry. apply Ascii.eqb_neq. intros ->. apply Hne. reflexivity.
Qed.

Lemma before_no_at s : contains "@" (before "@" s) = false.
Proof.
  induction s as [| c s IH]; [reflexivity |].
  cbn [before]. destruct (Ascii.eqb c "@") eqn:E; [reflexivity |].
  rewrite contains_at_cons, E, IH. reflexivity.
Qed.

Lemma before_whole s : contains "@" s = false -> before "@" s = s.
Proof.
  induction s as [| c s IH]; [reflexivity |].
  rewrite contains_at_cons. intros H. apply orb_false_iff in H.
  destruct H as [Hc Hs]. cbn [before]. rewrite Hc, IH by exact Hs.
  reflexivity.
Qed.

Lemma before_append base rest :
  contains "@" base = false -> before "@" (base +:+ "@" +:+ rest) = base.
Proof.
  induction base as [| c base IH].
  - intros _. reflexivity.
  - rewrite contains_at_cons. intros H. apply orb_false_iff in H.
    destruct H as [Hc Hs]. rewrite append_cons. cbn [before].
    rewrite Hc, IH by exact Hs. reflexivity.
Qed.

Lemma contains_append base rest :
  contains "@" (base +:+ "@" +:+ rest) = true.
Proof.
  induction base as [| c base IH].
  - change ("" +:+ "@" +:+ rest) with (String "@" rest).
    rewrite contains_at_cons. reflexivity.
  - rewrite append_cons, contains_at_cons, IH. apply orb_true_r.
Qed.

Lemma strip_mapset_before name : strip_mapset name = before "@" name.
Proof.
  unfold strip_mapset, split.
  destruct (contains "@" name) eqn:E.
  - rewrite hd_split_from. reflexivity.
  - symmetry. apply before_whole. exact E.
Qed.

(** X11.  [strip_mapset] gives a name without [@]: a name without [@] is
    left as it is, of [layer@mapset] the layer is kept, and stripping
    twice gives what stripping once does. *)
Theorem strip_mapset_removes_mapset (name : string) :
  contains "@" (strip_mapset name) = false /\
  (contains "@" name = false -> strip_mapset name = name) /\
  (forall layer mapset,
     contains "@" layer = false -> name = layer +:+ "@" +:+ mapset ->
     strip_mapset name = layer) /\
  strip_mapset (strip_mapset name) = strip_mapset name.
Proof.
  rewrite !strip_mapset_before.
  split; [apply before_no_at |]. split; [apply before_whole |].
  split.
  - intros layer mapset Hlayer ->. apply before_append. exact Hlayer.
  - apply before_whole. apply before_no_at.
Qed.

Lemma strip_mapset_removes_mapset_witness :
  strip_mapset "elevation@PERMANENT" = "elevation".
Proof.
  destruct (strip_mapset_removes_mapset "elevation@PERMANENT")
    as (_ & _ & Hlayer & _).
  apply (Hlayer "elevation" "PERMANENT"); reflexivity.
Defined.

Section CaseInsensitive.

(** Python's [str.lower]. *)
Variable str_lower : string -> string.

Definition matches (target item : string) : bool :=
  String.eqb (str_lower item) (str_lower target).

Lemma find_from target lst : forall k,
  match List.find (fun '(i, item) =>
                     String.eqb (str_lower item) (str_lower target))
          (combine (seq k (length lst)) lst) with
  | Some (i, item) =>
      exists j, i = (k + j)%nat /\ lst !! j = Some item /\
                matches target item = true /\
                (forall j' item', (j' < j)%nat -> lst !! j' = Some item' ->
                                  matches target item' = false)
  | None => forall item, In item lst -> matches target item = false
  end.
Proof.
  induction lst as [| x lst IH]; intros k; cbn [length seq combine List.find].
  - intros item [].
  - destruct (String.eqb (str_lower x) (str_lower target)) eqn:E.
    + exists 0%nat. split; [lia |]. split; [reflexivity |].
      split; [exact E |]. intros j' item' Hj'. lia.
    + specialize (IH (S k)).
      destruct (List.find _ (combine (seq (S k) (length lst)) lst))
        as [[i item] |].
      * destruct IH as (j & -> & Hj & Hm & Hfirst).
        exists (S j). split; [lia |]. split; [exact Hj |].
        split; [exact Hm |]. intros [| j'] item' Hlt Hl.
        -- cbn in Hl. injection Hl as <-. exact E.
        -- apply (Hfirst j'); [lia | exact Hl].
      * intros item [<- | Hin]; [exact E | apply IH, Hin].
Qed.

(** X12.  Whatever [str.lower] does to a string,
    [find_index_case_insensitive] gives -1 exactly when no item has the
    lower-case form of the target; otherwise it gives the index of the
    first item that has. *)
Theorem find_index_is_first_match (lst : list string) (target : string) :
  (find_index_case_insensitive str_lower lst target = (-1)%Z <->
   forall item, In item lst -> str_lower item <> str_lower target) /\
  (find_index_case_insensitive str_lower lst target <> (-1)%Z ->
   exists j item,
     find_index_case_insensitive str_lower lst target = Z.of_nat j /\
     lst !! j = Some item /\ str_lower item = str_lower target /\
     forall j' item', (j' < j)%nat -> lst !! j' = Some item' ->
                      str_lower item' <> str_lower target).
Proof.
  unfold find_index_case_insensitive, enumerate.
  pose proof (find_from target lst 0) as H.
  destruct (List.find _ (combine (seq 0 (length lst)) lst)) as [[i item] |].
  - destruct H as (j & -> & Hj & Hm & Hfirst). unfold matches in *.
    split.
    + split; [lia |]. intros Hnone. exfalso.
      apply (Hnone item).
      * apply list_elem_of_In. eapply list_elem_of_lookup_2. exact Hj.
      * apply String.eqb_eq. exact Hm.
    + intros _. exists j, item. split; [reflexivity |].
      split; [exact Hj |]. split; [apply String.eqb_eq; exact Hm |].
      intros j' item' Hlt Hl. apply String.eqb_neq.
      apply (Hfirst j' item' Hlt Hl).
  - split; [| intros Hne; contradiction].
    split; [| reflexivity]. intros _ item Hin.
    apply String.eqb_neq. apply H. exact Hin.
Qed.

End CaseInsensitive.

(** Names in ASCII, on which [str.lower] folds the letters A to Z. *)
Lemma find_index_is_first_match_witness :
  exists j item,
    find_index_case_insensitive lower ["bio1"; "Bio12"; "BIO12"] "bio12"
      = Z.of_nat j /\
    ["bio1"; "Bio12"; "BIO12"] !! j = Some item /\
    lower item = lower "bio12" /\
    forall j' item', (j' < j)%nat ->
      ["bio1"; "Bio12"; "BIO12"] !! j' = Some item' ->
      lower item' <> lower "bio12".
Proof.
  apply (find_index_is_first_match lower ["bio1"; "Bio12"; "BIO12"] "bio12").
  vm_compute. discriminate.
Defined.

End MaxentNames.

(** ** r.maxent.predict: the export and the end of a run *)
Section MaxentRuns.
Import Python RMaxentPredict.
Local Open Scope string_scope.
Local Open Scope list_scope.











(** *** A run that ends normally *)

Lemma emit_no_popen ev :
  (forall cmd, ev <> Popen cmd) -> preserves no_popen (emit ev).
Proof.
  intros Hev st H cmd Hin. cbn in Hin. apply in_app_or in Hin.
  destruct Hin as [Hin | [Hin | []]]; [exact (H cmd Hin) |].
  exact (Hev cmd Hin).
Qed.

Lemma write_no_popen path : preserves no_popen (write_file path).
Proof. intros st H. exact H. Qed.

Ltac quiet_step :=
  match goal with
  | |- preserves _ (emit _) => apply emit_no_popen; discriminate
  | |- preserves _ (write_file _) => apply write_no_popen
  | |- preserves _ (ret _) => apply preserves_ret
  | |- preserves _ (fatal _) => apply preserves_fatal
  | |- preserves _ (raise _) => apply preserves_raise
  | |- preserves _ (isfile _) => apply preserves_isfile
  | |- preserves _ (bind _ _) => apply preserves_bind; [| intros ?]
  | |- preserves _ (for_each _ _) => apply preserves_for_each; intros ?
  | |- preserves _ (if ?b then _ else _) => destruct b
  | |- preserves _ (match ?x with _ => _ end) => destruct x
  | |- preserves _ (let _ := _ in _) => cbv zeta
  end.

Lemma check_resolution_quiet flgs env :
  preserves no_popen (check_resolution flgs env).
Proof. unfold check_resolution. repeat quiet_step. Qed.

Lemma export_layers_quiet opts env :
  preserves no_popen (export_layers opts env).
Proof. unfold export_layers. repeat quiet_step. Qed.

(** The folder of the layers: the one given, or the temporary one. *)
Definition layers_directory (opts : options) (env : environment) : string :=
  if truthy (projectionlayers opts) then projectionlayers opts
  else tempdir env.

Definition returns {A} (a : A) (m : prog A) : Prop :=
  forall st st' a', m st = (st', inl a') -> a' = a.

Lemma returns_bind_ret {A} (a : A) (m : prog unit) :
  returns a (bind m (fun _ => ret a)).
Proof.
  intros st st' a'. unfold bind, ret.
  destruct (m st) as [st1 [[] | o]]; [| discriminate].
  intros [= _ <-]. reflexivity.
Qed.

Lemma returns_fatal {A} (a : A) msg : returns a (fatal msg).
Proof. intros st st' a'. discriminate. Qed.

Lemma returns_raise {A} (a : A) e : returns a (raise e).
Proof. intros st st' a'. discriminate. Qed.

Lemma returns_ret {A} (a : A) : returns a (ret a).
Proof. intros st st' a' [= _ <-]. reflexivity. Qed.

Lemma returns_bind {A B} (b : B) (m : prog A) (k : A -> prog B) :
  (forall a, returns b (k a)) -> returns b (bind m k).
Proof.
  intros Hk st st' b'. unfold bind.
  destruct (m st) as [st1 [a | o]]; [| discriminate].
  apply Hk.
Qed.

Lemma export_layers_directory opts env :
  returns (layers_directory opts env) (export_layers opts env).
Proof.
  unfold export_layers, layers_directory.
  destruct (truthy (projectionlayers opts)); [apply returns_ret |].
  cbv zeta. apply returns_bind. intros names.
  repeat match goal with
         | |- returns _ (if ?b then _ else _) => destruct b
         | |- returns _ (fatal _) => apply returns_fatal
         end.
  apply returns_bind_ret.
Qed.

(** X14.  A run of r.maxent.predict that ends normally has started the
    predictor exactly once, after everything else, has seen it exit with
    code 0, and has then imported the grid [mxt_....asc] of the folder of
    the layers, which is a file at that time, as the output layer. *)
Theorem maxent_done_means_imported (opts : options) (flgs : flags)
    (env : environment) (files : gset string) :
  snd (main opts flgs env {| fs := files; trace := [] |}) = inl tt ->
  returncode env = 0%Z /\
  path_join (layers_directory opts env) (create_temp_name env "mxt_")
    ∈ fs (fst (main opts flgs env {| fs := files; trace := [] |})) /\
  exists tr cmd,
    trace (fst (main opts flgs env {| fs := files; trace := [] |})) =
      tr ++ [Popen cmd;
             RInGdal (path_join (layers_directory opts env)
                        (create_temp_name env "mxt_")) (output opts)] /\
    (forall cmd', ~ In (Popen cmd') tr).
Proof.
  set (st0 := {| fs := files; trace := [] |}).
  assert (H0 : no_popen st0) by (intros cmd []).
  destruct (main opts flgs env st0) as [stf r] eqn:Emain.
  cbn [fst snd]. intros ->. revert Emain.
  unfold main, export_and_predict. unfold bind.
  pose proof (find_java_quiet opts env st0 H0) as Hj.
  destruct (find_java opts env st0) as [st1 [pj | o1]]; [| discriminate].
  cbn [fst] in Hj.
  pose proof (find_maxent_quiet opts env st1 Hj) as Hm.
  destruct (find_maxent opts env st1) as [st2 [mf | o2]]; [| discriminate].
  cbn [fst] in Hm.
  pose proof (check_resolution_quiet flgs env st2 Hm) as Hc.
  destruct (check_resolution flgs env st2) as [st3 [[] | o3]];
    [| discriminate].
  cbn [fst] in Hc.
  pose proof (export_layers_quiet opts env st3 Hc) as He.
  pose proof (export_layers_directory opts env st3) as Hd.
  destruct (export_layers opts env st3) as [st4 [d | o4]]; [| discriminate].
  cbn [fst] in He. specialize (Hd st4 d eq_refl). subst d.
  unfold run_maxent.
  destruct pj as [path_to_java |]; [| discriminate].
  cbv zeta. set (cmd := _ ++ _ ++ _).
  set (temp_file :=
         path_join (layers_directory opts env) (create_temp_name env "mxt_")).
  unfold bind, emit, isfile, write_file, ret, fatal, raise.
  cbn [fst snd fs trace].
  destruct (returncode env =? 0)%Z eqn:Erc; cbn [negb].
  - apply Z.eqb_eq in Erc.
    destruct (writes_output env); cbn [fst snd fs trace].
    + destruct (bool_decide (temp_file ∈ {[temp_file]} ∪ fs st4)) eqn:Ef;
        cbn [negb fst snd fs trace]; [| discriminate].
      apply bool_decide_eq_true in Ef. intros [= <-]. cbn [fs trace].
      split; [exact Erc |]. split; [exact Ef |].
      exists (trace st4), cmd. rewrite <- app_assoc.
      split; [reflexivity | exact He].
    + destruct (bool_decide (temp_file ∈ fs st4)) eqn:Ef;
        cbn [negb fst snd fs trace]; [| discriminate].
      apply bool_decide_eq_true in Ef. intros [= <-]. cbn [fs trace].
      split; [exact Erc |]. split; [exact Ef |].
      exists (trace st4), cmd. rewrite <- app_assoc.
      split; [reflexivity | exact He].
  - destruct (writes_output env); cbn [fst snd fs trace];
      destruct (scan_stderr (stderr env)) as [msg |];
      try discriminate; destruct (truthy msg); discriminate.
Qed.

Lemma maxent_done_means_imported_witness :
  returncode working_environment = 0%Z /\
  "/tmp/grass/mxt_0f3a.asc"
    ∈ fs (fst (main export_options no_flags working_environment
                 {| fs := {["/opt/maxent.jar"]}; trace := [] |})).
Proof.
  destruct (maxent_done_means_imported export_options no_flags
              working_environment {["/opt/maxent.jar"]})
    as (Hrc & Hfile & _); [vm_compute; reflexivity |].
  split; [exact Hrc | exact Hfile].
Defined.

End MaxentRuns.

(** ** v.boxplot: the places of the boxes *)
Section BoxplotPlaces.
Import Python VBoxplot.
Local Open Scope string_scope.
Local Open Scope list_scope.

Lemma medians_fst (df : list (string * Q)) (uid : list string) :
  map fst (map (fun m => (m, np_median (group_data df m))) uid) = uid.
Proof. rewrite map_map. cbn. apply map_id. Qed.

(** Whatever the order asked for, the groups are ranked without
    repetition. *)
Lemma order_boxes_ranking df uid sort :
  In sort [""; "ascending"; "descending"] ->
  exists ranking,
    order_boxes (map (fun m => (m, np_median (group_data df m))) uid) sort
      = Some ranking /\
    Permutation ranking uid /\
    (sort = "" -> ranking = uid).
Proof.
  set (sf := map (fun m => (m, np_median (group_data df m))) uid).
  pose proof (medians_fst df uid) as Hfst. fold sf in Hfst.
  intros [<- | [<- | [<- | []]]].
  - exists uid. split; [cbn; rewrite Hfst; reflexivity |].
    split; [reflexivity | reflexivity].
  - exists (map fst (stable_sort snd sf)).
    split; [reflexivity |]. split; [| discriminate].
    transitivity (map fst sf); [| rewrite Hfst; reflexivity].
    apply Permutation_map. apply stable_sort_perm.
  - exists (map fst (rev (stable_sort snd (rev sf)))).
    split; [reflexivity |]. split; [| discriminate].
    transitivity (map fst sf); [| rewrite Hfst; reflexivity].
    apply Permutation_map.
    rewrite <- Permutation_rev. rewrite stable_sort_perm.
    symmetry. apply Permutation_rev.
Qed.

(** X15.  For distinct group names and each of the orders (none,
    ascending, descending): when the selection is not empty the grouped
    boxplot is drawn, the boxes carry the groups in the order of [uid],
    each with the values of its group, no two boxes share a position and
    every position is below the number of groups, and without an order
    the box of the [i]-th group is at position [i]; on an empty selection
    the plotting library raises an error and nothing is drawn. *)
Theorem boxplot_positions_are_ranks (df : list (string * Q))
    (uid : list string) (sort : string) :
  NoDup uid -> In sort [""; "ascending"; "descending"] ->
  (uid <> [] ->
   exists boxes,
     grouped_boxplot df uid sort = Some boxes /\
     map label boxes = uid /\
     (forall b, In b boxes ->
        data b = group_data df (label b) /\
        (position b < length uid)%nat) /\
     NoDup (map position boxes) /\
     (sort = "" -> map position boxes = seq 0 (length uid))) /\
  (uid = [] -> grouped_boxplot df uid sort = None).
Proof.
  intros Hnd Hsort. split.
  2: { intros ->. destruct Hsort as [<- | [<- | [<- | []]]]; reflexivity. }
  intros Hsome.
  destruct (order_boxes_ranking df uid sort Hsort)
    as (ranking & Horder & Hperm & Hnone).
  assert (Hrank_nd : NoDup ranking) by (rewrite Hperm; exact Hnd).
  destruct (draw_placed df uid sort ranking Hsome Horder Hrank_nd)
    as (boxes & Hdraw & Hlen & Hplaced).
  { intros g Hg. eapply Permutation_in; [symmetry; exact Hperm | exact Hg]. }
  exists boxes. split; [exact Hdraw |].
  assert (Hlabels : map label boxes = uid).
  { apply list_eq. intros i. rewrite list_lookup_fmap.
    destruct (boxes !! i) as [b |] eqn:Eb; cbn.
    - destruct (Hplaced i b Eb) as [Hu _]. symmetry. exact Hu.
    - symmetry. apply lookup_ge_None. apply lookup_ge_None in Eb. lia. }
  split; [exact Hlabels |].
  assert (Hat : forall i b, boxes !! i = Some b ->
                  forall k, ranking !! k = Some (label b) -> k = position b).
  { intros i b Eb k Hk. destruct (Hplaced i b Eb) as (_ & _ & Hp).
    eapply NoDup_lookup; [exact Hrank_nd | exact Hk | exact Hp]. }
  split; [| split].
  - intros b Hb. apply list_elem_of_In in Hb.
    apply list_elem_of_lookup in Hb. destruct Hb as [i Eb].
    destruct (Hplaced i b Eb) as (_ & Hdata & Hp).
    split; [exact Hdata |].
    apply lookup_lt_Some in Hp.
    rewrite <- (Permutation_length Hperm). exact Hp.
  - apply NoDup_alt. intros i j p Hi Hj.
    rewrite list_lookup_fmap in Hi, Hj.
    destruct (boxes !! i) as [b |] eqn:Ei; [| discriminate].
    destruct (boxes !! j) as [b' |] eqn:Ej; [| discriminate].
    cbn in Hi, Hj. injection Hi as Hi. injection Hj as Hj.
    destruct (Hplaced i b Ei) as (Hui & _ & Hpi).
    destruct (Hplaced j b' Ej) as (Huj & _ & Hpj).
    rewrite Hi in Hpi. rewrite Hj in Hpj. rewrite Hpi in Hpj.
    injection Hpj as Hl. rewrite Hl in Hui.
    eapply NoDup_lookup; [exact Hnd | exact Hui | exact Huj].
  - intros Hs. specialize (Hnone Hs). subst ranking.
    apply list_eq. intros i. rewrite list_lookup_fmap.
    destruct (boxes !! i) as [b |] eqn:Eb; cbn.
    + destruct (Hplaced i b Eb) as (Hu & _ & _).
      rewrite <- (Hat i b Eb i Hu). symmetry. apply lookup_seq.
      split; [reflexivity |].
      apply lookup_lt_Some in Hu. exact Hu.
    + symmetry. apply lookup_ge_None. rewrite length_seq.
      apply lookup_ge_None in Eb. lia.
Qed.

Lemma boxplot_positions_are_ranks_witness :
  exists boxes,
    grouped_boxplot three_groups ["group_C"; "group_A"; "group_B"] ""
      = Some boxes /\
    map label boxes = ["group_C"; "group_A"; "group_B"] /\
    (forall b, In b boxes ->
       data b = group_data three_groups (label b) /\
       (position b < 3)%nat) /\
    NoDup (map position boxes) /\
    ("" = "" -> map position boxes = seq 0 3).
Proof.
  apply (boxplot_positions_are_ranks three_groups
           ["group_C"; "group_A"; "group_B"] "").
  - compute_done.
  - left. reflexivity.
  - discriminate.
Defined.

End BoxplotPlaces.

(** ** r.maxent.setup: what is installed, and what r.maxent.predict finds *)
Section MaxentSetup.
Import Python RMaxentSetup.
Local Open Scope string_scope.
Local Open Scope list_scope.

(** Where maxent.jar is installed. *)
Definition installed_jar (base : string) : string :=
  path_join (path_join base "scripts") "maxent.jar".

(** Where the path to Java is kept. *)
Definition java_text_file (base : string) : string :=
  path_join (path_join base "scripts") "r_maxent_path_to_java.txt".

Lemma copyfile_done src dst st st' :
  copyfile src dst st = (st', inl tt) ->
  exists content,
    fs st !! src = Some content /\
    st' = {| fs := <[dst := content]> (fs st); trace := trace st |}.
Proof.
  unfold copyfile. destruct (String.eqb src dst); [discriminate |].
  destruct (fs st !! src) as [content |]; [| discriminate].
  intros [= <-]. exists content. split; reflexivity.
Qed.

Lemma copyfile_failed src dst st st' o :
  copyfile src dst st = (st', inr o) -> st' = st.
Proof.
  unfold copyfile. destruct (String.eqb src dst); [intros [= <- _]; reflexivity |].
  destruct (fs st !! src); [discriminate | intros [= <- _]; reflexivity].
Qed.

(** How [install_maxent] ends: the files are as before, or the jar has
    been copied to the addon directory; without [overwrite] the latter
    needs the place to be free. *)
Lemma install_maxent_cases env maxent overwrite st :
  (snd (install_maxent env maxent overwrite st) <> inl tt /\
   fs (fst (install_maxent env maxent overwrite st)) = fs st) \/
  (exists base content,
     snd (install_maxent env maxent overwrite st) = inl tt /\
     GRASS_ADDON_BASE env = Some base /\
     fs st !! maxent = Some content /\
     basename (basename maxent) = "maxent.jar" /\
     (overwrite = false -> fs st !! installed_jar base = None) /\
     fs (fst (install_maxent env maxent overwrite st)) =
       <[installed_jar base := content]> (fs st)).
Proof.
  unfold install_maxent, bind, isfile, ret, fatal, raise, emit.
  cbn [fst snd fs trace].
  destruct (bool_decide (is_Some (fs st !! maxent))) eqn:Efound;
    cbn [negb fst snd]; [| left; split; [discriminate | reflexivity]].
  destruct (GRASS_ADDON_BASE env) as [base |];
    [| left; split; [discriminate | reflexivity]].
  destruct (String.eqb (basename (basename maxent)) "maxent.jar") eqn:Ename;
    cbn [negb fst snd]; [| left; split; [discriminate | reflexivity]].
  apply String.eqb_eq in Ename.
  fold (installed_jar base).
  destruct (bool_decide (is_Some (fs st !! installed_jar base))) eqn:Ecopy;
    destruct overwrite; cbn [andb negb fst snd]; cbv beta;
    rewrite ?Ecopy; cbn [negb fst snd].
  - destruct (copyfile maxent (installed_jar base) st) as [st' [[] | o]] eqn:Ec.
    + apply copyfile_done in Ec. destruct Ec as (content & Hsrc & ->).
      right. exists base, content. cbn [fst snd fs].
      repeat split; try assumption. discriminate.
    + apply copyfile_failed in Ec. subst st'.
      left. split; [discriminate | reflexivity].
  - left. split; [discriminate | reflexivity].
  - destruct (copyfile maxent (installed_jar base) st) as [st' [[] | o]] eqn:Ec.
    + apply copyfile_done in Ec. destruct Ec as (content & Hsrc & ->).
      right. exists base, content. cbn [fst snd fs].
      repeat split; try assumption. discriminate.
    + apply copyfile_failed in Ec. subst st'.
      left. split; [discriminate | reflexivity].
  - destruct (copyfile maxent (installed_jar base) st) as [st' [[] | o]] eqn:Ec.
    + apply copyfile_done in Ec. destruct Ec as (content & Hsrc & ->).
      right. exists base, content. cbn [fst snd fs].
      apply bool_decide_eq_false in Ecopy.
      repeat split; try assumption.
      intros _. apply eq_None_not_Some. exact Ecopy.
    + apply copyfile_failed in Ec. subst st'.
      left. split; [discriminate | reflexivity].
Qed.

(** X16.  [install_maxent] never replaces a maxent.jar of the addon
    directory unless the flag [u] is given, and it changes no other file:
    a run that does not end normally leaves all files as they were, and
    one that does has copied the content of the given file, which is
    named maxent.jar, to [scripts/maxent.jar] of the addon directory. *)
Theorem maxent_install_keeps_existing (env : environment) (maxent : string)
    (overwrite : bool) (st : state) :
  (forall path,
     path <> default "" (installed_jar <$> GRASS_ADDON_BASE env) ->
     fs (fst (install_maxent env maxent overwrite st)) !! path
       = fs st !! path) /\
  (overwrite = false ->
   forall base old,
     GRASS_ADDON_BASE env = Some base ->
     fs st !! installed_jar base = Some old ->
     fs (fst (install_maxent env maxent overwrite st)) = fs st /\
     snd (install_maxent env maxent overwrite st) <> inl tt) /\
  (snd (install_maxent env maxent overwrite st) <> inl tt ->
   fs (fst (install_maxent env maxent overwrite st)) = fs st) /\
  (snd (install_maxent env maxent overwrite st) = inl tt ->
   exists base,
     GRASS_ADDON_BASE env = Some base /\
     basename (basename maxent) = "maxent.jar" /\
     is_Some (fs st !! maxent) /\
     fs (fst (install_maxent env maxent overwrite st)) !! installed_jar base
       = fs st !! maxent).
Proof.
  destruct (install_maxent_cases env maxent overwrite st)
    as [[Hfail Hsame] | (base & content & Hdone & Hbase & Hsrc & Hname
                         & Hfree & Hfs)].
  - split; [intros path _; rewrite Hsame; reflexivity |].
    split; [intros _ base old _ _; split; assumption |].
    split; [intros _; exact Hsame |].
    intros Hdone. contradiction.
  - split; [| split; [| split]].
    + intros path Hpath. rewrite Hfs. rewrite Hbase in Hpath. cbn in Hpath.
      apply lookup_insert_ne. intros E. apply Hpath. symmetry. exact E.
    + intros Hu base' old Hbase' Hold. rewrite Hbase in Hbase'.
      injection Hbase' as <-. rewrite (Hfree Hu) in Hold. discriminate.
    + intros Hfail. contradiction.
    + intros _. exists base. split; [exact Hbase |]. split; [exact Hname |].
      split; [rewrite Hsrc; eauto |].
      rewrite Hfs, Hsrc. apply lookup_insert_eq.
Qed.

Definition jar_files : gmap string string :=
  {[ "/home/user/maxent.jar" := "jar 3.4.4";
     "/addons/scripts/maxent.jar" := "jar 3.3.3" ]}.

Definition addon_environment : environment :=
  {| GRASS_ADDON_BASE := Some "/addons"; fd_isfile := fun _ => false;
     java_findable := true |}.

Lemma maxent_install_keeps_existing_witness :
  fs (fst (install_maxent addon_environment "/home/user/maxent.jar" false
             {| fs := jar_files; trace := [] |})) = jar_files /\
  snd (install_maxent addon_environment "/home/user/maxent.jar" false
         {| fs := jar_files; trace := [] |}) <> inl tt.
Proof.
  destruct (maxent_install_keeps_existing addon_environment
              "/home/user/maxent.jar" false
              {| fs := jar_files; trace := [] |}) as (_ & Hkeep & _ & _).
  apply (Hkeep eq_refl "/addons" "jar 3.3.3"); reflexivity.
Defined.

(** X17.  What r.maxent.setup installs is what r.maxent.predict looks
    for: after [install_maxent] has ended normally, r.maxent.predict run
    without the option [maxent] under the same addon directory finds
    maxent.jar at the place it was copied to. *)
Theorem maxent_setup_then_predict (env : environment) (maxent : string)
    (overwrite : bool) (st : state) (popts : RMaxentPredict.options)
    (penv : RMaxentPredict.environment) (tr : list RMaxentPredict.event) :
  snd (install_maxent env maxent overwrite st) = inl tt ->
  RMaxentPredict.maxent popts = "" ->
  RMaxentPredict.GRASS_ADDON_BASE penv = GRASS_ADDON_BASE env ->
  exists base,
    GRASS_ADDON_BASE env = Some base /\
    RMaxentPredict.find_maxent popts penv
      {| RMaxentPredict.fs :=
           dom (fs (fst (install_maxent env maxent overwrite st)));
         RMaxentPredict.trace := tr |} =
    ({| RMaxentPredict.fs :=
          dom (fs (fst (install_maxent env maxent overwrite st)));
        RMaxentPredict.trace := tr |},
     inl (installed_jar base)).
Proof.
  intros Hdone Hopt Henv.
  destruct (install_maxent_cases env maxent overwrite st)
    as [[Hfail _] | (base & content & _ & Hbase & _ & _ & _ & Hfs)];
    [contradiction |].
  exists base. split; [exact Hbase |].
  unfold RMaxentPredict.find_maxent. rewrite Hopt, Henv, Hbase.
  cbn [truthy String.eqb negb].
  unfold RMaxentPredict.bind, RMaxentPredict.isfile.
  cbn [RMaxentPredict.fs]. fold (installed_jar base).
  rewrite bool_decide_eq_true_2; [reflexivity |].
  rewrite Hfs. apply elem_of_dom. rewrite lookup_insert_eq. eauto.
Qed.

Definition fresh_files : gmap string string :=
  {[ "/home/user/maxent.jar" := "jar 3.4.4" ]}.

Lemma maxent_setup_then_predict_witness :
  exists base,
    GRASS_ADDON_BASE addon_environment = Some base /\
    RMaxentPredict.find_maxent
      {| RMaxentPredict.java := ""; RMaxentPredict.maxent := "";
         RMaxentPredict.projectionlayers := "";
         RMaxentPredict.alias_file := ""; RMaxentPredict.rasters := "";
         RMaxentPredict.variables := ""; RMaxentPredict.lambdafile := "";
         RMaxentPredict.memory := ""; RMaxentPredict.output := "" |}
      working_environment
      {| RMaxentPredict.fs :=
           dom (fs (fst (install_maxent addon_environment
                           "/home/user/maxent.jar" false
                           {| fs := fresh_files; trace := [] |})));
         RMaxentPredict.trace := [] |} =
    ({| RMaxentPredict.fs :=
          dom (fs (fst (install_maxent addon_environment
                          "/home/user/maxent.jar" false
                          {| fs := fresh_files; trace := [] |})));
        RMaxentPredict.trace := [] |},
     inl (installed_jar base)).
Proof.
  apply (maxent_setup_then_predict addon_environment "/home/user/maxent.jar"
           false {| fs := fresh_files; trace := [] |}).
  - vm_compute. reflexivity.
  - reflexivity.
  - reflexivity.
Defined.

End MaxentSetup.

(** ** r.maxent.setup and r.maxent.predict: the path to Java *)
Section MaxentJavaPath.
Import Python RMaxentSetup RMaxentJava.
Local Open Scope string_scope.
Local Open Scope list_scope.

(** X18.  The flag [u] does not guard the text file with the path to
    Java: the test meant for the file is made on a truth value, that is
    on the standard input or output, and when those are not regular files
    [set_path_to_java] writes the path of an existing Java executable to
    the text file whether or not the file is there and whether or not the
    flag is given. *)
Theorem java_path_written_without_update (env : environment) (java : string)
    (overwrite : bool) (st : state) (base : string) :
  is_Some (fs st !! java) ->
  GRASS_ADDON_BASE env = Some base ->
  (forall b, fd_isfile env b = false) ->
  set_path_to_java env java overwrite st =
  ({| fs := <[java_text_file base := java]> (fs st);
      trace := trace st ++
               [Info (text_file_created (java_text_file base) java)] |},
   inl tt).
Proof.
  intros Hjava Hbase Hfd.
  unfold set_path_to_java, bind, isfile, ret, fatal, raise, emit, write.
  cbn [fst snd fs trace].
  rewrite bool_decide_eq_true_2 by exact Hjava. cbn [negb].
  rewrite Hbase. fold (java_text_file base).
  destruct (bool_decide (is_Some (fs st !! java_text_file base)) && overwrite);
    [reflexivity |].
  rewrite Hfd. reflexivity.
Qed.

Definition java_files : gmap string string :=
  {[ "/usr/bin/java" := "ELF";
     "/addons/scripts/r_maxent_path_to_java.txt" := "/opt/old/java" ]}.

Lemma java_path_written_without_update_witness :
  fs (fst (set_path_to_java addon_environment "/usr/bin/java" false
             {| fs := java_files; trace := [] |}))
    !! "/addons/scripts/r_maxent_path_to_java.txt" = Some "/usr/bin/java".
Proof.
  rewrite (java_path_written_without_update addon_environment
             "/usr/bin/java" false {| fs := java_files; trace := [] |}
             "/addons").
  - vm_compute. reflexivity.
  - vm_compute. eauto.
  - reflexivity.
  - intros b. reflexivity.
Defined.

(** A string without white space. *)
Fixpoint plain (s : string) : bool :=
  match s with
  | EmptyString => true
  | String c rest => negb (isspace c) && plain rest
  end.

Lemma isspace_line_end c :
  isspace c = false ->
  (nat_of_ascii c =? 10)%nat || (nat_of_ascii c =? 13)%nat = false.
Proof.
  unfold isspace. intros H.
  destruct (Nat.eqb_spec (nat_of_ascii c) 10) as [E | _];
    [rewrite E in H; discriminate |].
  destruct (Nat.eqb_spec (nat_of_ascii c) 13) as [E | _];
    [rewrite E in H; discriminate |].
  reflexivity.
Qed.

Lemma readline_plain s : plain s = true -> readline s = s.
Proof.
  induction s as [| c s IH]; [reflexivity |].
  cbn [plain readline]. intros H. apply andb_true_iff in H.
  destruct H as [Hc Hs]. apply negb_true_iff in Hc.
  rewrite (isspace_line_end c Hc), IH by exact Hs. reflexivity.
Qed.

Lemma lstrip_plain s : plain s = true -> lstrip s = s.
Proof.
  destruct s as [| c s]; [reflexivity |].
  cbn [plain lstrip]. intros H. apply andb_true_iff in H.
  destruct H as [Hc _]. apply negb_true_iff in Hc. rewrite Hc. reflexivity.
Qed.

Lemma rstrip_plain s : plain s = true -> rstrip s = s.
Proof.
  induction s as [| c s IH]; [reflexivity |].
  cbn [plain rstrip]. intros H. apply andb_true_iff in H.
  destruct H as [Hc Hs]. apply negb_true_iff in Hc.
  rewrite IH by exact Hs. rewrite Hc. destruct s; reflexivity.
Qed.

Lemma strip_readline_plain s : plain s = true -> strip (readline s) = s.
Proof.
  intros H. rewrite readline_plain by exact H. unfold strip.
  rewrite lstrip_plain by exact H. apply rstrip_plain. exact H.
Qed.

(** X19.  What r.maxent.setup writes is what r.maxent.predict reads:
    after [set_path_to_java] has ended normally for a path without white
    space, [check_java_txtfile] run under the same addon directory gives
    that path back without a warning, provided the executable at the path
    is functional. *)
Theorem java_path_round_trip (env : environment) (java : string)
    (overwrite : bool) (st : state) (base : string)
    (exists_ java_functional : string -> bool) :
  snd (set_path_to_java env java overwrite st) = inl tt ->
  GRASS_ADDON_BASE env = Some base -> base <> "" ->
  java <> "" -> plain java = true ->
  (forall path, is_Some (fs st !! path) -> exists_ path = true) ->
  java_functional java = true ->
  check_java_txtfile (Some base)
    (fs (fst (set_path_to_java env java overwrite st)))
    exists_ java_functional = (Some java, []).
Proof.
  intros Hdone Hbase Hne Hjava Hplain Hexists Hfun.
  assert (Hrun : is_Some (fs st !! java) /\
                 fs (fst (set_path_to_java env java overwrite st)) =
                 <[java_text_file base := java]> (fs st)).
  { revert Hdone.
    unfold set_path_to_java, bind, isfile, ret, fatal, raise, emit, write.
    cbn [fst snd fs trace].
    destruct (bool_decide (is_Some (fs st !! java))) eqn:Ej;
      cbn [negb fst snd]; [| discriminate].
    apply bool_decide_eq_true in Ej.
    rewrite Hbase. fold (java_text_file base).
    destruct (bool_decide (is_Some (fs st !! java_text_file base))
              && overwrite); cbn [fst snd fs]; [auto |].
    destruct (fd_isfile env _); cbn [negb fst snd fs];
      [discriminate | auto]. }
  destruct Hrun as [Hfile Hfs].
  unfold check_java_txtfile.
  assert (Ht : truthy base = true).
  { unfold truthy. apply negb_true_iff. apply String.eqb_neq. exact Hne. }
  rewrite Ht. cbn [negb]. fold (java_text_file base).
  rewrite Hfs, lookup_insert_eq. cbv zeta.
  rewrite strip_readline_plain by exact Hplain.
  assert (Hj : truthy java = true).
  { unfold truthy. apply negb_true_iff. apply String.eqb_neq. exact Hjava. }
  rewrite Hj, Hfun. cbn [negb orb].
  rewrite (Hexists java Hfile). reflexivity.
Qed.

Definition new_java_files : gmap string string :=
  {[ "/usr/bin/java" := "ELF" ]}.

Lemma java_path_round_trip_witness :
  check_java_txtfile (Some "/addons")
    (fs (fst (set_path_to_java addon_environment "/usr/bin/java" false
                {| fs := new_java_files; trace := [] |})))
    (fun _ => true) (fun _ => true) = (Some "/usr/bin/java", []).
Proof.
  apply (java_path_round_trip addon_environment "/usr/bin/java" false
           {| fs := new_java_files; trace := [] |} "/addons"
           (fun _ => true) (fun _ => true)).
  - vm_compute. reflexivity.
  - reflexivity.
  - discriminate.
  - discriminate.
  - reflexivity.
  - intros path _. reflexivity.
  - reflexivity.
Defined.

End MaxentJavaPath.

(** ** v.in.gbif: when the fallback is tried *)
Section GbifPasses.
Import VInGbif.
Local Open Scope string_scope.
Local Open Scope list_scope.

(** X20.  [process_csv] makes a second pass over the file exactly when
    the first one raised a decoding error; any other error of the first
    pass ends the run at once, a missing file with a message that names
    it; and the file counts as converted exactly when the first pass
    succeeded, or the first raised a decoding error and the second
    succeeded. *)
Theorem gbif_fallback_only_on_decoding_error
    (convert : option string -> string -> result)
    (primary : option string) (fallback : string) :
  (length (passes (snd (process_csv convert primary fallback))) = 2%nat <->
   exists e, convert primary "strict" = Raise (UnicodeDecodeError e)) /\
  ((forall e, convert primary "strict" <> Raise (UnicodeDecodeError e)) ->
   snd (process_csv convert primary fallback) = [Open primary "strict"]) /\
  (forall filename e,
     convert primary "strict" = Raise (FileNotFoundError filename e) ->
     fst (process_csv convert primary fallback) =
     Fatal ("Error: File not found - " +:+ filename)) /\
  (fst (process_csv convert primary fallback) = Converted <->
   convert primary "strict" = Return \/
   ((exists e, convert primary "strict" = Raise (UnicodeDecodeError e)) /\
    convert (Some fallback) "replace" = Return)).
Proof.
  unfold process_csv, process_file.
  destruct (convert primary "strict") as [| [e | f e | e]] eqn:E1.
  - cbn. split; [split; [discriminate | intros [e He]; discriminate] |].
    split; [reflexivity |]. split; [discriminate |].
    split; [auto | reflexivity].
  - split.
    + split; [intros _; eauto |]. intros _.
      destruct (convert (Some fallback) "replace") as [| []]; reflexivity.
    + split; [intros H; exfalso; exact (H e eq_refl) |].
      split; [discriminate |].
      destruct (convert (Some fallback) "replace") as [| [e2 | f2 e2 | e2]];
        cbn; split; try discriminate; eauto;
        intros [H | [_ H]]; discriminate.
  - cbn. split; [split; [discriminate | intros [e0 He]; discriminate] |].
    split; [reflexivity |].
    split; [intros filename e0 [= <- _]; reflexivity |].
    split; [discriminate | intros [H | [[e0 H] _]]; discriminate].
  - cbn. split; [split; [discriminate | intros [e0 He]; discriminate] |].
    split; [reflexivity |]. split; [discriminate |].
    split; [discriminate | intros [H | [[e0 H] _]]; discriminate].
Qed.

(** The input file is not there. *)
Definition missing_file (enc : option string) (mode : string) : result :=
  Raise (FileNotFoundError "occurrences.csv" "No such file or directory").

Lemma gbif_fallback_only_on_decoding_error_witness :
  snd (process_csv missing_file None "utf-8") = [Open None "strict"] /\
  fst (process_csv missing_file None "utf-8") =
    Fatal "Error: File not found - occurrences.csv".
Proof.
  destruct (gbif_fallback_only_on_decoding_error missing_file None "utf-8")
    as (_ & Hone & Hmissing & _).
  split.
  - apply Hone. intros e. discriminate.
  - apply (Hmissing "occurrences.csv" "No such file or directory").
    reflexivity.
Defined.

End GbifPasses.

(** ** r.slopeunits.metrics: the metric V and the resolution *)
Section SlopeunitsMetric.
Import RMess RSlopeunitsMetrics.
Local Open Scope Q_scope.

Variable empty_sum : option Q.

Lemma values_num c v_i : values (num c v_i) = map (Qmult c) (values v_i).
Proof.
  induction v_i as [| [x |] v_i IH]; cbn; [reflexivity | | exact IH].
  f_equal. exact IH.
Qed.

Lemma values_den c v_i : values (den c v_i) = map (fun _ => c) v_i.
Proof.
  induction v_i as [| x v_i IH]; cbn; [reflexivity |].
  f_equal. exact IH.
Qed.

Lemma total_scaled c l : total (map (Qmult c) l) == c * total l.
Proof.
  induction l as [| x l IH]; [cbn; lra |].
  cbn [map total fold_right]. fold (total (map (Qmult c) l)). fold (total l).
  rewrite IH. lra.
Qed.

Lemma total_constant {A} c (l : list A) :
  total (map (fun _ => c) l) == c * inject_Z (Z.of_nat (length l)).
Proof.
  induction l as [| x l IH]; [change (0 == c * 0); lra |].
  cbn [map total fold_right length]. fold (total (map (fun _ => c) l)).
  rewrite IH, Nat2Z.inj_succ. unfold Z.succ. rewrite inject_Z_plus.
  change (inject_Z 1) with 1. lra.
Qed.

Lemma r_univar_sum_values m :
  values m <> [] -> r_univar_sum empty_sum m = Some (total (values m)).
Proof.
  unfold r_univar_sum. destruct (values m); [contradiction | reflexivity].
Qed.

(** X21.  The metric V does not depend on the resolution: when at least
    one cell has a circular variance, [v_fin] is the sum of the circular
    variances divided by the number of cells inside the mask, whatever
    the resolution, as long as it is not zero; a resolution of zero ends
    the calculation with a division by zero. *)
Theorem slopeunits_v_fin_is_mean (res : Q) (v_i : list cell) :
  values v_i <> [] ->
  (~ res == 0 ->
   exists v,
     calculate_v_fin empty_sum res v_i = Value v /\
     v * inject_Z (Z.of_nat (length v_i)) == total (values v_i)) /\
  (res == 0 -> calculate_v_fin empty_sum res v_i = ZeroDivisionError).
Proof.
  intros Hvals.
  assert (Hcells : (0 < length v_i)%nat).
  { destruct v_i; [contradiction | cbn; lia]. }
  assert (Hn : 0 < inject_Z (Z.of_nat (length v_i))).
  { change 0 with (inject_Z 0). rewrite <- Zlt_Qlt. lia. }
  assert (Hnum : r_univar_sum empty_sum (num (res * res) v_i) =
                 Some (total (map (Qmult (res * res)) (values v_i)))).
  { rewrite r_univar_sum_values; rewrite values_num; [reflexivity |].
    destruct (values v_i); [contradiction | discriminate]. }
  assert (Hden : r_univar_sum empty_sum (den (res * res) v_i) =
                 Some (total (map (fun _ => res * res) v_i))).
  { rewrite r_univar_sum_values; rewrite values_den; [reflexivity |].
    destruct v_i; [cbn in Hcells; lia | discriminate]. }
  unfold calculate_v_fin. cbv zeta. rewrite Hnum, Hden.
  pose proof (total_scaled (res * res) (values v_i)) as En.
  pose proof (total_constant (res * res) v_i) as Ed.
  split.
  - intros Hres.
    assert (Hsq : ~ res * res == 0).
    { intros H. apply Qmult_integral in H. tauto. }
    assert (Hd : ~ total (map (fun _ => res * res) v_i) == 0).
    { rewrite Ed. intros H. apply Qmult_integral in H.
      destruct H as [H | H]; [contradiction | lra]. }
    apply Qeq_bool_false in Hd. rewrite Hd.
    eexists. split; [reflexivity |].
    rewrite En, Ed. field. split; [lra | exact Hres].
  - intros Hres.
    assert (Hd : total (map (fun _ => res * res) v_i) == 0).
    { rewrite Ed, Hres. ring. }
    apply Qeq_bool_iff in Hd. rewrite Hd. reflexivity.
Qed.

End SlopeunitsMetric.

(** Four cells inside the mask, one of them without a value, at a
    resolution of 10. *)
Lemma slopeunits_v_fin_is_mean_witness :
  exists v,
    RSlopeunitsMetrics.calculate_v_fin None 10
      [Some (1 # 2); None; Some (1 # 4); Some (1 # 4)] = RSlopeunitsMetrics.Value v /\
    (v * inject_Z (Z.of_nat 4) ==
     RSlopeunitsMetrics.total
       (RSlopeunitsMetrics.values
          [Some (1 # 2); None; Some (1 # 4); Some (1 # 4)]))%Q.
Proof.
  apply (slopeunits_v_fin_is_mean None 10
           [Some (1 # 2); None; Some (1 # 4); Some (1 # 4)])%Q.
  - discriminate.
  - discriminate.
Defined.

(** ** v.boxplot: groups with equal medians *)
Section BoxplotTies.
Import Python VBoxplot.
Local Open Scope string_scope.
Local Open Scope list_scope.

(** [p] comes before [q] in a list. *)
Inductive precedes {A} (p q : A) : list A -> Prop :=
| precedes_here l : In q l -> precedes p q (p :: l)
| precedes_later x l : precedes p q l -> precedes p q (x :: l).

Lemma precedes_In {A} (p q : A) l : precedes p q l -> In p l /\ In q l.
Proof.
  induction 1 as [l Hq | x l _ [Hp Hq]].
  - split; [left; reflexivity | right; exact Hq].
  - split; right; assumption.
Qed.

Lemma precedes_app_l {A} (p q : A) l1 l2 :
  precedes p q l1 -> precedes p q (l1 ++ l2).
Proof.
  induction 1 as [l Hq | x l _ IH]; cbn.
  - apply precedes_here. apply in_or_app. left. exact Hq.
  - apply precedes_later. exact IH.
Qed.

Lemma precedes_snoc {A} (p q : A) l : In p l -> precedes p q (l ++ [q]).
Proof.
  induction l as [| x l IH]; intros Hp; [destruct Hp |].
  destruct Hp as [-> | Hp]; cbn.
  - apply precedes_here. apply in_or_app. right. left. reflexivity.
  - apply precedes_later. apply IH. exact Hp.
Qed.

Lemma precedes_rev {A} (p q : A) l : precedes p q l -> precedes q p (rev l).
Proof.
  induction 1 as [l Hq | x l _ IH]; cbn.
  - apply precedes_snoc. apply in_rev in Hq. exact Hq.
  - apply precedes_app_l. exact IH.
Qed.

Lemma precedes_map {A B} (f : A -> B) (p q : A) l :
  precedes p q l -> precedes (f p) (f q) (map f l).
Proof.
  induction 1 as [l Hq | x l _ IH]; cbn.
  - apply precedes_here. apply in_map. exact Hq.
  - apply precedes_later. exact IH.
Qed.

Lemma precedes_lookup {A} (l : list A) : forall i j p q,
  l !! i = Some p -> l !! j = Some q -> (i < j)%nat -> precedes p q l.
Proof.
  induction l as [| x l IH]; intros i j p q Hi Hj Hlt; [discriminate |].
  destruct j as [| j]; [lia |]. cbn in Hj. destruct i as [| i].
  - cbn in Hi. injection Hi as ->. apply precedes_here.
    apply list_elem_of_In. eapply list_elem_of_lookup_2. exact Hj.
  - cbn in Hi. apply precedes_later. apply (IH i j); [assumption .. | lia].
Qed.

Lemma precedes_index {A} (p q : A) l :
  precedes p q l -> NoDup l ->
  forall i j, l !! i = Some p -> l !! j = Some q -> (i < j)%nat.
Proof.
  induction 1 as [l Hq | x l Hpq IH]; intros Hnd i j Hi Hj;
    apply NoDup_cons in Hnd; destruct Hnd as [Hx Hnd].
  - destruct i as [| i].
    + destruct j as [| j]; [| lia].
      cbn in Hj. injection Hj as <-. exfalso. apply Hx.
      apply list_elem_of_In. exact Hq.
    + cbn in Hi. exfalso. apply Hx. eapply list_elem_of_lookup_2. exact Hi.
  - destruct (precedes_In _ _ _ Hpq) as [Hp Hq].
    destruct i as [| i].
    + cbn in Hi. injection Hi as ->. exfalso. apply Hx.
      apply list_elem_of_In. exact Hp.
    + destruct j as [| j].
      * cbn in Hj. injection Hj as ->. exfalso. apply Hx.
        apply list_elem_of_In. exact Hq.
      * cbn in Hi, Hj. specialize (IH Hnd i j Hi Hj). lia.
Qed.

Section Stability.
Context {A : Type} (key : A -> Q).

Lemma insert_sorted_In x y l : In y l -> In y (insert_sorted key x l).
Proof.
  intros H. eapply Permutation_in;
    [symmetry; apply insert_sorted_perm | right; exact H].
Qed.

Lemma insert_sorted_keeps x p q l :
  precedes p q l -> precedes p q (insert_sorted key x l).
Proof.
  induction 1 as [l Hq | y l Hpq IH]; cbn.
  - destruct (Qle_bool (key x) (key p)).
    + apply precedes_later. apply precedes_here. exact Hq.
    + apply precedes_here. apply insert_sorted_In. exact Hq.
  - destruct (Qle_bool (key x) (key y)).
    + apply precedes_later. apply precedes_later. exact Hpq.
    + apply precedes_later. exact IH.
Qed.

Lemma insert_sorted_before x q l :
  In q l -> (key x <= key q)%Q -> precedes x q (insert_sorted key x l).
Proof.
  induction l as [| y l IH]; intros Hq Hle; [destruct Hq |]. cbn.
  destruct (Qle_bool (key x) (key y)) eqn:E.
  - apply precedes_here. exact Hq.
  - apply Qle_bool_false in E.
    destruct Hq as [-> | Hq]; [exfalso; lra |].
    apply precedes_later. apply IH; assumption.
Qed.

(** The sort is stable: of two items the first stays first unless its
    key is the greater one. *)
Lemma stable_sort_stable p q l :
  precedes p q l -> (key p <= key q)%Q -> precedes p q (stable_sort key l).
Proof.
  induction 1 as [l Hq | x l _ IH]; intros Hle; cbn.
  - apply insert_sorted_before; [| exact Hle].
    eapply Permutation_in; [symmetry; apply stable_sort_perm | exact Hq].
  - apply insert_sorted_keeps. apply IH. exact Hle.
Qed.

Lemma list_sort_stable reverse p q l :
  precedes p q l -> (key p == key q)%Q ->
  precedes p q (list_sort key reverse l).
Proof.
  intros Hpq Heq. destruct reverse; cbn.
  - rewrite <- (rev_involutive l) in Hpq. apply precedes_rev in Hpq.
    rewrite rev_involutive in Hpq.
    apply precedes_rev. apply stable_sort_stable; [exact Hpq | lra].
  - apply stable_sort_stable; [exact Hpq | lra].
Qed.

End Stability.

(** X22.  Groups with equal medians keep their order: with
    [order=ascending] as with [order=descending], of two groups with the
    same median the one that comes first in [uid] gets the lower
    position. *)
Theorem boxplot_ties_keep_order (df : list (string * Q)) (uid : list string)
    (sort : string) (boxes : list box) (i j : nat) (bi bj : box) :
  NoDup uid -> In sort ["ascending"; "descending"] ->
  grouped_boxplot df uid sort = Some boxes ->
  boxes !! i = Some bi -> boxes !! j = Some bj -> (i < j)%nat ->
  (median_of df (label bi) == median_of df (label bj))%Q ->
  (position bi < position bj)%nat.
Proof.
  intros Hnd Hsort Hdraw Hbi Hbj Hlt Hmed.
  set (sf := map (fun m => (m, np_median (group_data df m))) uid).
  assert (Hin : In sort [""; "ascending"; "descending"])
    by (right; exact Hsort).
  destruct (order_boxes_ranking df uid sort Hin)
    as (ranking & Horder & Hperm & _).
  assert (Hrank_nd : NoDup ranking) by (rewrite Hperm; exact Hnd).
  assert (Hsome : uid <> []).
  { intros E. rewrite E in Hdraw.
    destruct Hsort as [<- | [<- | []]]; discriminate. }
  destruct (draw_placed df uid sort ranking Hsome Horder Hrank_nd)
    as (boxes' & Hdraw' & _ & Hplaced).
  { intros g Hg. eapply Permutation_in; [symmetry; exact Hperm | exact Hg]. }
  rewrite Hdraw in Hdraw'. injection Hdraw' as <-.
  destruct (Hplaced i bi Hbi) as (Hui & _ & Hpi).
  destruct (Hplaced j bj Hbj) as (Huj & _ & Hpj).
  assert (Hsf : precedes (label bi, np_median (group_data df (label bi)))
                  (label bj, np_median (group_data df (label bj))) sf).
  { unfold sf.
    apply (precedes_map (fun m => (m, np_median (group_data df m)))).
    eapply precedes_lookup; eassumption. }
  assert (Hr : exists reverse,
             ranking = map fst (list_sort snd reverse sf)).
  { fold sf in Horder.
    destruct Hsort as [<- | [<- | []]]; cbn in Horder;
      injection Horder as <-;
      [exists false | exists true]; reflexivity. }
  destruct Hr as [reverse ->].
  eapply precedes_index; [| exact Hrank_nd | exact Hpi | exact Hpj].
  apply (precedes_map fst
           (label bi, np_median (group_data df (label bi)))
           (label bj, np_median (group_data df (label bj)))).
  apply list_sort_stable; [exact Hsf | exact Hmed].
Qed.

(** Two groups with the median 2 and one with the median 1. *)
Definition tied_groups : list (string * Q) :=
  [("oak", 2); ("elm", 1); ("ash", 2)]%Q.

Lemma boxplot_ties_keep_order_witness :
  exists boxes oak ash,
    grouped_boxplot tied_groups ["oak"; "elm"; "ash"] "descending"
      = Some boxes /\
    boxes !! 0%nat = Some oak /\ boxes !! 2%nat = Some ash /\
    (position oak < position ash)%nat.
Proof.
  exists [ {| label := "oak"; data := [2%Q]; position := 0 |};
           {| label := "elm"; data := [1%Q]; position := 2 |};
           {| label := "ash"; data := [2%Q]; position := 1 |} ],
         {| label := "oak"; data := [2%Q]; position := 0 |},
         {| label := "ash"; data := [2%Q]; position := 1 |}.
  split; [vm_compute; reflexivity |].
  split; [reflexivity |]. split; [reflexivity |].
  apply (boxplot_ties_keep_order tied_groups ["oak"; "elm"; "ash"]
           "descending"
           [ {| label := "oak"; data := [2%Q]; position := 0 |};
             {| label := "elm"; data := [1%Q]; position := 2 |};
             {| label := "ash"; data := [2%Q]; position := 1 |} ]
           0 2).
  - compute_done.
  - right. left. reflexivity.
  - vm_compute. reflexivity.
  - reflexivity.
  - reflexivity.
  - lia.
  - vm_compute. reflexivity.
Defined.

End BoxplotTies.
